(** * Day 12: a one-dimensional cellular automaton on a doubly linked chain

    Shallow embedding of the notebook's [Pot], [PotentialPot], [Rules] and
    [Plants] classes.  Python objects live in a store of [Pot.t] records
    keyed by object identity; generators are modelled by their suspended
    state together with a [next] function that reads the store as it is at
    the moment the generator is resumed. *)

From stdpp Require Import gmap strings list fin_maps.
From Stdlib Require Import ZArith Lia Ascii.

Open Scope string_scope.
Open Scope nat_scope.
Open Scope list_scope.

(** ** Exceptions and the result monad *)

(** The Python exceptions the modelled code can raise.  [DanglingRef] has no
    Python counterpart: it is the model's answer when an identity is not in
    the store, which a Python reference can never be. *)
Inductive exn := AssertionError | AttributeError | KeyError | ValueError | DanglingRef.

(** [Timeout] is the answer of a loop that has used up its fuel. *)
Inductive result (A : Type) : Type :=
| Ok (a : A)
| Raise (e : exn)
| Timeout.
Arguments Ok {A} a.
Arguments Raise {A} e.
Arguments Timeout {A}.

#[global] Instance result_ret : MRet result := @Ok.
#[global] Instance result_bind : MBind result := λ A B f m,
  match m with Ok a => f a | Raise e => Raise e | Timeout => Timeout end.
#[global] Instance result_fmap : FMap result := λ A B f m,
  match m with Ok a => Ok (f a) | Raise e => Raise e | Timeout => Timeout end.

(** [[f(x) for x in xs]] where [f] may raise. *)
Fixpoint mapR {A B} (f : A → result B) (xs : list A) : result (list B) :=
  match xs with
  | [] => Ok []
  | x :: xs' => y ← f x; ys ← mapR f xs'; Ok (y :: ys)
  end.

(** ** Pots and the object store *)

Abbreviation id := nat.
Abbreviation Plant := bool.

(** [Dir = str], used only at ['left'] and ['right']. *)
Inductive Dir := Left | Right.

#[global] Instance Dir_eq_dec : EqDecision Dir.
Proof. solve_decision. Defined.

Definition _reverse (d : Dir) : Dir :=
  match d with Left => Right | Right => Left end.

Module Pot.
(** The slots of a [Pot]; [__post_init__] sets both links to [None]. *)
Record t := mk { plant : Plant; left : option id; right : option id }.
Definition new (plant : Plant) : t := mk plant None None.
End Pot.

Abbreviation heap := (gmap id Pot.t).

Definition getattr (d : Dir) (p : Pot.t) : option id :=
  match d with Left => Pot.left p | Right => Pot.right p end.

Definition setattr (d : Dir) (v : option id) (p : Pot.t) : Pot.t :=
  match d with
  | Left => Pot.mk (Pot.plant p) v (Pot.right p)
  | Right => Pot.mk (Pot.plant p) (Pot.left p) v
  end.

Definition set_plant (v : Plant) (p : Pot.t) : Pot.t :=
  Pot.mk v (Pot.left p) (Pot.right p).

Definition deref (h : heap) (i : id) : result Pot.t :=
  match h !! i with Some p => Ok p | None => Raise DanglingRef end.

(** [cls(plant)]: a new object at an identity no object has. *)
Definition alloc (h : heap) (p : Pot.t) : heap * id :=
  let i := fresh (dom h) in (<[i := p]> h, i).

(** [Pot.__str__] *)
Definition Pot_str (p : Pot.t) : ascii :=
  if Pot.plant p then "#"%char else "."%char.

(** [Pot.append]: the assertion looks at [self] only. *)
Definition append (h : heap) (self : id) (d : Dir) (pot : id) : result (heap * id) :=
  s ← deref h self;
  match getattr d s with
  | Some _ => Raise AssertionError
  | None =>
      let h1 := <[self := setattr d (Some pot) s]> h in
      p ← deref h1 pot;
      Ok (<[pot := setattr (_reverse d) (Some self) p]> h1, pot)
  end.

(** [Pot.detach] *)
Definition detach (h : heap) (self : id) (d : Dir) : result (heap * id) :=
  s ← deref h self;
  match getattr d s with
  | None => Raise AssertionError
  | Some next_ =>
      let h1 := <[self := setattr d None s]> h in
      n ← deref h1 next_;
      Ok (<[next_ := setattr (_reverse d) None n]> h1, next_)
  end.

(** The body of the [for c in initial] loop of [Pot.from_initial]. *)
Fixpoint from_initial_loop (h : heap) (pot : id) (initial : string) : result (heap * id) :=
  match initial with
  | EmptyString => Ok (h, pot)
  | String c rest =>
      let '(h1, new) := alloc h (Pot.new (bool_decide (c = "#"%char))) in
      '(h2, pot') ← append h1 pot Right new;
      from_initial_loop h2 pot' rest
  end.

(** [Pot.from_initial].  [root, root.left = start.right, None] binds [root]
    first and then assigns its [left]: with [start.right] still [None] the
    assignment raises [AttributeError]. *)
Definition from_initial (h : heap) (initial : string) : result (heap * id) :=
  let '(h0, start) := alloc h (Pot.new false) in
  '(h1, _) ← from_initial_loop h0 start initial;
  s ← deref h1 start;
  match Pot.right s with
  | None => Raise AttributeError
  | Some root =>
      r ← deref h1 root;
      Ok (<[root := setattr Left None r]> h1, root)
  end.

(** ** Generators *)

(** [Pot.iter_dir]: the suspended generator holds the pot [p] it yielded
    last (or [self] before the first [next]); resuming it evaluates
    [next_(p)] in the store of that moment. *)
Definition iter_dir_next (h : heap) (d : Dir) (p : id) : result (option id) :=
  s ← deref h p; Ok (getattr d s).

(** Running [iter_dir] to exhaustion, as [map], [enumerate] and [sum] do. *)
Fixpoint iter_dir (fuel : nat) (h : heap) (d : Dir) (p : id) : result (list id) :=
  match fuel with
  | O => Timeout
  | S f =>
      n ← iter_dir_next h d p;
      match n with
      | None => Ok []
      | Some q => qs ← iter_dir f h d q; Ok (q :: qs)
      end
  end.

(** [chain((p.plant for p in root.iter_dir(dir)), repeat(False))]: [Some p]
    is the inner generator suspended at [p], [None] is [repeat(False)]. *)
Definition lookahead_next (h : heap) (d : Dir) (la : option id)
  : result (Plant * option id) :=
  match la with
  | None => Ok (false, None)
  | Some p =>
      n ← iter_dir_next h d p;
      match n with
      | None => Ok (false, None)
      | Some q => pq ← deref h q; Ok (Pot.plant pq, Some q)
      end
  end.

(** A [PotentialPot]: its [parent], its [dir] and the pot it has linked
    in, if any.  (Its own [left]/[right] slot towards the parent repeats
    [parent] and is never read.) *)
Record PotentialPot := mkPotentialPot
  { pp_parent : id; pp_dir : Dir; pp_linked : option id }.

(** What the loop variable [pot] of [Rules.apply] can be bound to. *)
Inductive pot_ref := Real (i : id) | Potential (pp : PotentialPot).

(** [PotentialPot.plant] (getter) *)
Definition PotentialPot_plant (h : heap) (pp : PotentialPot) : result Plant :=
  match pp_linked pp with
  | Some l => Pot.plant <$> deref h l
  | None => Ok false
  end.

(** [PotentialPot.plant] (setter), after initialisation. *)
Definition PotentialPot_set_plant (h : heap) (pp : PotentialPot) (plant : Plant)
  : result (heap * PotentialPot) :=
  match pp_linked pp with
  | Some l => p ← deref h l; Ok (<[l := set_plant plant p]> h, pp)
  | None =>
      if plant then
        let '(h1, new) := alloc h (Pot.new plant) in
        let pp' := mkPotentialPot (pp_parent pp) (pp_dir pp) (Some new) in
        '(h2, _) ← append h1 (pp_parent pp) (pp_dir pp) new;
        Ok (h2, pp')
      else Ok (h, pp)
  end.

(** [with_potentials]: either inside [for p in self.iter_dir(dir)] with [p]
    yielded last, or suspended at [yield potpot].  The placeholder is one
    object shared by the generator frame and the loop variable; the caller
    stores its current value back into the state after writing to it. *)
Inductive wp_state := WPIter (p : id) | WPPotential (pp : PotentialPot).

Definition Pot_with_potentials_next (h : heap) (d : Dir) (p : id)
  : result (option (pot_ref * wp_state)) :=
  n ← iter_dir_next h d p;
  match n with
  | Some q => Ok (Some (Real q, WPIter q))
  | None =>
      let potpot := mkPotentialPot p d None in
      Ok (Some (Potential potpot, WPPotential potpot))
  end.

Definition with_potentials_next (h : heap) (d : Dir) (st : wp_state)
  : result (option (pot_ref * wp_state)) :=
  match st with
  | WPIter p => Pot_with_potentials_next h d p
  | WPPotential pp =>
      match pp_linked pp with
      | Some l => Pot_with_potentials_next h d l
      | None => Ok None
      end
  end.

(** ** Rules *)

Abbreviation _State := (list Plant).
Abbreviation _RuleKey := (list Plant).

(** The two rotation functions of [_for_d]. *)
Definition rot (d : Dir) (s : _State) (p : Plant) : _State :=
  match d with
  | Left => p :: take 4 s
  | Right => drop (length s - 4) s ++ [p]
  end.

(** [product([False, True], repeat=n)] *)
Fixpoint product (n : nat) : list (list bool) :=
  match n with
  | O => [[]]
  | S n' => b ← [false; true]; (b ::.) <$> product n'
  end.

Definition _blank_rules : gmap _RuleKey Plant :=
  list_to_map ((λ k, (k, false)) <$> product 5).

Module Rules.
Record t := mk { mapping : gmap _RuleKey Plant }.
End Rules.

(** [str.isspace] on the code points below 256. *)
Definition isspace (c : ascii) : bool :=
  let n := nat_of_ascii c in
  ((9 <=? n) && (n <=? 13)) || ((28 <=? n) && (n <=? 32)) || (n =? 133) || (n =? 160).

(** Truth of [line.strip()]. *)
Definition strip_nonempty (line : string) : bool :=
  existsb (λ c, negb (isspace c)) (String.list_ascii_of_string line).

(** [_rule_parse = re.compile('[.#]').findall] *)
Definition _rule_parse (line : string) : list ascii :=
  filter (λ c, c = "."%char ∨ c = "#"%char) (String.list_ascii_of_string line).

(** [*k, r = (c == '#' for c in _rule_parse(line))] *)
Definition parse_line (line : string) : result (_RuleKey * Plant) :=
  let parsed := (λ c, bool_decide (c = "#"%char)) <$> _rule_parse line in
  match last parsed with
  | None => Raise ValueError
  | Some r => Ok (removelast parsed, r)
  end.

(** [{tuple(k): r for *k, r in parsed}]: later entries overwrite. *)
Definition dict_of (entries : list (_RuleKey * Plant)) : gmap _RuleKey Plant :=
  foldl (λ m kr, <[kr.1 := kr.2]> m) ∅ entries.

(** [{**_blank_rules, **explicit}] *)
Definition build (entries : list (_RuleKey * Plant)) : Rules.t :=
  Rules.mk (dict_of entries ∪ _blank_rules).

(** [Rules.from_lines] *)
Definition Rules_from_lines (lines : list string) : result Rules.t :=
  entries ← mapR parse_line (filter (λ l, strip_nonempty l = true) lines);
  Ok (build entries).

(** [self.mapping.__getitem__] *)
Definition next_plant_state (rules : Rules.t) (k : _RuleKey) : result Plant :=
  match Rules.mapping rules !! k with
  | Some v => Ok v
  | None => Raise KeyError
  end.

(** The loop [for pot, nextplant in zip(pot.with_potentials(dir), lookahead)].
    [zip] resumes [with_potentials] first and stops without touching
    [lookahead] when it is exhausted.  The answer is the store and the last
    binding of [pot]. *)
Fixpoint walk (fuel : nat) (rules : Rules.t) (d : Dir) (h : heap)
    (wp : wp_state) (la : option id) (state : _State) (pot : pot_ref)
  : result (heap * pot_ref) :=
  match fuel with
  | O => Timeout
  | S f =>
      nx ← with_potentials_next h d wp;
      match nx with
      | None => Ok (h, pot)
      | Some (pot', wp') =>
          '(nextplant, la') ← lookahead_next h d la;
          let state' := rot d state nextplant in
          v ← next_plant_state rules state';
          match pot' with
          | Real i =>
              p ← deref h i;
              walk f rules d (<[i := set_plant v p]> h) wp' la' state' (Real i)
          | Potential pp =>
              '(h', pp') ← PotentialPot_set_plant h pp v;
              walk f rules d h' (WPPotential pp') la' state' (Potential pp')
          end
      end
  end.

(** [while not pot.plant and pot is not root: pot = pot.detach(rev)] *)
Fixpoint trim (fuel : nat) (h : heap) (root : id) (rev : Dir) (pot : id) : result heap :=
  match fuel with
  | O => Timeout
  | S f =>
      p ← deref h pot;
      if negb (Pot.plant p) && negb (bool_decide (pot = root)) then
        '(h', pot') ← detach h pot rev;
        trim f h' root rev pot'
      else Ok h
  end.

(** One pass of the second [for dir, rot in _for_d] loop of [Rules.apply]. *)
Definition apply_dir (fuel : nat) (rules : Rules.t) (root : id) (d : Dir)
    (central_state : _State) (lookahead : option id) (h : heap) : result heap :=
  '(h', pot) ← walk fuel rules d h (WPIter root) lookahead central_state (Real root);
  match pot with
  | Real _ => Raise AssertionError
  | Potential pp => trim fuel h' root (_reverse d) (pp_parent pp)
  end.

(** [Rules.apply] *)
Definition apply (fuel : nat) (rules : Rules.t) (h : heap) (root : id) : result heap :=
  r ← deref h root;
  let state := [Pot.plant r] in
  '(l1, la) ← lookahead_next h Left (Some root);
  let state := rot Left state l1 in
  '(l2, la_left) ← lookahead_next h Left la;
  let state := rot Left state l2 in
  '(r1, la) ← lookahead_next h Right (Some root);
  let state := rot Right state r1 in
  '(r2, la_right) ← lookahead_next h Right la;
  let central_state := rot Right state r2 in
  v ← next_plant_state rules central_state;
  let h := <[root := set_plant v r]> h in
  h ← apply_dir fuel rules root Left central_state la_left h;
  apply_dir fuel rules root Right central_state la_right h.

(** ** Plants *)

Module Plants.
Record t := mk { root : id; rules : Rules.t }.
End Plants.

(** [Plants.from_lines] takes the tape after ['initial state:'] on the
    first line; here the tape literal and the rule lines come separately. *)
Definition Plants_from (h : heap) (initial : string) (lines : list string)
  : result (heap * Plants.t) :=
  '(h', root) ← from_initial h initial;
  rules ← Rules_from_lines lines;
  Ok (h', Plants.mk root rules).

(** [Plants.__str__] *)
Definition Plants_str (fuel : nat) (h : heap) (self : Plants.t) : result string :=
  let root := Plants.root self in
  r ← deref h root;
  ls ← iter_dir fuel h Left root;
  lcs ← mapR (λ i, Pot_str <$> deref h i) ls;
  rs ← iter_dir fuel h Right root;
  rcs ← mapR (λ i, Pot_str <$> deref h i) rs;
  Ok (String.string_of_list_ascii (reverse (Pot_str r :: lcs) ++ rcs)).

(** [Plants.step] *)
Definition step (fuel : nat) (h : heap) (self : Plants.t) : result heap :=
  apply fuel (Plants.rules self) h (Plants.root self).

Fixpoint steps (n : nat) (fuel : nat) (h : heap) (self : Plants.t) : result heap :=
  match n with
  | O => Ok h
  | S n' => h' ← step fuel h self; steps n' fuel h' self
  end.

(** [sum(i for i, p in enumerate(..., 1) if p.plant)] *)
Fixpoint sum_enumerate (h : heap) (i : Z) (pots : list id) : result Z :=
  match pots with
  | [] => Ok 0%Z
  | p :: pots' =>
      o ← deref h p;
      s ← sum_enumerate h (i + 1)%Z pots';
      Ok (if Pot.plant o then (i + s)%Z else s)
  end.

(** [Plants.score] *)
Definition score (fuel : nat) (h : heap) (self : Plants.t) : result Z :=
  rs ← iter_dir fuel h Right (Plants.root self);
  sr ← sum_enumerate h 1 rs;
  ls ← iter_dir fuel h Left (Plants.root self);
  sl ← sum_enumerate h 1 ls;
  Ok (sr - sl)%Z.

(** ** The puzzle fixture *)

Definition test_initial : string := "#..#.#..##......###...###".

Definition test_lines : list string :=
  [ ""; "...## => #"; "..#.. => #"; ".#... => #"; ".#.#. => #"; ".#.## => #";
    ".##.. => #"; ".#### => #"; "#.#.# => #"; "#.### => #"; "##.#. => #";
    "##.## => #"; "###.. => #"; "###.# => #"; "####. => #" ].

Definition testplants_score (fuel : nat) : result Z :=
  '(h, testplants) ← Plants_from ∅ test_initial test_lines;
  h' ← steps 20 fuel h testplants;
  score fuel h' testplants.

(** ** Monad and store lemmas *)

Lemma bind_Ok {A B} (m : result A) (f : A → result B) b :
  m ≫= f = Ok b ↔ ∃ a, m = Ok a ∧ f a = Ok b.
Proof.
  destruct m as [a|e|]; simpl; split.
  - intros H. exists a. done.
  - intros (a' & [= <-] & H). done.
  - done.
  - intros (a' & [=] & _).
  - done.
  - intros (a' & [=] & _).
Qed.

Lemma deref_Some (h : heap) i p : h !! i = Some p → deref h i = Ok p.
Proof. unfold deref. by intros ->. Qed.

Lemma deref_Ok (h : heap) i p : deref h i = Ok p ↔ h !! i = Some p.
Proof. unfold deref. destruct (h !! i); naive_solver. Qed.

Lemma alloc_fresh (h : heap) p : h !! (alloc h p).2 = None.
Proof. simpl. apply not_elem_of_dom, is_fresh. Qed.

(** ** The rule table *)

Lemma dict_of_snoc entries k r :
  dict_of (entries ++ [(k, r)]) = <[k := r]> (dict_of entries).
Proof. unfold dict_of. by rewrite foldl_app. Qed.

(** The result of the last entry for [k], in the words of the rule format:
    the entries for [k] are kept in order and the last one is taken. *)
Definition last_entry (k : _RuleKey) (entries : list (_RuleKey * Plant)) : option Plant :=
  snd <$> last (filter (λ kr, kr.1 = k) entries).

Lemma dict_of_lookup entries k : dict_of entries !! k = last_entry k entries.
Proof.
  unfold last_entry.
  induction entries as [|[k' r] entries IH] using rev_ind; [done|].
  rewrite dict_of_snoc, filter_app, lookup_insert.
  rewrite filter_cons, filter_nil. simpl. case_decide; subst.
  - by rewrite last_snoc.
  - by rewrite app_nil_r.
Qed.

Lemma blank_rules_lookup a b c d e : _blank_rules !! [a; b; c; d; e] = Some false.
Proof. by destruct a, b, c, d, e. Qed.

Lemma blank_rules_length k v : _blank_rules !! k = Some v → length k = 5 ∧ v = false.
Proof.
  unfold _blank_rules. intros H%elem_of_list_to_map_2.
  apply list_elem_of_fmap in H as (k' & [= -> ->] & Hk).
  split; [|done].
  repeat (apply elem_of_cons in Hk as [->|Hk]; [done|]).
  by apply elem_of_nil in Hk.
Qed.

Lemma build_lookup entries a b c d e :
  next_plant_state (build entries) [a; b; c; d; e]
  = Ok (default false (last_entry [a; b; c; d; e] entries)).
Proof.
  unfold next_plant_state, build. simpl.
  rewrite lookup_union, dict_of_lookup, blank_rules_lookup.
  by destruct (last_entry _ entries).
Qed.

(** C3. The table built from any sequence of rule entries answers every one
    of the 32 five-cell patterns: with the result of the last entry given for
    that pattern when there is one, and with false otherwise.  Building is a
    total function, so repeated patterns raise nothing. *)
Theorem build_lookup_total (entries : list (_RuleKey * Plant)) (a b c d e : Plant) :
  next_plant_state (build entries) [a; b; c; d; e]
  = Ok (default false (last_entry [a; b; c; d; e] entries)).
Proof. apply build_lookup. Qed.

(** ** Rule lines *)

(** The rule format in the words of the rule literal format: five cell
    characters, the arrow [" => "], one cell character. *)
Definition is_cell_char (c : ascii) : bool :=
  bool_decide (c = "."%char) || bool_decide (c = "#"%char).

Definition rule_line_shape (line : string) : bool :=
  match String.list_ascii_of_string line with
  | [p1; p2; p3; p4; p5; s1; e; g; s2; r] =>
      forallb is_cell_char [p1; p2; p3; p4; p5; r]
      && bool_decide ([s1; e; g; s2] = [" "; "="; ">"; " "]%char)
  | _ => false
  end.

(** What a line that has a cell character is read as. *)
Definition entry_of (line : string) : _RuleKey * Plant :=
  let parsed := (λ c, bool_decide (c = "#"%char)) <$> _rule_parse line in
  (removelast parsed, default false (last parsed)).

Lemma parse_line_Ok line :
  _rule_parse line ≠ [] → parse_line line = Ok (entry_of line).
Proof.
  unfold parse_line, entry_of. intros Hne.
  destruct (last _) eqn:E; [done|].
  apply last_None in E. by apply fmap_nil_inv in E.
Qed.

Lemma parse_line_Raise line :
  _rule_parse line = [] → parse_line line = Raise ValueError.
Proof. unfold parse_line. by intros ->. Qed.

Lemma mapR_parse_Ok lines :
  Forall (λ l, _rule_parse l ≠ []) lines →
  mapR parse_line lines = Ok (entry_of <$> lines).
Proof.
  induction 1 as [|l lines Hl _ IH]; [done|].
  simpl. rewrite parse_line_Ok by done. simpl. by rewrite IH.
Qed.

Lemma mapR_parse_Raise lines :
  Exists (λ l, _rule_parse l = []) lines →
  mapR parse_line lines = Raise ValueError.
Proof.
  induction lines as [|l lines IH]; intros Hex.
  - by apply Exists_nil in Hex.
  - simpl. destruct (decide (_rule_parse l = [])) as [E|E].
    + by rewrite parse_line_Raise.
    + rewrite parse_line_Ok by done. simpl.
      apply Exists_cons in Hex as [?|Hex]; [done|]. by rewrite IH.
Qed.

(** C5 (as amended).  Blank and whitespace-only lines are skipped.  A
    non-blank line is never checked against the pattern-arrow-result shape:
    its ['.'] and ['#'] characters are collected in order, the last one is
    the result and those before it are the key, whatever their number and
    whatever else the line holds.  Loading raises (a [ValueError], from the
    unpacking) exactly when some non-blank line holds no cell character. *)
Theorem Rules_from_lines_lenient (lines : list string) :
  (∀ l1 l2 blank, strip_nonempty blank = false →
     Rules_from_lines (l1 ++ blank :: l2) = Rules_from_lines (l1 ++ l2))
  ∧ ((∀ l, l ∈ lines → strip_nonempty l = true → _rule_parse l ≠ []) →
     Rules_from_lines lines
     = Ok (build (entry_of <$> filter (λ l, strip_nonempty l = true) lines)))
  ∧ ((∃ l, l ∈ lines ∧ strip_nonempty l = true ∧ _rule_parse l = []) →
     Rules_from_lines lines = Raise ValueError).
Proof.
  split; [|split].
  - intros l1 l2 blank Hb. unfold Rules_from_lines.
    rewrite !filter_app, filter_cons. by rewrite decide_False by congruence.
  - intros Hall. unfold Rules_from_lines. rewrite mapR_parse_Ok; [done|].
    apply Forall_forall. intros l [Hnb Hl]%list_elem_of_filter. by apply Hall.
  - intros (l & Hl & Hnb & Hp). unfold Rules_from_lines.
    rewrite mapR_parse_Raise; [done|].
    apply Exists_exists. exists l. split; [|done]. by apply list_elem_of_filter.
Qed.

(** The shape is not enforced: a line with no arrow and a single cell
    character loads as a rule with the empty key. *)
Lemma Rules_from_lines_lenient_witness :
  Rules_from_lines ["no arrow here #"; "   "] = Ok (build [([], true)]).
Proof.
  destruct (Rules_from_lines_lenient ["no arrow here #"; "   "]) as (_ & Hacc & _).
  rewrite Hacc; [done|].
  intros l Hl Hnb.
  apply elem_of_cons in Hl as [->|Hl]; [done|].
  apply elem_of_cons in Hl as [->|Hl]; [done|].
  by apply elem_of_nil in Hl.
Defined.

(** A non-blank line that does not have the pattern-arrow-result shape, and
    that loads all the same. *)
Lemma malformed_rule_line_accepted :
  strip_nonempty "..#..#" = true ∧ rule_line_shape "..#..#" = false
  ∧ Rules_from_lines ["..#..#"] = Ok (build [([false; false; true; false; false], true)]).
Proof. done. Qed.

(** ** Chains in the store *)

(** A cell of a chain: the identity of its pot and the plant it holds. *)
Abbreviation cell := (id * Plant)%type.

Definition head_id (cells : list cell) (nxt : option id) : option id :=
  match cells with [] => nxt | c :: _ => Some c.1 end.

Definition last_id (prev : id) (cells : list cell) : id :=
  default prev (last cells.*1).

(** [lseg h d prev cells nxt]: walking from [prev] in direction [d] meets
    the pots of [cells] in order, each holding its plant and pointing back
    to the one before; the last one points on to [nxt]. *)
Fixpoint lseg (h : heap) (d : Dir) (prev : id) (cells : list cell) (nxt : option id) : Prop :=
  match cells with
  | [] => True
  | c :: cells' =>
      (∃ o, h !! c.1 = Some o ∧ Pot.plant o = c.2
            ∧ getattr (_reverse d) o = Some prev
            ∧ getattr d o = head_id cells' nxt)
      ∧ lseg h d c.1 cells' nxt
  end.

(** One side of a tape: [root] points to the first cell, the last cell
    points to nothing. *)
Definition side_repr (h : heap) (d : Dir) (root : id) (cells : list cell) : Prop :=
  (∃ r, h !! root = Some r ∧ getattr d r = head_id cells None)
  ∧ lseg h d root cells None.

(** The tape a store holds around [root]: cells to the left and to the
    right, nearest first, and the plant of the root. *)
Record tape_repr (h : heap) (root : id)
    (lcells : list cell) (c : Plant) (rcells : list cell) : Prop := mk_tape_repr
  { repr_plant : ∃ r, h !! root = Some r ∧ Pot.plant r = c;
    repr_nodup : NoDup (root :: lcells.*1 ++ rcells.*1);
    repr_left : side_repr h Left root lcells;
    repr_right : side_repr h Right root rcells }.

Lemma reverse_involutive d : _reverse (_reverse d) = d.
Proof. by destruct d. Qed.

Lemma reverse_ne d : _reverse d ≠ d.
Proof. by destruct d. Qed.

Lemma getattr_setattr d v p : getattr d (setattr d v p) = v.
Proof. by destruct d. Qed.

Lemma getattr_setattr_ne d d' v p : d ≠ d' → getattr d (setattr d' v p) = getattr d p.
Proof. by destruct d, d'. Qed.

Lemma plant_setattr d v p : Pot.plant (setattr d v p) = Pot.plant p.
Proof. by destruct d. Qed.

Lemma getattr_set_plant d v p : getattr d (set_plant v p) = getattr d p.
Proof. by destruct d. Qed.

Lemma last_id_snoc prev cells c : last_id prev (cells ++ [c]) = c.1.
Proof. unfold last_id. rewrite fmap_app. simpl. by rewrite last_snoc. Qed.

Lemma last_id_cons prev c cells : last_id prev (c :: cells) = last_id c.1 cells.
Proof.
  unfold last_id. rewrite fmap_cons, last_cons.
  by destruct (last cells.*1).
Qed.

Lemma last_id_elem_of prev cells : cells ≠ [] → last_id prev cells ∈ cells.*1.
Proof.
  intros Hne. destruct cells as [|c cells] using rev_ind; [done|].
  rewrite last_id_snoc, fmap_app. set_solver.
Qed.

Lemma head_id_app cells1 cells2 nxt :
  head_id (cells1 ++ cells2) nxt = head_id cells1 (head_id cells2 nxt).
Proof. by destruct cells1. Qed.

Lemma lseg_frame h h' d prev cells nxt :
  (∀ i, i ∈ cells.*1 → h' !! i = h !! i) →
  lseg h d prev cells nxt → lseg h' d prev cells nxt.
Proof.
  revert prev. induction cells as [|c cells IH]; intros prev Hfr; [done|].
  simpl. intros [(o & Ho & ?) Hseg]. split.
  - exists o. rewrite Hfr; [done|]. set_solver.
  - apply IH; [|done]. intros i Hi. apply Hfr. set_solver.
Qed.

Lemma lseg_app h d prev cells1 cells2 nxt :
  lseg h d prev (cells1 ++ cells2) nxt
  ↔ lseg h d prev cells1 (head_id cells2 nxt) ∧ lseg h d (last_id prev cells1) cells2 nxt.
Proof.
  revert prev. induction cells1 as [|c cells1 IH]; intros prev.
  - simpl. unfold last_id. simpl. tauto.
  - simpl. rewrite IH, last_id_cons, head_id_app. tauto.
Qed.

Lemma lseg_lookup h d prev cells nxt i :
  lseg h d prev cells nxt → i ∈ cells.*1 → is_Some (h !! i).
Proof.
  revert prev. induction cells as [|c cells IH]; intros prev; simpl.
  - intros _ Hi. by apply elem_of_nil in Hi.
  - intros [(o & Ho & _) Hseg] [->|Hi]%elem_of_cons; eauto.
Qed.

(** Redirecting the link out of the last cell of a segment. *)
Lemma lseg_retarget h d prev cells nxt nxt' r :
  NoDup cells.*1 → cells ≠ [] →
  h !! last_id prev cells = Some r →
  lseg h d prev cells nxt →
  lseg (<[last_id prev cells := setattr d nxt' r]> h) d prev cells nxt'.
Proof.
  revert prev. induction cells as [|c cells IH]; intros prev Hnd Hne Hr; [done|].
  simpl. intros [(o & Ho & Hp & Hb & Hn) Hseg].
  rewrite fmap_cons in Hnd. apply NoDup_cons in Hnd as [Hc Hnd].
  rewrite last_id_cons in Hr |- *.
  destruct cells as [|c' cells].
  - unfold last_id in *. simpl in *. split; [|done].
    assert (r = o) as -> by congruence.
    exists (setattr d nxt' o). rewrite lookup_insert_eq.
    by rewrite plant_setattr, getattr_setattr, getattr_setattr_ne by apply reverse_ne.
  - split.
    + exists o. rewrite lookup_insert_ne; [done|].
      intros E. apply Hc. rewrite <- E. by apply last_id_elem_of.
    + by apply IH.
Qed.

Lemma side_repr_frame h h' d root cells :
  (∀ i, i ∈ cells.*1 → h' !! i = h !! i) →
  (∃ r r', h !! root = Some r ∧ h' !! root = Some r' ∧ getattr d r' = getattr d r) →
  side_repr h d root cells → side_repr h' d root cells.
Proof.
  intros Hfr (r & r' & Hr & Hr' & Hd) [(r0 & Hr0 & Hh) Hseg]. split.
  - exists r'. split; [done|]. rewrite Hd. congruence.
  - by eapply lseg_frame.
Qed.

Lemma lseg_last h d prev cells nxt :
  cells ≠ [] → lseg h d prev cells nxt →
  ∃ o, h !! last_id prev cells = Some o ∧ getattr d o = nxt.
Proof.
  intros Hne. destruct cells as [|c cells _] using rev_ind; [done|].
  rewrite lseg_app, last_id_snoc. simpl.
  intros (_ & (o & Ho & _ & _ & Hn) & _). eauto.
Qed.

Lemma side_repr_last h d root cells :
  side_repr h d root cells →
  ∃ pl, h !! last_id root cells = Some pl ∧ getattr d pl = None.
Proof.
  intros [(r & Hr & Hh) Hseg]. destruct (decide (cells = [])) as [->|Hne].
  - exists r. done.
  - by eapply lseg_last.
Qed.

Lemma side_repr_dom h d root cells i :
  side_repr h d root cells → i ∈ root :: cells.*1 → i ∈ dom h.
Proof.
  intros [(r & Hr & _) Hseg] [->|Hi]%elem_of_cons; apply elem_of_dom; [eauto|].
  by eapply lseg_lookup.
Qed.

Lemma fresh_not_in_side h d root cells :
  side_repr h d root cells → fresh (dom h) ∉ root :: cells.*1.
Proof. intros Hs Hin. apply (is_fresh (dom h)). by eapply side_repr_dom. Qed.

(** A new pot appended behind the last pot of a side. *)
Lemma append_new h d root cells v :
  side_repr h d root cells → NoDup (root :: cells.*1) →
  ∃ h2, append (alloc h (Pot.new v)).1 (last_id root cells) d (fresh (dom h))
        = Ok (h2, fresh (dom h))
      ∧ side_repr h2 d root (cells ++ [(fresh (dom h), v)])
      ∧ (∀ i, i ≠ last_id root cells → i ≠ fresh (dom h) → h2 !! i = h !! i)
      ∧ (∃ pl, h !! last_id root cells = Some pl
               ∧ h2 !! last_id root cells = Some (setattr d (Some (fresh (dom h))) pl)).
Proof.
  intros Hside Hnd.
  pose proof (fresh_not_in_side _ _ _ _ Hside) as Hnew.
  destruct (side_repr_last _ _ _ _ Hside) as (pl & Hpl & Hend).
  set (new := fresh (dom h)) in *. set (plast := last_id root cells) in *.
  assert (plast ≠ new) as Hne.
  { intros E. apply Hnew. rewrite <- E. unfold plast.
    destruct (decide (cells = [])) as [->|?]; [set_solver|].
    apply elem_of_cons. right. by apply last_id_elem_of. }
  eexists. split; [|split; [|split]].
  - unfold append, alloc. simpl. fold new.
    rewrite (deref_Some _ _ pl) by by rewrite lookup_insert_ne. simpl.
    rewrite Hend. rewrite (deref_Some _ _ (Pot.new v)); [done|].
    by rewrite lookup_insert_ne, lookup_insert_eq.
  - destruct Hside as [(r & Hr & Hh) Hseg]. split.
    + destruct (decide (cells = [])) as [->|Hc].
      * exists (setattr d (Some new) pl). simpl.
        rewrite lookup_insert_ne, lookup_insert_eq by done.
        by rewrite getattr_setattr.
      * assert (plast ≠ root) as Hpr.
        { intros E. apply NoDup_cons in Hnd as [Hroot _]. apply Hroot.
          rewrite <- E. by apply last_id_elem_of. }
        assert (new ≠ root) as Hnr by set_solver.
        exists r. rewrite !lookup_insert_ne by done. by destruct cells.
    + apply lseg_app. split.
      * destruct (decide (cells = [])) as [->|Hc]; [done|].
        apply NoDup_cons in Hnd as [_ Hnd].
        eapply lseg_frame; [|eapply (lseg_retarget _ _ _ _ None); [done..| |]].
        -- intros i Hi. rewrite lookup_insert_ne; [done|]. set_solver.
        -- by rewrite lookup_insert_ne.
        -- eapply lseg_frame; [|done]. intros i Hi.
           rewrite lookup_insert_ne; [done|]. set_solver.
      * simpl. split; [|done]. eexists. rewrite lookup_insert_eq. split; [done|].
        rewrite plant_setattr, getattr_setattr.
        split; [done|]. split; [done|]. by destruct d.
  - intros i Hi1 Hi2. by rewrite !lookup_insert_ne.
  - exists pl. split; [done|]. by rewrite lookup_insert_ne, lookup_insert_eq.
Qed.

(** ** Loading a tape *)

Definition is_hash (c : ascii) : Plant := bool_decide (c = "#"%char).

Lemma from_initial_loop_spec initial : ∀ h start cells,
  side_repr h Right start cells → NoDup (start :: cells.*1) →
  ∃ h' news,
    from_initial_loop h (last_id start cells) initial
    = Ok (h', last_id start (cells ++ news))
    ∧ side_repr h' Right start (cells ++ news)
    ∧ NoDup (start :: (cells ++ news).*1)
    ∧ news.*2 = is_hash <$> String.list_ascii_of_string initial.
Proof.
  induction initial as [|c rest IH]; intros h start cells Hside Hnd.
  - exists h, []. rewrite app_nil_r. done.
  - simpl.
    destruct (append_new h Right start cells (is_hash c) Hside Hnd)
      as (h2 & Happ & Hside2 & _).
    unfold alloc in *. simpl in Happ. fold (is_hash c). rewrite Happ. simpl.
    assert (NoDup (start :: (cells ++ [(fresh (dom h), is_hash c)]).*1)) as Hnd2.
    { pose proof (fresh_not_in_side _ _ _ _ Hside) as Hnew.
      rewrite fmap_app. simpl.
      apply NoDup_cons in Hnd as [H1 H2]. apply NoDup_cons. split.
      - set_solver.
      - apply NoDup_app. split; [done|]. split; [set_solver|]. apply NoDup_singleton. }
    destruct (IH h2 start _ Hside2 Hnd2) as (h' & news & Hloop & Hside' & Hnd' & Hnews).
    rewrite last_id_snoc in Hloop. simpl in Hloop.
    exists h', ((fresh (dom h), is_hash c) :: news).
    rewrite <- app_assoc in Hloop, Hside', Hnd'. simpl in *.
    split; [done|]. split; [done|]. split; [done|]. f_equal. exact Hnews.
Qed.

(** What [from_initial] builds from a non-empty literal: the first
    character at the root, the others to its right. *)
Lemma from_initial_repr h c rest :
  ∃ h' root rcells,
    from_initial h (String c rest) = Ok (h', root)
    ∧ tape_repr h' root [] (is_hash c) rcells
    ∧ rcells.*2 = is_hash <$> String.list_ascii_of_string rest.
Proof.
  unfold from_initial, alloc.
  set (start := fresh (dom h)). set (h0 := <[start := Pot.new false]> h).
  assert (side_repr h0 Right start []) as Hside0.
  { split; [|done]. exists (Pot.new false). unfold h0. by rewrite lookup_insert_eq. }
  assert (NoDup (start :: ([] : list cell).*1)) as Hnd0 by apply NoDup_singleton.
  destruct (from_initial_loop_spec (String c rest) h0 start [] Hside0 Hnd0)
    as (h1 & cells & Hloop & [(s & Hs & Hhead) Hseg] & Hnd & Hcells).
  change (last_id start []) with start in Hloop.
  simpl in Hseg, Hnd, Hhead, Hcells.
  rewrite Hloop. simpl.
  destruct cells as [|[root x] rcells]; [done|].
  simpl in *. destruct Hseg as [(o & Ho & Hx & Hback & Hnext) Hseg].
  injection Hcells as -> Hcells.
  rewrite (deref_Some _ _ _ Hs). simpl. rewrite Hhead.
  rewrite (deref_Some _ _ _ Ho). simpl.
  exists (<[root := setattr Left None o]> h1), root, rcells.
  split; [done|]. split; [|done].
  apply NoDup_cons in Hnd as [_ Hnd]. pose proof Hnd as [Hroot _]%NoDup_cons.
  split.
  - eexists. rewrite lookup_insert_eq. split; [done|]. done.
  - done.
  - split; [|done]. eexists. rewrite lookup_insert_eq. done.
  - split.
    + eexists. rewrite lookup_insert_eq. split; [done|]. done.
    + eapply lseg_frame; [|done]. intros i Hi. rewrite lookup_insert_ne; [done|].
      intros ->. done.
Qed.

(** C10. [from_initial] is partial: on the empty literal it raises, the
    attribute assignment on the missing first cell failing, and it returns a
    root exactly when the literal is not empty. *)
Theorem from_initial_partial (h : heap) :
  from_initial h "" = Raise AttributeError
  ∧ ∀ initial, (∃ h' root, from_initial h initial = Ok (h', root)) ↔ initial ≠ "".
Proof.
  assert (from_initial h "" = Raise AttributeError) as Hempty.
  { unfold from_initial, alloc. simpl.
    rewrite (deref_Some _ _ (Pot.new false)) by by rewrite lookup_insert_eq. done. }
  split; [done|]. intros initial. split.
  - intros (h' & root & Hok) ->. by rewrite Hempty in Hok.
  - intros Hne. destruct initial as [|c rest]; [done|].
    destruct (from_initial_repr h c rest) as (h' & root & ? & ? & _). eauto.
Qed.

(** ** Reading a tape back *)

Definition plant_char (x : Plant) : ascii := if x then "#"%char else "."%char.

(** The string of a tape: left cells outermost first, the root, right cells. *)
Definition tape_str (ls : list Plant) (c : Plant) (rs : list Plant) : string :=
  String.string_of_list_ascii (plant_char <$> (reverse ls ++ c :: rs)).

Lemma side_repr_tail h d p c cells :
  side_repr h d p (c :: cells) → side_repr h d c.1 cells.
Proof.
  intros [_ [(o & Ho & _ & _ & Hn) Hseg]]. split; [|done].
  exists o. by destruct cells.
Qed.

Lemma iter_dir_side h d cells : ∀ p fuel,
  side_repr h d p cells → length cells < fuel →
  iter_dir fuel h d p = Ok cells.*1.
Proof.
  induction cells as [|c cells IH]; intros p fuel Hside Hfuel;
    (destruct fuel as [|fuel]; [simpl in Hfuel; lia|]);
    pose proof Hside as [(r & Hr & Hhead) _]; simpl;
    unfold iter_dir_next; rewrite (deref_Some _ _ _ Hr); simpl; rewrite Hhead; simpl.
  - done.
  - rewrite (IH c.1 fuel); [done| |simpl in Hfuel; lia].
    by eapply side_repr_tail.
Qed.

Lemma mapR_str_lseg h d cells : ∀ prev nxt,
  lseg h d prev cells nxt →
  mapR (λ i, Pot_str <$> deref h i) cells.*1 = Ok (plant_char <$> cells.*2).
Proof.
  induction cells as [|c cells IH]; intros prev nxt; [done|].
  csimpl. intros [(o & Ho & Hp & _) Hseg].
  rewrite (deref_Some _ _ _ Ho). csimpl. rewrite (IH _ _ Hseg). csimpl.
  unfold Pot_str. by rewrite Hp.
Qed.

Lemma Plants_str_repr fuel h root rules lcells c rcells :
  tape_repr h root lcells c rcells →
  length lcells < fuel → length rcells < fuel →
  Plants_str fuel h (Plants.mk root rules) = Ok (tape_str lcells.*2 c rcells.*2).
Proof.
  intros [(r & Hr & Hc) _ Hl Hr'] Hfl Hfr. unfold Plants_str. simpl.
  rewrite (deref_Some _ _ _ Hr). simpl.
  rewrite (iter_dir_side _ _ _ _ _ Hl Hfl). simpl.
  rewrite (mapR_str_lseg _ _ _ _ _ (proj2 Hl)). simpl.
  rewrite (iter_dir_side _ _ _ _ _ Hr' Hfr). simpl.
  rewrite (mapR_str_lseg _ _ _ _ _ (proj2 Hr')). simpl.
  unfold tape_str, Pot_str. rewrite Hc.
  by rewrite fmap_app, fmap_reverse, reverse_cons, <- app_assoc.
Qed.

Lemma cell_chars_roundtrip (s : string) :
  (∀ c, c ∈ String.list_ascii_of_string s → c = "."%char ∨ c = "#"%char) →
  String.string_of_list_ascii
    (plant_char <$> (is_hash <$> String.list_ascii_of_string s)) = s.
Proof.
  induction s as [|c s IH]; intros Hall; [done|].
  csimpl. rewrite IH.
  - f_equal. destruct (Hall c) as [-> | ->]; [apply elem_of_cons; by left|done..].
  - intros c' Hc'. apply Hall. apply elem_of_cons. by right.
Qed.

Lemma from_initial_cells h initial :
  initial ≠ "" →
  ∃ h' root c rcells,
    from_initial h initial = Ok (h', root)
    ∧ tape_repr h' root [] c rcells
    ∧ c :: rcells.*2 = is_hash <$> String.list_ascii_of_string initial.
Proof.
  intros Hne. destruct initial as [|c rest]; [done|].
  destruct (from_initial_repr h c rest) as (h' & root & rcells & Hok & Hrepr & Hcells).
  exists h', root, (is_hash c), rcells. simpl. rewrite Hcells. done.
Qed.

(** C4 (as amended).  Loading checks no character: on every non-empty
    literal it returns a tape, the first character at the root and the
    others to its right, and a cell is true exactly where the character is
    ['#']; any other character, ['.'] or not, loads as a false cell. *)
Theorem from_initial_accepts_any_char (h : heap) (initial : string) :
  initial ≠ "" →
  ∃ h' root c rcells,
    from_initial h initial = Ok (h', root)
    ∧ tape_repr h' root [] c rcells
    ∧ c :: rcells.*2 = is_hash <$> String.list_ascii_of_string initial.
Proof. apply from_initial_cells. Qed.

Lemma from_initial_accepts_any_char_witness :
  ∃ h' root c rcells,
    from_initial ∅ "#x#" = Ok (h', root)
    ∧ tape_repr h' root [] c rcells
    ∧ c :: rcells.*2 = [true; false; true].
Proof. by apply (from_initial_accepts_any_char ∅ "#x#"). Defined.

(** A literal with a character outside ['.'] and ['#'] that loads, the
    stray character reading back as ['.']. *)
Lemma invalid_tape_character_accepted :
  ∃ h root,
    from_initial ∅ "#x#" = Ok (h, root)
    ∧ Plants_str 5 h (Plants.mk root (build [])) = Ok "#.#".
Proof. eexists _, _. split; [reflexivity|]. by vm_compute. Qed.

(** C6.  For every literal over ['.'] and ['#'] that has a leftmost
    character, [from_initial] returns a tape whose root holds that
    character with nothing to its left and the other characters to its
    right in order, and [__str__] called on it gives the literal back. *)
Theorem from_initial_str_roundtrip (h : heap) (initial : string) (rules : Rules.t) :
  initial ≠ "" →
  (∀ c, c ∈ String.list_ascii_of_string initial → c = "."%char ∨ c = "#"%char) →
  ∃ h' root c rcells,
    from_initial h initial = Ok (h', root)
    ∧ tape_repr h' root [] c rcells
    ∧ c :: rcells.*2 = is_hash <$> String.list_ascii_of_string initial
    ∧ ∀ fuel, String.length initial ≤ fuel →
        Plants_str fuel h' (Plants.mk root rules) = Ok initial.
Proof.
  intros Hne Hall.
  destruct (from_initial_cells h initial Hne)
    as (h' & root & c & rcells & Hok & Hrepr & Hcells).
  exists h', root, c, rcells. do 3 (split; [done|]).
  intros fuel Hfuel.
  assert (S (length rcells) = String.length initial) as Hlen.
  { apply (f_equal length) in Hcells.
    rewrite length_cons, !length_fmap in Hcells.
    etrans; [exact Hcells|]. clear. induction initial; simpl; congruence. }
  rewrite (Plants_str_repr fuel h' root rules [] c rcells Hrepr); [|simpl; lia|lia].
  unfold tape_str. simpl. f_equal.
  change (String.string_of_list_ascii (plant_char <$> c :: rcells.*2) = initial).
  rewrite Hcells. by apply cell_chars_roundtrip.
Qed.

Lemma from_initial_str_roundtrip_witness :
  ∃ h' root c rcells,
    from_initial ∅ "#..#" = Ok (h', root)
    ∧ tape_repr h' root [] c rcells
    ∧ c :: rcells.*2 = [true; false; false; true]
    ∧ ∀ fuel, 4 ≤ fuel → Plants_str fuel h' (Plants.mk root (build [])) = Ok "#..#".
Proof.
  apply (from_initial_str_roundtrip ∅ "#..#" (build [])); [done|].
  intros c Hc. simpl in Hc.
  repeat (apply elem_of_cons in Hc as [->|Hc]; [by auto|]).
  by apply elem_of_nil in Hc.
Defined.

(** ** Scoring *)

(** The cells of one side with their signed positions: [sign * 1],
    [sign * 2], ... counted from the root outwards. *)
Fixpoint offsets (sign i : Z) (xs : list Plant) : list (Z * Plant) :=
  match xs with
  | [] => []
  | x :: xs' => ((sign * i)%Z, x) :: offsets sign (i + 1) xs'
  end.

(** Every cell of a tape with its position relative to the root. *)
Definition tape_cells (ls : list Plant) (c : Plant) (rs : list Plant) : list (Z * Plant) :=
  offsets (-1) 1 ls ++ (0%Z, c) :: offsets 1 1 rs.

(** The sum of the positions of the true cells. *)
Definition signed_sum (ls : list Plant) (c : Plant) (rs : list Plant) : Z :=
  foldr Z.add 0%Z (fst <$> filter (λ p, p.2 = true) (tape_cells ls c rs)).

(** What [sum(i for i, p in enumerate(pots, i) if p.plant)] adds up. *)
Fixpoint wsum (i : Z) (xs : list Plant) : Z :=
  match xs with
  | [] => 0
  | x :: xs' => (if x then i else 0) + wsum (i + 1) xs'
  end%Z.

Lemma sum_enumerate_lseg h d cells : ∀ prev nxt i,
  lseg h d prev cells nxt →
  sum_enumerate h i cells.*1 = Ok (wsum i cells.*2).
Proof.
  induction cells as [|c cells IH]; intros prev nxt i; [done|].
  csimpl. intros [(o & Ho & Hp & _) Hseg].
  rewrite (deref_Some _ _ _ Ho). csimpl. rewrite (IH _ _ _ Hseg). csimpl.
  rewrite Hp. by destruct c.2.
Qed.

Lemma offsets_sum sign xs : ∀ i,
  foldr Z.add 0%Z (fst <$> filter (λ p, p.2 = true) (offsets sign i xs))
  = (sign * wsum i xs)%Z.
Proof.
  induction xs as [|x xs IH]; intros i; simpl; [lia|].
  rewrite filter_cons. destruct x; csimpl; rewrite IH; lia.
Qed.

Lemma signed_sum_wsum ls c rs :
  signed_sum ls c rs = (wsum 1 rs - wsum 1 ls)%Z.
Proof.
  unfold signed_sum, tape_cells.
  rewrite filter_app, fmap_app, foldr_app, filter_cons.
  assert (∀ (l : list Z) a, foldr Z.add a l = (foldr Z.add 0 l + a)%Z) as Hacc.
  { induction l as [|z l IHl]; intros a; simpl; [lia|]. rewrite IHl. lia. }
  rewrite Hacc, offsets_sum.
  destruct c; csimpl; rewrite offsets_sum; lia.
Qed.

Lemma score_repr fuel h root rules lcells c rcells :
  tape_repr h root lcells c rcells →
  length lcells < fuel → length rcells < fuel →
  score fuel h (Plants.mk root rules) = Ok (wsum 1 rcells.*2 - wsum 1 lcells.*2)%Z.
Proof.
  intros [_ _ Hl Hr] Hfl Hfr. unfold score. simpl.
  rewrite (iter_dir_side _ _ _ _ _ Hr Hfr). simpl.
  rewrite (sum_enumerate_lseg _ _ _ _ _ _ (proj2 Hr)). simpl.
  rewrite (iter_dir_side _ _ _ _ _ Hl Hfl). simpl.
  by rewrite (sum_enumerate_lseg _ _ _ _ _ _ (proj2 Hl)).
Qed.

(** C7.  In every engine state the score is the sum, over the true cells,
    of their signed position: [+1], [+2], ... to the right of the root,
    [-1], [-2], ... to its left, and [0] for the root itself whatever it
    holds. *)
Theorem score_signed_sum (fuel : nat) (h : heap) (root : id) (rules : Rules.t)
    (lcells : list cell) (c : Plant) (rcells : list cell) :
  tape_repr h root lcells c rcells →
  length lcells < fuel → length rcells < fuel →
  score fuel h (Plants.mk root rules) = Ok (signed_sum lcells.*2 c rcells.*2).
Proof. intros Hrepr Hfl Hfr. rewrite signed_sum_wsum. by apply (score_repr fuel h root rules lcells c rcells). Qed.

(** A tape with true cells exactly at the positions -2, 0 and 3: the root
    and three cells to its right come from a literal, the two cells to its
    left are appended by hand. *)
Definition example_tape : result (heap * id) :=
  '(h, root) ← from_initial ∅ "#..#";
  let '(h, l1) := alloc h (Pot.new false) in
  '(h, l1) ← append h root Left l1;
  let '(h, l2) := alloc h (Pot.new true) in
  '(h, _) ← append h l1 Left l2;
  Ok (h, root).

Definition example_heap : heap :=
  Eval vm_compute in match example_tape with Ok (h, _) => h | _ => ∅ end.

Lemma example_tape_repr :
  example_tape = Ok (example_heap, 1)
  ∧ tape_repr example_heap 1 [(5, false); (6, true)] true [(2, false); (3, false); (4, true)].
Proof.
  split; [by vm_compute|].
  split.
  - by eexists.
  - apply (bool_decide_unpack _). by vm_compute.
  - split; [by eexists|]. simpl. repeat split; by eexists.
  - split; [by eexists|]. simpl. repeat split; by eexists.
Qed.

Lemma score_signed_sum_witness :
  score 4 example_heap (Plants.mk 1 (build [])) = Ok 1%Z.
Proof.
  apply (score_signed_sum 4 example_heap 1 (build [])
           [(5, false); (6, true)] true [(2, false); (3, false); (4, true)]).
  - apply example_tape_repr.
  - simpl. lia.
  - simpl. lia.
Defined.

(** ** Fuel

    More fuel never changes an answer that is not [Timeout]. *)

Lemma bind_not_Timeout {A B} (m : result A) (f : A → result B) :
  m ≫= f ≠ Timeout → m ≠ Timeout.
Proof. by destruct m. Qed.

Lemma iter_dir_unfold fuel h d p :
  iter_dir (S fuel) h d p
  = n ← iter_dir_next h d p;
    match n with
    | None => Ok []
    | Some q => qs ← iter_dir fuel h d q; Ok (q :: qs)
    end.
Proof. done. Qed.

Lemma walk_unfold fuel rules d h wp la state pot :
  walk (S fuel) rules d h wp la state pot
  = nx ← with_potentials_next h d wp;
    match nx with
    | None => Ok (h, pot)
    | Some (pot', wp') =>
        '(nextplant, la') ← lookahead_next h d la;
        let state' := rot d state nextplant in
        v ← next_plant_state rules state';
        match pot' with
        | Real i =>
            p ← deref h i;
            walk fuel rules d (<[i := set_plant v p]> h) wp' la' state' (Real i)
        | Potential pp =>
            '(h', pp') ← PotentialPot_set_plant h pp v;
            walk fuel rules d h' (WPPotential pp') la' state' (Potential pp')
        end
    end.
Proof. done. Qed.

Lemma trim_unfold fuel h root rev pot :
  trim (S fuel) h root rev pot
  = p ← deref h pot;
    if negb (Pot.plant p) && negb (bool_decide (pot = root)) then
      '(h', pot') ← detach h pot rev; trim fuel h' root rev pot'
    else Ok h.
Proof. done. Qed.

Ltac bind_cases := cbn [mbind result_bind]; try done.

Lemma iter_dir_fuel_S h d : ∀ fuel p,
  iter_dir fuel h d p ≠ Timeout → iter_dir (S fuel) h d p = iter_dir fuel h d p.
Proof.
  induction fuel as [|fuel IH]; intros p; [done|].
  rewrite (iter_dir_unfold (S fuel)), (iter_dir_unfold fuel).
  destruct (iter_dir_next h d p) as [[q|]| |]; bind_cases.
  intros Hne. rewrite IH; [done|]. by destruct (iter_dir fuel h d q).
Qed.

Lemma walk_fuel_S rules d : ∀ fuel h wp la state pot,
  walk fuel rules d h wp la state pot ≠ Timeout →
  walk (S fuel) rules d h wp la state pot = walk fuel rules d h wp la state pot.
Proof.
  induction fuel as [|fuel IH]; intros h wp la state pot; [done|].
  rewrite (walk_unfold (S fuel)), (walk_unfold fuel).
  destruct (with_potentials_next h d wp) as [[[pot' wp']|]| |]; bind_cases.
  destruct (lookahead_next h d la) as [[nextplant la']| |]; bind_cases.
  destruct (next_plant_state rules _) as [v| |]; bind_cases.
  destruct pot' as [i|pp].
  - destruct (deref h i) as [p| |]; bind_cases. apply IH.
  - destruct (PotentialPot_set_plant h pp v) as [[h' pp']| |]; bind_cases. apply IH.
Qed.

Lemma trim_fuel_S root rev : ∀ fuel h pot,
  trim fuel h root rev pot ≠ Timeout →
  trim (S fuel) h root rev pot = trim fuel h root rev pot.
Proof.
  induction fuel as [|fuel IH]; intros h pot; [done|].
  rewrite (trim_unfold (S fuel)), (trim_unfold fuel).
  destruct (deref h pot) as [p| |]; bind_cases.
  destruct (negb _ && negb _); [|done].
  destruct (detach h pot rev) as [[h' pot']| |]; bind_cases. apply IH.
Qed.

(** Lifting "one more unit" to "any larger amount". *)
Lemma fuel_le {A} (F : nat → result A) :
  (∀ fuel, F fuel ≠ Timeout → F (S fuel) = F fuel) →
  ∀ fuel fuel', fuel ≤ fuel' → F fuel ≠ Timeout → F fuel' = F fuel.
Proof.
  intros HS fuel fuel' Hle Hne. induction Hle as [|fuel' Hle IH]; [done|].
  rewrite HS; [done|]. by rewrite IH.
Qed.

Lemma apply_dir_fuel_S rules root d st la h fuel :
  apply_dir fuel rules root d st la h ≠ Timeout →
  apply_dir (S fuel) rules root d st la h = apply_dir fuel rules root d st la h.
Proof.
  unfold apply_dir. intros Hne.
  rewrite walk_fuel_S by by eapply bind_not_Timeout.
  revert Hne.
  destruct (walk fuel _ _ _ _ _ _ _) as [[h' [i|pp]]| |]; bind_cases.
  apply trim_fuel_S.
Qed.

Lemma apply_fuel_S rules h root fuel :
  apply fuel rules h root ≠ Timeout →
  apply (S fuel) rules h root = apply fuel rules h root.
Proof.
  unfold apply.
  destruct (deref h root) as [r| |]; bind_cases.
  destruct (lookahead_next h Left (Some root)) as [[l1 la1]| |]; bind_cases.
  destruct (lookahead_next h Left la1) as [[l2 la_left]| |]; bind_cases.
  destruct (lookahead_next h Right (Some root)) as [[r1 la2]| |]; bind_cases.
  destruct (lookahead_next h Right la2) as [[r2 la_right]| |]; bind_cases.
  destruct (next_plant_state rules _) as [v| |]; bind_cases.
  intros Hne.
  rewrite apply_dir_fuel_S by by eapply bind_not_Timeout.
  revert Hne.
  destruct (apply_dir fuel _ _ Left _ _ _) as [h'| |]; bind_cases.
  apply apply_dir_fuel_S.
Qed.

Lemma steps_fuel_S self : ∀ n h fuel,
  steps n fuel h self ≠ Timeout →
  steps n (S fuel) h self = steps n fuel h self.
Proof.
  induction n as [|n IH]; intros h fuel; [done|].
  cbn [steps]. unfold step. intros Hne.
  rewrite apply_fuel_S by by eapply bind_not_Timeout.
  revert Hne.
  destruct (apply fuel _ h _) as [h'| |]; bind_cases.
  apply IH.
Qed.

Lemma sum_enumerate_not_Timeout h : ∀ pots i, sum_enumerate h i pots ≠ Timeout.
Proof.
  induction pots as [|p pots IH]; intros i; [done|]. cbn [sum_enumerate].
  unfold deref. destruct (h !! p) as [o|]; bind_cases.
  specialize (IH (i + 1)%Z). by destruct (sum_enumerate h (i + 1) pots).
Qed.

Lemma score_fuel_S h self fuel :
  score fuel h self ≠ Timeout → score (S fuel) h self = score fuel h self.
Proof.
  unfold score. intros Hne.
  rewrite (iter_dir_fuel_S h Right) by by eapply bind_not_Timeout.
  revert Hne.
  destruct (iter_dir fuel h Right _) as [rs| |]; bind_cases.
  destruct (sum_enumerate h 1 rs) as [sr| |]; bind_cases.
  intros Hne. by rewrite iter_dir_fuel_S by by eapply bind_not_Timeout.
Qed.

Lemma testplants_score_fuel_S fuel :
  testplants_score fuel ≠ Timeout → testplants_score (S fuel) = testplants_score fuel.
Proof.
  unfold testplants_score.
  destruct (Plants_from ∅ test_initial test_lines) as [[h p]| |]; bind_cases.
  intros Hne. rewrite steps_fuel_S by by eapply bind_not_Timeout.
  revert Hne.
  destruct (steps 20 fuel h p) as [h'| |]; bind_cases.
  apply score_fuel_S.
Qed.

(** The fourteen patterns the fixture maps to a plant. *)
Definition test_patterns : list _RuleKey :=
  (λ s, is_hash <$> String.list_ascii_of_string s) <$>
  ["...##"; "..#.."; ".#..."; ".#.#."; ".#.##"; ".##.."; ".####";
   "#.#.#"; "#.###"; "##.#."; "##.##"; "###.."; "###.#"; "####."].

(** C1.  The fixture of the notebook: the tape [#..#.#..##......###...###]
    under the rule table that maps exactly the fourteen listed patterns to
    a plant scores 325 after twenty steps.  The loops of the run need no
    more than 40 units of fuel, and any larger amount gives the same
    answer. *)
Theorem testplants_score_325 (fuel : nat) :
  40 ≤ fuel →
  (∃ h testplants,
     Plants_from ∅ test_initial test_lines = Ok (h, testplants)
     ∧ ∀ a b c d e,
         next_plant_state (Plants.rules testplants) [a; b; c; d; e]
         = Ok (bool_decide ([a; b; c; d; e] ∈ test_patterns)))
  ∧ testplants_score fuel = Ok 325%Z.
Proof.
  intros Hle. split.
  - eexists _, _. split; [vm_compute; reflexivity|].
    intros a b c d e. by destruct a, b, c, d, e; vm_compute.
  - assert (testplants_score 40 = Ok 325%Z) as H40 by by vm_compute.
    rewrite (fuel_le testplants_score testplants_score_fuel_S 40 fuel Hle);
      rewrite H40; done.
Qed.

Lemma testplants_score_325_witness : testplants_score 64 = Ok 325%Z.
Proof. apply testplants_score_325. lia. Defined.

(** ** One step, on lists

    What [Rules.apply] computes, told on the lists of plants of the two
    sides.  The lemmas below show that the walk over the store computes
    exactly this. *)

Definition rule_of (rules : Rules.t) (k : _RuleKey) : Plant :=
  default false (Rules.mapping rules !! k).

(** The table answers every five-cell pattern. *)
Definition total5 (rules : Rules.t) : Prop :=
  ∀ a b c d e, is_Some (Rules.mapping rules !! [a; b; c; d; e]).

(** The new plants of the cells of one side that exist before the step:
    the window is rotated with the old plant two cells further out. *)
Fixpoint sweep_news (rules : Rules.t) (d : Dir) (st : _State) (olds : list Plant)
  : list Plant :=
  match olds with
  | [] => []
  | _ :: olds' =>
      let st' := rot d st (default false (olds' !! 1)) in
      rule_of rules st' :: sweep_news rules d st' olds'
  end.

(** The window after the last existing cell. *)
Fixpoint sweep_state (rules : Rules.t) (d : Dir) (st : _State) (olds : list Plant)
  : _State :=
  match olds with
  | [] => st
  | _ :: olds' => sweep_state rules d (rot d st (default false (olds' !! 1))) olds'
  end.

(** The cells linked in beyond the last existing cell: one for every
    placeholder written true, up to the first one written false. *)
Fixpoint grow (fuel : nat) (rules : Rules.t) (d : Dir) (st : _State)
  : option (list Plant) :=
  match fuel with
  | O => None
  | S f =>
      let st' := rot d st false in
      if rule_of rules st' then (true ::.) <$> grow f rules d st' else Some []
  end.

(** Dropping the false cells at the far end. *)
Fixpoint trim_false (xs : list Plant) : list Plant :=
  match xs with
  | [] => []
  | x :: xs' =>
      match trim_false xs' with
      | [] => if x then [x] else []
      | ys => x :: ys
      end
  end.

Definition step_side (rules : Rules.t) (d : Dir) (fuel : nat) (central : _State)
    (olds : list Plant) : option (list Plant) :=
  g ← grow fuel rules d (sweep_state rules d central olds);
  Some (trim_false (sweep_news rules d central olds ++ g)).

Definition central_state (ls : list Plant) (c : Plant) (rs : list Plant) : _State :=
  [default false (ls !! 1); default false (ls !! 0); c;
   default false (rs !! 0); default false (rs !! 1)].

Abbreviation tape := (list Plant * Plant * list Plant)%type.

Definition step_tape (rules : Rules.t) (fuel : nat) (t : tape) : option tape :=
  let '(ls, c, rs) := t in
  let cs := central_state ls c rs in
  ls' ← step_side rules Left fuel cs ls;
  rs' ← step_side rules Right fuel cs rs;
  Some (ls', rule_of rules cs, rs').

Lemma rot_length d st x : length st = 5 → length (rot d st x) = 5.
Proof.
  destruct st as [|a [|b [|c [|e [|f [|]]]]]]; try done. by destruct d.
Qed.

Lemma sweep_state_length rules d olds : ∀ st,
  length st = 5 → length (sweep_state rules d st olds) = 5.
Proof.
  induction olds as [|x olds IH]; intros st Hst; [done|].
  simpl. by apply IH, rot_length.
Qed.

Lemma sweep_news_length rules d olds : ∀ st,
  length (sweep_news rules d st olds) = length olds.
Proof. induction olds as [|x olds IH]; intros st; simpl; [done|]. by rewrite IH. Qed.

Lemma next_plant_state_total rules st :
  total5 rules → length st = 5 → next_plant_state rules st = Ok (rule_of rules st).
Proof.
  intros Htot Hlen. destruct st as [|a [|b [|c [|d [|e [|]]]]]]; try done.
  unfold next_plant_state, rule_of. destruct (Htot a b c d e) as [v Hv].
  by rewrite Hv.
Qed.

(** ** The walk over the store *)

(** The lookahead generator suspended at the cell of index [k] yields the
    plant of the cell of index [k + 1] and moves there, or yields false for
    ever once the chain has ended. *)
Lemma lookahead_next_lseg h d cells : ∀ prev k,
  lseg h d prev cells None →
  lookahead_next h d (cells.*1 !! k)
  = Ok (default false (cells.*2 !! S k), cells.*1 !! S k).
Proof.
  induction cells as [|c cells IH]; intros prev k; [done|].
  intros [(o & Ho & Hp & Hb & Hn) Hseg]. destruct k as [|k].
  - csimpl. unfold iter_dir_next. rewrite (deref_Some _ _ _ Ho). csimpl. rewrite Hn.
    destruct cells as [|c2 cells]; [done|].
    destruct Hseg as [(o2 & Ho2 & Hp2 & _) _]. csimpl.
    rewrite (deref_Some _ _ _ Ho2). csimpl. by rewrite Hp2.
  - csimpl. by eapply IH.
Qed.

Lemma lookahead_next_root h d root cells :
  side_repr h d root cells →
  lookahead_next h d (Some root) = Ok (default false (cells.*2 !! 0), cells.*1 !! 0).
Proof.
  intros [(r & Hr & Hhead) Hseg]. csimpl. unfold iter_dir_next.
  rewrite (deref_Some _ _ _ Hr). csimpl. rewrite Hhead.
  destruct cells as [|c cells]; [done|].
  destruct Hseg as [(o & Ho & Hp & _) _]. csimpl.
  rewrite (deref_Some _ _ _ Ho). csimpl. by rewrite Hp.
Qed.

(** The store after [pot.plant = v] for the pots [ids] in turn. *)
Fixpoint write_plants (h : heap) (ids : list id) (vs : list Plant) : heap :=
  match ids, vs with
  | i :: ids', v :: vs' => write_plants (alter (set_plant v) i h) ids' vs'
  | _, _ => h
  end.

Lemma insert_set_plant (h : heap) i v o :
  h !! i = Some o → <[i := set_plant v o]> h = alter (set_plant v) i h.
Proof.
  intros Ho. apply map_eq. intros j. rewrite lookup_alter, lookup_insert.
  case_decide; subst; by rewrite ?Ho.
Qed.

Lemma write_plants_frame ids : ∀ h vs i,
  i ∉ ids → write_plants h ids vs !! i = h !! i.
Proof.
  induction ids as [|j ids IH]; intros h vs i Hi; [done|].
  destruct vs as [|v vs]; [done|]. simpl.
  rewrite IH by set_solver. rewrite lookup_alter_ne; [done|]. set_solver.
Qed.

Lemma write_plants_getattr ids d : ∀ h vs i,
  getattr d <$> write_plants h ids vs !! i = getattr d <$> h !! i.
Proof.
  induction ids as [|j ids IH]; intros h vs i; [done|].
  destruct vs as [|v vs]; [done|]. simpl.
  rewrite IH, lookup_alter. case_decide; subst; [|done].
  destruct (h !! i); [|done]. simpl. by rewrite getattr_set_plant.
Qed.

Lemma side_repr_alter_plant h d p cells i v :
  i ∉ cells.*1 → side_repr h d p cells →
  side_repr (alter (set_plant v) i h) d p cells.
Proof.
  intros Hi [(r & Hr & Hhead) Hseg]. split.
  - destruct (decide (i = p)) as [->|Hne].
    + exists (set_plant v r). rewrite lookup_alter_eq, Hr. split; [done|].
      by rewrite getattr_set_plant.
    + exists r. by rewrite lookup_alter_ne.
  - eapply lseg_frame; [|done]. intros j Hj. apply lookup_alter_ne. by intros ->.
Qed.

(** The binding of [pot] after the loop has gone through [cells]. *)
Definition last_pot (pot : pot_ref) (cells : list cell) : pot_ref :=
  match last cells with Some c => Real c.1 | None => pot end.

Lemma last_pot_cons pot c cells : last_pot pot (c :: cells) = last_pot (Real c.1) cells.
Proof. unfold last_pot. rewrite last_cons. by destruct (last cells). Qed.

(** The part of the loop over the pots that exist: it writes the swept
    plants and changes no link. *)
Lemma walk_real rules d : total5 rules → ∀ cells h p la st pot fuel,
  side_repr h d p cells → NoDup cells.*1 → la = cells.*1 !! 1 → length st = 5 →
  walk (length cells + fuel) rules d h (WPIter p) la st pot
  = walk fuel rules d (write_plants h cells.*1 (sweep_news rules d st cells.*2))
      (WPIter (last_id p cells)) None (sweep_state rules d st cells.*2)
      (last_pot pot cells).
Proof.
  intros Htot. induction cells as [|c cells IH]; intros h p la st pot fuel Hside Hnd -> Hst.
  - done.
  - pose proof Hside as [(r & Hr & Hhead) Hseg].
    pose proof Hseg as [(o & Ho & Hp & Hb & Hn) Hseg'].
    change (length (c :: cells) + fuel) with (S (length cells + fuel)).
    rewrite walk_unfold. cbn [with_potentials_next].
    unfold Pot_with_potentials_next, iter_dir_next.
    rewrite (deref_Some _ _ _ Hr). bind_cases. rewrite Hhead.
    cbn [head_id mbind result_bind].
    rewrite (lookahead_next_lseg h d (c :: cells) p 1 Hseg). bind_cases.
    rewrite next_plant_state_total by (by try apply rot_length). bind_cases.
    rewrite (deref_Some _ _ _ Ho). bind_cases.
    rewrite (insert_set_plant _ _ _ _ Ho).
    rewrite fmap_cons in Hnd. apply NoDup_cons in Hnd as [Hc Hnd].
    rewrite IH; [|by apply side_repr_alter_plant, (side_repr_tail _ _ p)|done|done|by apply rot_length].
    by rewrite last_id_cons, last_pot_cons.
Qed.

Lemma write_plants_side h d p cells : ∀ vs,
  side_repr h d p cells → NoDup cells.*1 → length vs = length cells →
  side_repr (write_plants h cells.*1 vs) d p (zip cells.*1 vs).
Proof.
  revert h p. induction cells as [|c cells IH]; intros h p vs Hside Hnd Hlen.
  - destruct vs; done.
  - destruct vs as [|v vs]; [done|].
    pose proof Hside as [(r & Hr & Hhead) [(o & Ho & Hp & Hb & Hn) Hseg]].
    rewrite fmap_cons in Hnd. apply NoDup_cons in Hnd as [Hc Hnd].
    simpl in Hlen.
    assert (side_repr (alter (set_plant v) c.1 h) d c.1 cells) as Hside'.
    { by apply side_repr_alter_plant, (side_repr_tail _ _ p). }
    specialize (IH _ _ vs Hside' Hnd ltac:(lia)).
    destruct IH as [(o' & Ho' & Hn') Hseg2]. csimpl. split.
    + pose proof (write_plants_getattr cells.*1 d (alter (set_plant v) c.1 h) vs p) as Hg.
      rewrite lookup_alter in Hg. case_decide as Hpc.
      * subst p. rewrite Hr in Hg. csimpl in Hg.
        destruct (write_plants _ _ _ !! c.1) as [r'|] eqn:E; [|done].
        exists r'. split; [done|]. injection Hg as ->. by rewrite getattr_set_plant.
      * rewrite Hr in Hg.
        destruct (write_plants _ _ _ !! p) as [r'|] eqn:E; [|done].
        exists r'. split; [done|]. injection Hg as ->. done.
    + split; [|done]. exists o'. split; [done|].
      pose proof (write_plants_frame cells.*1 (alter (set_plant v) c.1 h) vs c.1 Hc) as Hf.
      rewrite lookup_alter_eq, Ho in Hf. rewrite Ho' in Hf. injection Hf as ->.
      simpl. rewrite !getattr_set_plant.
      split; [done|]. split; [done|].
      rewrite Hn. destruct cells as [|c2 cells]; [done|].
      destruct vs as [|v2 vs]; [done|]. done.
Qed.

(** [with_potentials] has run out of pots at [p]: it is inside the [for]
    loop with [p] yielded last, or suspended at a placeholder that has
    linked [p] in. *)
Definition at_end (wp : wp_state) (p : id) : Prop :=
  wp = WPIter p ∨ ∃ pp, wp = WPPotential pp ∧ pp_linked pp = Some p.

Lemma with_potentials_next_at_end h d wp p :
  at_end wp p → with_potentials_next h d wp = Pot_with_potentials_next h d p.
Proof. by intros [->|(pp & -> & Hpp)]; simpl; rewrite ?Hpp. Qed.

Lemma setattr_same d p : setattr d (getattr d p) p = p.
Proof. by destruct d, p. Qed.

Lemma NoDup_snoc_fresh (root new : id) (ids : list id) :
  NoDup (root :: ids) → new ∉ root :: ids → NoDup (root :: ids ++ [new]).
Proof.
  intros [Hr Hnd]%NoDup_cons Hnew. apply NoDup_cons. split.
  - rewrite elem_of_app, list_elem_of_singleton. intros [?| ->]; [done|].
    apply Hnew. by left.
  - apply NoDup_app. split; [done|]. split; [|apply NoDup_singleton].
    intros i Hi ->%list_elem_of_singleton. apply Hnew. by right.
Qed.

(** The part of the loop beyond the last pot: every placeholder written
    true links a new pot in, the first one written false ends the loop. *)
Lemma walk_grow rules d : total5 rules → ∀ fuel h root cells wp st pot g,
  side_repr h d root cells → NoDup (root :: cells.*1) →
  at_end wp (last_id root cells) → length st = 5 →
  grow fuel rules d st = Some g →
  ∃ h' news,
    walk (S fuel) rules d h wp None st pot
    = Ok (h', Potential (mkPotentialPot (last_id root (cells ++ news)) d None))
    ∧ side_repr h' d root (cells ++ news)
    ∧ news.*2 = g
    ∧ NoDup (root :: (cells ++ news).*1)
    ∧ (∀ i, i ∈ news.*1 → i ∉ dom h)
    ∧ (∀ i, i ∈ dom h → i ≠ last_id root cells → h' !! i = h !! i)
    ∧ (∃ pl, h !! last_id root cells = Some pl
             ∧ h' !! last_id root cells = Some (setattr d (head_id news None) pl)).
Proof.
  intros Htot. induction fuel as [|fuel IH];
    intros h root cells wp st pot g Hside Hnd Hend Hst Hgrow; [done|].
  destruct (side_repr_last _ _ _ _ Hside) as (pl & Hpl & Hnone).
  rewrite walk_unfold, (with_potentials_next_at_end _ _ _ _ Hend).
  unfold Pot_with_potentials_next, iter_dir_next.
  rewrite (deref_Some _ _ _ Hpl). bind_cases. rewrite Hnone. bind_cases.
  cbn [lookahead_next]. bind_cases.
  rewrite next_plant_state_total by (by try apply rot_length). bind_cases.
  cbn [grow] in Hgrow.
  destruct (rule_of rules (rot d st false)) eqn:Hv.
  - destruct (grow fuel rules d (rot d st false)) as [g'|] eqn:Hg'; [|done].
    injection Hgrow as <-.
    unfold PotentialPot_set_plant. cbn [pp_linked pp_parent pp_dir].
    destruct (append_new h d root cells true Hside Hnd)
      as (h2 & Happ & Hside2 & Hframe2 & (pl' & Hpl' & Hpl2)).
    assert (pl' = pl) as -> by congruence.
    pose proof (fresh_not_in_side _ _ _ _ Hside) as Hnew.
    set (new := fresh (dom h)) in *.
    change (alloc h (Pot.new true)) with (<[new := Pot.new true]> h, new) in Happ |- *.
    cbn [fst] in Happ. cbn iota beta. rewrite Happ. bind_cases.
    assert (NoDup (root :: (cells ++ [(new, true)]).*1)) as Hnd2.
    { rewrite fmap_app. by apply NoDup_snoc_fresh. }
    edestruct (IH h2 root (cells ++ [(new, true)])
                 (WPPotential (mkPotentialPot (last_id root cells) d (Some new)))
                 (rot d st false)
                 (Potential (mkPotentialPot (last_id root cells) d (Some new))) g')
      as (h' & news & Hwalk & Hside' & Hg & Hnd' & Hfresh' & Hframe' & (pn & Hpn & Hpn'));
      [done|done| |by apply rot_length|done|].
    { right. eexists. split; [done|]. by rewrite last_id_snoc. }
    rewrite last_id_snoc in Hframe', Hpn, Hpn'. cbn [fst] in Hframe', Hpn, Hpn'.
    assert (last_id root cells ≠ new) as Hne.
    { intros E. apply (is_fresh (dom h)). fold new. rewrite <- E.
      apply elem_of_dom. eauto. }
    assert (∀ i, i ∈ dom h → i ∈ dom h2 ∧ i ≠ new) as Hdom.
    { intros i Hi. split.
      - apply elem_of_dom. destruct (decide (i = last_id root cells)) as [->|?]; [eauto|].
        rewrite Hframe2; [by apply elem_of_dom|done|].
        intros ->. by apply (is_fresh (dom h)).
      - intros ->. by apply (is_fresh (dom h)). }
    exists h', ((new, true) :: news).
    rewrite <- app_assoc in Hwalk, Hside', Hnd'.
    split; [exact Hwalk|]. split; [exact Hside'|]. split; [by rewrite fmap_cons, Hg|].
    split; [exact Hnd'|]. split; [|split].
    + intros i [->|Hi]%elem_of_cons; [apply is_fresh|].
      intros Hi'. apply (Hfresh' i Hi). by apply Hdom.
    + intros i Hi Hne'. destruct (Hdom i Hi) as [Hi2 Hin].
      rewrite Hframe' by done. by apply Hframe2.
    + exists pl. split; [done|]. rewrite Hframe'; [done| |done].
      apply elem_of_dom. eauto.
  - injection Hgrow as <-.
    unfold PotentialPot_set_plant. cbn [pp_linked]. bind_cases.
    rewrite walk_unfold. cbn [with_potentials_next pp_linked]. bind_cases.
    exists h, []. rewrite app_nil_r.
    split; [done|]. split; [done|]. split; [done|]. split; [done|].
    split; [by intros i Hi%elem_of_nil|]. split; [done|].
    exists pl. split; [done|]. simpl. by rewrite <- Hnone, setattr_same.
Qed.

(** The cells kept by the trimming loop. *)
Fixpoint trim_cells (cells : list cell) : list cell :=
  match cells with
  | [] => []
  | c :: cells' =>
      match trim_cells cells' with
      | [] => if c.2 then [c] else []
      | kept => c :: kept
      end
  end.

Lemma trim_cells_plants cells : (trim_cells cells).*2 = trim_false cells.*2.
Proof.
  induction cells as [|[i x] cells IH]; [done|]. csimpl.
  rewrite <- IH. destruct (trim_cells cells); [by destruct x|done].
Qed.

Lemma trim_cells_snoc cells c :
  trim_cells (cells ++ [c]) = if c.2 then cells ++ [c] else trim_cells cells.
Proof.
  induction cells as [|c' cells IH]; simpl; [by destruct c.2|].
  rewrite IH. destruct c.2; [|done]. by destruct cells.
Qed.

Lemma trim_cells_sublist cells : sublist (trim_cells cells) cells.
Proof.
  induction cells as [|c cells IH]; simpl; [done|].
  destruct (trim_cells cells) as [|k kept].
  - destruct c.2; [|by apply sublist_cons]. apply sublist_skip, sublist_nil_l.
  - by apply sublist_skip.
Qed.

Lemma trim_false_snoc xs x :
  trim_false (xs ++ [x]) = if x then xs ++ [x] else trim_false xs.
Proof.
  induction xs as [|y xs IH]; simpl; [by destruct x|].
  rewrite IH. destruct x; [|done]. by destruct xs.
Qed.

(** What a pass in direction [d] leaves of the root: its plant and its
    link to the other side. *)
Definition root_kept (d : Dir) (h h' : heap) (root : id) : Prop :=
  ∃ r r', h !! root = Some r ∧ h' !! root = Some r'
          ∧ Pot.plant r' = Pot.plant r
          ∧ getattr (_reverse d) r' = getattr (_reverse d) r.

Lemma root_kept_trans d h1 h2 h3 root :
  root_kept d h1 h2 root → root_kept d h2 h3 root → root_kept d h1 h3 root.
Proof.
  intros (r1 & r2 & H1 & H2 & Hp & Hg) (r2' & r3 & H2' & H3 & Hp' & Hg').
  assert (r2' = r2) as -> by congruence.
  exists r1, r3. repeat split; try done; congruence.
Qed.

Lemma root_kept_refl d h root r : h !! root = Some r → root_kept d h h root.
Proof. intros Hr. by exists r, r. Qed.

Lemma root_kept_setattr d h h' root r v :
  h !! root = Some r → h' !! root = Some (setattr d v r) → root_kept d h h' root.
Proof.
  intros Hr Hr'. exists r, (setattr d v r). split; [done|]. split; [done|].
  rewrite plant_setattr. split; [done|]. apply getattr_setattr_ne, reverse_ne.
Qed.

(** The trimming loop, started at the last pot of a side. *)
Lemma trim_side d : ∀ cells h root fuel,
  side_repr h d root cells → NoDup (root :: cells.*1) → length cells < fuel →
  ∃ h', trim fuel h root (_reverse d) (last_id root cells) = Ok h'
    ∧ side_repr h' d root (trim_cells cells)
    ∧ (∀ i, i ∉ root :: cells.*1 → h' !! i = h !! i)
    ∧ root_kept d h h' root.
Proof.
  induction cells as [|c cells IH] using rev_ind; intros h root fuel Hside Hnd Hfuel;
    (destruct fuel as [|fuel]; [simpl in Hfuel; lia|]); rewrite trim_unfold.
  - destruct Hside as [(r & Hr & Hhead) Hseg]. unfold last_id. simpl.
    rewrite (deref_Some _ _ _ Hr). bind_cases.
    rewrite bool_decide_true by done. rewrite andb_false_r.
    exists h. split; [done|]. split; [by split; eauto|]. split; [done|].
    by eapply root_kept_refl.
  - rewrite last_id_snoc.
    pose proof Hside as [(r & Hr & Hhead) Hseg].
    apply lseg_app in Hseg as [Hseg1 [(o & Ho & Hp & Hb & Hn) _]].
    rewrite fmap_app in Hnd. simpl in Hnd.
    assert (c.1 ∉ root :: cells.*1) as Hc.
    { apply NoDup_cons in Hnd as [Hr1 Hnd]. apply NoDup_app in Hnd as (_ & Hdis & _).
      intros [E|Hin]%elem_of_cons.
      - apply Hr1. rewrite <- E. set_solver.
      - apply (Hdis _ Hin). set_solver. }
    assert (NoDup (root :: cells.*1)) as Hnd1.
    { apply NoDup_cons in Hnd as [Hr1 Hnd]. apply NoDup_app in Hnd as (Hnd & _ & _).
      apply NoDup_cons. split; [set_solver|done]. }
    rewrite (deref_Some _ _ _ Ho). bind_cases. rewrite trim_cells_snoc, Hp.
    destruct c.2 eqn:Hc2.
    + simpl. exists h. split; [done|]. split; [done|]. split; [done|].
      by eapply root_kept_refl.
    + rewrite bool_decide_false by set_solver. simpl.
      unfold detach. rewrite (deref_Some _ _ _ Ho). bind_cases. rewrite Hb.
      set (prev := last_id root cells) in *.
      assert (prev ≠ c.1) as Hpc.
      { intros E. apply Hc. rewrite <- E. unfold prev.
        destruct (decide (cells = [])) as [->|?]; [set_solver|].
        apply elem_of_cons. right. by apply last_id_elem_of. }
      assert (∃ pv, h !! prev = Some pv) as [pv Hpv].
      { destruct (decide (cells = [])) as [->|?]; [by exists r|].
        destruct (lseg_last _ _ _ _ _ n Hseg1) as (pv & Hpv & _). by exists pv. }
      rewrite (deref_Some _ _ pv) by by rewrite lookup_insert_ne.
      bind_cases. rewrite reverse_involutive.
      set (h2 := <[prev := setattr d None pv]> (<[c.1 := setattr (_reverse d) None o]> h)).
      assert (side_repr h2 d root cells) as Hside2.
      { split.
        - destruct (decide (cells = [])) as [->|Hne].
          + exists (setattr d None pv). unfold h2, prev, last_id. simpl.
            rewrite lookup_insert_eq. by rewrite getattr_setattr.
          + exists r. unfold h2. rewrite !lookup_insert_ne.
            * split; [done|]. rewrite Hhead. by destruct cells.
            * set_solver.
            * intros E. apply NoDup_cons in Hnd1 as [Hr1 _]. apply Hr1.
              rewrite <- E. by apply last_id_elem_of.
        - destruct (decide (cells = [])) as [->|Hne]; [done|].
          apply NoDup_cons in Hnd1 as [_ Hnd1].
          apply (lseg_retarget _ _ _ _ (Some c.1)); [done|done| |].
          + by rewrite lookup_insert_ne.
          + eapply lseg_frame; [|done]. intros i Hi.
            rewrite lookup_insert_ne; [done|]. set_solver. }
      rewrite length_app in Hfuel. simpl in Hfuel.
      destruct (IH h2 root fuel Hside2 Hnd1 ltac:(lia)) as (h' & Htrim & Hside' & Hfr & Hroot).
      fold prev in Htrim. exists h'. split; [done|]. split; [done|]. split.
      * intros i Hi. rewrite fmap_app in Hi. rewrite Hfr by set_solver.
        unfold h2. rewrite !lookup_insert_ne; [done|set_solver|].
        intros <-. apply Hi. unfold prev.
        destruct (decide (cells = [])) as [->|?]; [set_solver|].
        apply elem_of_cons. right. apply elem_of_app. left. by apply last_id_elem_of.
      * eapply root_kept_trans; [|done].
        destruct (decide (prev = root)) as [E|E].
        -- rewrite E in Hpv. eapply (root_kept_setattr _ _ _ _ _ None); [done|].
           unfold h2. by rewrite E, lookup_insert_eq.
        -- exists r, r. split; [done|]. split; [|done]. unfold h2.
           rewrite !lookup_insert_ne; [done|set_solver|done].
Qed.

Lemma last_id_in prev cells : last_id prev cells ∈ prev :: cells.*1.
Proof.
  destruct (decide (cells = [])) as [->|Hne]; [set_solver|].
  apply elem_of_cons. right. by apply last_id_elem_of.
Qed.

Lemma last_id_zip prev cells vs :
  length vs = length cells → last_id prev (zip cells.*1 vs) = last_id prev cells.
Proof. intros Hlen. unfold last_id. rewrite fst_zip; [done|]. rewrite length_fmap. lia. Qed.

Lemma write_plants_dom ids h vs i :
  i ∈ dom (write_plants h ids vs) ↔ i ∈ dom h.
Proof.
  rewrite !elem_of_dom. pose proof (write_plants_getattr ids Left h vs i) as H.
  destruct (write_plants h ids vs !! i), (h !! i); try done; split; eauto.
Qed.

Lemma grow_length rules d : ∀ fuel st g,
  grow fuel rules d st = Some g → length g < fuel.
Proof.
  induction fuel as [|fuel IH]; intros st g; [done|]. simpl.
  destruct (rule_of rules (rot d st false)).
  - destruct (grow fuel rules d (rot d st false)) as [g'|] eqn:E; [|done].
    intros [= <-]. simpl. apply IH in E. lia.
  - intros [= <-]. simpl. lia.
Qed.

(** One pass of [Rules.apply] in direction [d], on a store that holds the
    side [cells]: the pass returns, the side now holds the swept and grown
    plants without the false ones at its end, and nothing else has changed
    but the link of the root to this side. *)
Lemma apply_dir_spec rules d fuel fuelg h root cells st g :
  total5 rules →
  side_repr h d root cells → NoDup (root :: cells.*1) → length st = 5 →
  grow fuelg rules d (sweep_state rules d st cells.*2) = Some g →
  length cells + fuelg + 1 ≤ fuel →
  ∃ h' cells',
    apply_dir fuel rules root d st (cells.*1 !! 1) h = Ok h'
    ∧ side_repr h' d root cells'
    ∧ cells'.*2 = trim_false (sweep_news rules d st cells.*2 ++ g)
    ∧ NoDup (root :: cells'.*1)
    ∧ (∀ i, i ∈ cells'.*1 → i ∈ cells.*1 ∨ i ∉ dom h)
    ∧ (∀ i, i ∈ dom h → i ∉ root :: cells.*1 → h' !! i = h !! i)
    ∧ root_kept d h h' root.
Proof.
  intros Htot Hside Hnd Hst Hgrow Hfuel.
  pose proof Hnd as [Hroot Hnd']%NoDup_cons.
  set (news := sweep_news rules d st cells.*2) in *.
  set (stf := sweep_state rules d st cells.*2) in *.
  set (h1 := write_plants h cells.*1 news).
  set (cells1 := zip cells.*1 news).
  assert (length news = length cells) as Hlen.
  { unfold news. by rewrite sweep_news_length, length_fmap. }
  assert (cells1.*1 = cells.*1) as Hids.
  { unfold cells1. rewrite fst_zip; [done|]. rewrite length_fmap. lia. }
  assert (cells1.*2 = news) as Hnews.
  { unfold cells1. rewrite snd_zip; [done|]. rewrite length_fmap. lia. }
  assert (side_repr h1 d root cells1) as Hside1 by by apply write_plants_side.
  assert (last_id root cells1 = last_id root cells) as Hlast by by apply last_id_zip.
  assert (NoDup (root :: cells1.*1)) as Hnd1 by by rewrite Hids.
  destruct (walk_grow rules d Htot fuelg h1 root cells1 (WPIter (last_id root cells)) stf
              (last_pot (Real root) cells) g)
    as (h2 & newg & Hwalk & Hside2 & Hg & Hnd2 & Hfresh & Hframe2 & (pl & Hpl & Hpl2));
    [done|done|by left; rewrite Hlast|by apply sweep_state_length|done|].
  assert (walk fuel rules d h (WPIter root) (cells.*1 !! 1) st (Real root)
          = Ok (h2, Potential (mkPotentialPot (last_id root (cells1 ++ newg)) d None)))
    as Hwalk'.
  { pose proof (walk_real rules d Htot cells h root _ st (Real root) (S fuelg)
                  Hside Hnd' eq_refl Hst) as Hreal.
    fold news stf h1 in Hreal. rewrite Hwalk in Hreal. rewrite <- Hreal.
    apply (fuel_le (λ f, walk f rules d h (WPIter root) (cells.*1 !! 1) st (Real root))).
    - intros f. apply walk_fuel_S.
    - lia.
    - by rewrite Hreal. }
  pose proof (grow_length _ _ _ _ _ Hgrow) as Hglen.
  destruct (trim_side d (cells1 ++ newg) h2 root fuel Hside2 Hnd2)
    as (h3 & Htrim & Hside3 & Hframe3 & Hroot3).
  { rewrite length_app. rewrite <- (length_fmap snd newg), Hg.
    rewrite <- (length_fmap fst cells1), Hids, length_fmap. lia. }
  exists h3, (trim_cells (cells1 ++ newg)).
  assert (∀ i, i ∈ dom h → i ∉ root :: cells.*1 →
            h1 !! i = h !! i ∧ h2 !! i = h !! i ∧ i ∉ newg.*1) as Hout.
  { intros i Hi Hni.
    assert (h1 !! i = h !! i) as E1 by (apply write_plants_frame; set_solver).
    split; [done|]. split.
    - rewrite <- E1. apply Hframe2; [by apply write_plants_dom|].
      intros ->. apply Hni. rewrite Hlast. apply last_id_in.
    - intros Hin. apply (Hfresh i Hin). by apply write_plants_dom. }
  split; [|split; [done|split; [|split; [|split; [|split]]]]].
  - unfold apply_dir. rewrite Hwalk'. bind_cases.
  - by rewrite trim_cells_plants, fmap_app, Hnews, Hg.
  - eapply sublist_NoDup; [exact Hnd2|]. apply sublist_skip.
    apply fmap_sublist, trim_cells_sublist.
  - intros i Hi.
    assert (i ∈ (cells1 ++ newg).*1) as Hi'.
    { eapply elem_of_sublist; [exact Hi|]. apply fmap_sublist, trim_cells_sublist. }
    rewrite fmap_app, Hids in Hi'. apply elem_of_app in Hi' as [?|Hi']; [by left|].
    right. intros Hd. apply (Hfresh i Hi'). by apply write_plants_dom.
  - intros i Hi Hni. destruct (Hout i Hi Hni) as (E1 & E2 & Hng).
    rewrite Hframe3; [done|]. rewrite fmap_app, Hids. set_solver.
  - eapply root_kept_trans; [|exact Hroot3].
    destruct Hside as [(r & Hr & _) _].
    assert (h1 !! root = Some r) as Hr1.
    { unfold h1. by rewrite write_plants_frame. }
    destruct (decide (last_id root cells1 = root)) as [E|E].
    + rewrite E in Hpl, Hpl2. assert (pl = r) as -> by congruence.
      by eapply root_kept_setattr.
    + exists r, r. split; [done|]. split; [|done].
      rewrite Hframe2; [done| |done]. apply elem_of_dom. eauto.
Qed.

Lemma NoDup_tape_sides (root : id) (ls rs : list id) :
  NoDup (root :: ls ++ rs) ↔
  NoDup (root :: ls) ∧ NoDup (root :: rs) ∧ (∀ i, i ∈ ls → i ∉ rs).
Proof.
  rewrite !NoDup_cons, NoDup_app, not_elem_of_app. naive_solver.
Qed.

(** [Rules.apply] computes [step_tape]: on a store that holds a tape, with
    fuel for the longer side and for the growth beyond it, it returns a
    store that holds the stepped tape around the same root. *)
Lemma apply_refines rules fuel fuelg h root lcells c rcells ls' c' rs' :
  total5 rules →
  tape_repr h root lcells c rcells →
  step_tape rules fuelg (lcells.*2, c, rcells.*2) = Some (ls', c', rs') →
  length lcells + fuelg + 1 ≤ fuel → length rcells + fuelg + 1 ≤ fuel →
  ∃ h' lcells' rcells',
    apply fuel rules h root = Ok h'
    ∧ tape_repr h' root lcells' c' rcells'
    ∧ lcells'.*2 = ls' ∧ rcells'.*2 = rs'.
Proof.
  intros Htot [(r & Hr & Hc) Hnd Hl Hrt] Hstep Hfl Hfr.
  apply NoDup_tape_sides in Hnd as (Hndl & Hndr & Hdis).
  cbn [step_tape] in Hstep. unfold step_side in Hstep.
  set (cs := central_state lcells.*2 c rcells.*2) in *.
  destruct (grow fuelg rules Left _) as [gl|] eqn:Hgl; [|done].
  destruct (grow fuelg rules Right _) as [gr|] eqn:Hgr; [|done].
  injection Hstep as <- <- <-.
  unfold apply. rewrite (deref_Some _ _ _ Hr). bind_cases.
  rewrite (lookahead_next_root _ _ _ _ Hl). bind_cases.
  rewrite (lookahead_next_lseg _ _ _ root 0 (proj2 Hl)). bind_cases.
  rewrite (lookahead_next_root _ _ _ _ Hrt). bind_cases.
  rewrite (lookahead_next_lseg _ _ _ root 0 (proj2 Hrt)). bind_cases.
  rewrite Hc.
  change (rot Right (rot Right (rot Left (rot Left [c] _) _) _) _) with cs.
  rewrite next_plant_state_total by done. bind_cases.
  rewrite (insert_set_plant _ _ _ _ Hr).
  set (v := rule_of rules cs). set (h0 := alter (set_plant v) root h).
  assert (root ∉ lcells.*1) as Hrl by by apply NoDup_cons in Hndl as [? _].
  assert (root ∉ rcells.*1) as Hrr by by apply NoDup_cons in Hndr as [? _].
  assert (side_repr h0 Left root lcells) as Hl0 by by apply side_repr_alter_plant.
  assert (side_repr h0 Right root rcells) as Hr0 by by apply side_repr_alter_plant.
  destruct (apply_dir_spec rules Left fuel fuelg h0 root lcells cs gl)
    as (h1 & lcells' & Hap1 & Hl1 & Hls' & Hndl' & Hin1 & Hfr1 & Hk1); try done.
  rewrite Hap1. bind_cases.
  assert (side_repr h1 Right root rcells) as Hr1.
  { eapply side_repr_frame; [| |exact Hr0].
    - intros i Hi. apply Hfr1.
      + eapply side_repr_dom; [exact Hr0|]. by right.
      + intros [->|Hi']%elem_of_cons; [done|]. by apply (Hdis i).
    - destruct Hk1 as (r0 & r1 & H0 & H1 & _ & Hg). by exists r0, r1. }
  destruct (apply_dir_spec rules Right fuel fuelg h1 root rcells cs gr)
    as (h2 & rcells' & Hap2 & Hr2 & Hrs' & Hndr' & Hin2 & Hfr2 & Hk2); try done.
  rewrite Hap2.
  assert (∀ i, i ∈ lcells'.*1 → i ∉ root :: rcells.*1) as Hdis1.
  { intros i Hi [->|Hi']%elem_of_cons.
    - by apply NoDup_cons in Hndl' as [? _].
    - destruct (Hin1 i Hi) as [Hold|Hnew].
      + by apply (Hdis i).
      + apply Hnew. eapply side_repr_dom; [exact Hr0|]. by right. }
  exists h2, lcells', rcells'. split; [done|]. split; [|done]. split.
  - destruct Hk1 as (r0 & r1 & H0 & H1 & Hp1 & _).
    destruct Hk2 as (r1' & r2 & H1' & H2 & Hp2 & _).
    assert (r1' = r1) as -> by congruence.
    exists r2. split; [done|]. rewrite Hp2, Hp1.
    unfold h0 in H0. rewrite lookup_alter_eq, Hr in H0. by injection H0 as <-.
  - apply NoDup_tape_sides. split; [done|]. split; [done|].
    intros i Hi Hi'. destruct (Hin2 i Hi') as [Hold|Hnew].
    + apply (Hdis1 i Hi). by right.
    + apply Hnew. eapply side_repr_dom; [exact Hl1|]. by right.
  - eapply side_repr_frame; [| |exact Hl1].
    + intros i Hi. apply Hfr2; [|by apply Hdis1].
      eapply side_repr_dom; [exact Hl1|]. by right.
    + destruct Hk2 as (r1 & r2 & H1 & H2 & _ & Hg). by exists r1, r2.
  - done.
Qed.

(** ** Padding a tape with false cells *)

Lemma lookup_pad_false (xs : list Plant) k i :
  default false ((xs ++ replicate k false) !! i) = default false (xs !! i).
Proof.
  destruct (decide (i < length xs)) as [Hlt|Hge].
  - by rewrite lookup_app_l.
  - rewrite lookup_app_r, (lookup_ge_None_2 xs) by lia.
    destruct (replicate k false !! _) eqn:E; [|done].
    by apply lookup_replicate in E as [-> _].
Qed.

Lemma sweep_news_pad rules d k xs : ∀ st,
  sweep_news rules d st (xs ++ replicate k false)
  = sweep_news rules d st xs
    ++ sweep_news rules d (sweep_state rules d st xs) (replicate k false).
Proof.
  induction xs as [|x xs IH]; intros st; [done|].
  simpl. by rewrite lookup_pad_false, IH.
Qed.

Lemma sweep_state_pad rules d k xs : ∀ st,
  sweep_state rules d st (xs ++ replicate k false)
  = sweep_state rules d (sweep_state rules d st xs) (replicate k false).
Proof.
  induction xs as [|x xs IH]; intros st; [done|].
  simpl. by rewrite lookup_pad_false, IH.
Qed.

(** The two entries of a window on its outer side, nearest first. *)
Definition outer_is (d : Dir) (st : _State) (a b : Plant) : Prop :=
  match d with
  | Right => ∃ x y z, st = [x; y; z; a; b]
  | Left => ∃ x y z, st = [b; a; z; y; x]
  end.

Lemma outer_is_rot d st a b p : outer_is d st a b → outer_is d (rot d st p) b p.
Proof. destruct d; intros (x & y & z & ->); simpl; eauto. Qed.

Lemma outer_is_central ls c rs :
  outer_is Left (central_state ls c rs) (default false (ls !! 0)) (default false (ls !! 1))
  ∧ outer_is Right (central_state ls c rs) (default false (rs !! 0)) (default false (rs !! 1)).
Proof. split; simpl; eauto. Qed.

(** After the sweep over the existing cells the window looks out on two
    cells that do not exist. *)
Lemma sweep_state_outer rules d xs : ∀ st,
  outer_is d st (default false (xs !! 0)) (default false (xs !! 1)) →
  outer_is d (sweep_state rules d st xs) false false.
Proof.
  induction xs as [|x xs IH]; intros st Hst; [done|].
  simpl. apply IH. by apply (outer_is_rot d st x).
Qed.

Lemma central_state_pad ls c rs kl kr :
  central_state (ls ++ replicate kl false) c (rs ++ replicate kr false)
  = central_state ls c rs.
Proof. unfold central_state. by rewrite !lookup_pad_false. Qed.

Lemma trim_false_app xs ys :
  trim_false (xs ++ ys)
  = match trim_false ys with [] => trim_false xs | kept => xs ++ kept end.
Proof.
  induction xs as [|x xs IH]; simpl.
  - by destruct (trim_false ys).
  - rewrite IH. destruct (trim_false ys); [done|]. by destruct xs.
Qed.

Lemma trim_false_replicate k : trim_false (replicate k false) = [].
Proof. induction k as [|k IH]; simpl; [done|]. by rewrite IH. Qed.

Lemma trim_false_length xs : length (trim_false xs) ≤ length xs.
Proof.
  induction xs as [|x xs IH]; simpl; [done|].
  destruct (trim_false xs); [destruct x; simpl; lia|simpl in *; lia].
Qed.

(** The rule tables under which an end stays quiet: the all-false window
    gives false, and the cell two places beyond a true cell is not born
    when the cell between them stays false. *)
Definition quiet_ends (rules : Rules.t) : Prop :=
  rule_of rules [false; false; false; false; false] = false
  ∧ (∀ y, rule_of rules [y; true; false; false; false] = false →
          rule_of rules [true; false; false; false; false] = false)
  ∧ (∀ y, rule_of rules [false; false; false; true; y] = false →
          rule_of rules [false; false; false; false; true] = false).

Lemma sweep_zeros rules d k :
  rule_of rules [false; false; false; false; false] = false →
  sweep_news rules d [false; false; false; false; false] (replicate k false)
  = replicate k false
  ∧ sweep_state rules d [false; false; false; false; false] (replicate k false)
    = [false; false; false; false; false].
Proof.
  intros Hz. induction k as [|k [IH1 IH2]]; [done|].
  assert (default false (replicate k false !! 1) = false) as Hla.
  { destruct (replicate k false !! 1) eqn:E; [|done].
    by apply lookup_replicate in E as [-> _]. }
  assert (rot d [false; false; false; false; false] false
          = [false; false; false; false; false]) as Hrot by by destruct d.
  simpl. rewrite Hla, Hrot, Hz, IH1, IH2. done.
Qed.

Lemma lookup_replicate_false j i : default false (replicate j false !! i) = false.
Proof.
  destruct (replicate j false !! i) eqn:E; [|done].
  by apply lookup_replicate in E as [-> _].
Qed.

Lemma sweep_news_replicate_S rules d st j :
  sweep_news rules d st (replicate (S j) false)
  = rule_of rules (rot d st false)
    :: sweep_news rules d (rot d st false) (replicate j false).
Proof. simpl. by rewrite lookup_replicate_false. Qed.

Lemma sweep_state_replicate_S rules d st j :
  sweep_state rules d st (replicate (S j) false)
  = sweep_state rules d (rot d st false) (replicate j false).
Proof. simpl. by rewrite lookup_replicate_false. Qed.

Lemma grow_unfold fuel rules d st :
  grow (S fuel) rules d st
  = if rule_of rules (rot d st false)
    then (true ::.) <$> grow fuel rules d (rot d st false)
    else Some [].
Proof. done. Qed.

Lemma rot3_zeros d st :
  outer_is d st false false →
  rot d (rot d (rot d st false) false) false = [false; false; false; false; false].
Proof. destruct d; intros (x & y & z & ->); done. Qed.

(** At a quiet end the second cell beyond the tape is not born when the
    first one is not. *)
Lemma quiet_second rules d st :
  quiet_ends rules → outer_is d st false false →
  rule_of rules (rot d st false) = false →
  rule_of rules (rot d (rot d st false) false) = false.
Proof.
  intros (Hz & HR & HL). destruct d; intros (x & y & z & ->); simpl;
    destruct z; eauto.
Qed.

(** Beyond the existing cells, explicit false cells change nothing that
    survives the trimming. *)
Lemma pad_tail rules d st k news :
  quiet_ends rules → outer_is d st false false →
  ∃ g gp,
    grow 3 rules d st = Some g
    ∧ grow 3 rules d (sweep_state rules d st (replicate k false)) = Some gp
    ∧ trim_false (news ++ sweep_news rules d st (replicate k false) ++ gp)
      = trim_false (news ++ g).
Proof.
  intros Hq Hst. pose proof Hq as (Hz & _ & _).
  pose proof (quiet_second rules d st Hq Hst) as Hv.
  pose proof (rot3_zeros d st Hst) as H3.
  set (w1 := rot d st false) in *. set (w2 := rot d w1 false) in *.
  assert (∀ f, grow (S f) rules d w2 = Some []) as Hg2.
  { intros f. by rewrite grow_unfold, H3, Hz. }
  assert (grow 3 rules d w1 = Some (if rule_of rules w2 then [true] else [])) as Hg1.
  { rewrite grow_unfold. fold w2. destruct (rule_of rules w2); [|done]. by rewrite Hg2. }
  assert (grow 3 rules d st
          = Some (if rule_of rules w1
                  then if rule_of rules w2 then [true; true] else [true]
                  else [])) as Hg.
  { rewrite grow_unfold. fold w1. destruct (rule_of rules w1); [|done].
    rewrite grow_unfold. fold w2. destruct (rule_of rules w2); [|done]. by rewrite Hg2. }
  destruct k as [|[|[|k]]]; eexists _, _; (split; [exact Hg|]).
  - split; [exact Hg|]. done.
  - rewrite sweep_state_replicate_S, sweep_news_replicate_S. fold w1.
    split; [exact Hg1|]. rewrite !trim_false_app.
    destruct (rule_of rules w1); [by destruct (rule_of rules w2)|].
    by rewrite Hv.
  - rewrite !sweep_state_replicate_S, !sweep_news_replicate_S. fold w1 w2.
    split; [apply Hg2|]. rewrite !trim_false_app.
    destruct (rule_of rules w1); [by destruct (rule_of rules w2)|].
    by rewrite Hv.
  - rewrite !sweep_state_replicate_S, !sweep_news_replicate_S. fold w1 w2.
    rewrite H3. destruct (sweep_zeros rules d k Hz) as [-> ->].
    split; [by rewrite grow_unfold; destruct d; simpl; rewrite Hz|].
    rewrite Hz, app_nil_r.
    change (rule_of rules w1 :: rule_of rules w2 :: false :: replicate k false)
      with ([rule_of rules w1; rule_of rules w2] ++ replicate (S k) false).
    rewrite app_assoc, (trim_false_app (news ++ _)), trim_false_replicate.
    rewrite !trim_false_app.
    destruct (rule_of rules w1); [by destruct (rule_of rules w2)|].
    by rewrite Hv.
Qed.

Lemma step_side_pad rules d cs xs k :
  quiet_ends rules →
  outer_is d cs (default false (xs !! 0)) (default false (xs !! 1)) →
  ∃ ys, step_side rules d 3 cs xs = Some ys
        ∧ step_side rules d 3 cs (xs ++ replicate k false) = Some ys
        ∧ length ys ≤ length xs + 2.
Proof.
  intros Hq Hcs. unfold step_side.
  rewrite sweep_state_pad, sweep_news_pad.
  destruct (pad_tail rules d (sweep_state rules d cs xs) k (sweep_news rules d cs xs) Hq)
    as (g & gp & Hg & Hgp & Htrim); [by apply sweep_state_outer|].
  rewrite Hg, Hgp. simpl. eexists. split; [done|]. split.
  - by rewrite <- app_assoc, Htrim.
  - etrans; [apply trim_false_length|]. rewrite length_app, sweep_news_length.
    apply grow_length in Hg. lia.
Qed.

Lemma step_tape_pad rules ls c rs kl kr :
  quiet_ends rules →
  ∃ ls' c' rs',
    step_tape rules 3 (ls, c, rs) = Some (ls', c', rs')
    ∧ step_tape rules 3 (ls ++ replicate kl false, c, rs ++ replicate kr false)
      = Some (ls', c', rs')
    ∧ length ls' ≤ length ls + 2 ∧ length rs' ≤ length rs + 2.
Proof.
  intros Hq. cbn [step_tape]. rewrite central_state_pad.
  destruct (outer_is_central ls c rs) as [Hol Hor].
  destruct (step_side_pad rules Left _ ls kl Hq Hol) as (ls' & -> & -> & Hll).
  destruct (step_side_pad rules Right _ rs kr Hq Hor) as (rs' & -> & -> & Hlr).
  simpl. eauto 10.
Qed.

Lemma build_total5 entries : total5 (build entries).
Proof.
  intros a b c d e. pose proof (build_lookup entries a b c d e) as H.
  unfold next_plant_state in H. destruct (_ !! _); [eauto|done].
Qed.

(** C2 (as amended).  For every rule table that keeps the ends quiet and
    for every tape, trimmed or not, a step on the tape and a step on the same
    tape with any number of explicit false cells added at its two ends both
    return, and the two resulting tapes read as the same string. *)
Theorem step_padding_invariant (entries : list (_RuleKey * Plant))
    (h : heap) (root : id) (lcells rcells : list cell) (c : Plant)
    (hp : heap) (rootp : id) (lcellsp rcellsp : list cell) (kl kr fuel : nat) :
  quiet_ends (build entries) →
  tape_repr h root lcells c rcells →
  tape_repr hp rootp lcellsp c rcellsp →
  lcellsp.*2 = lcells.*2 ++ replicate kl false →
  rcellsp.*2 = rcells.*2 ++ replicate kr false →
  length lcellsp + 4 ≤ fuel → length rcellsp + 4 ≤ fuel →
  ∃ h' hp' s,
    step fuel h (Plants.mk root (build entries)) = Ok h'
    ∧ step fuel hp (Plants.mk rootp (build entries)) = Ok hp'
    ∧ Plants_str fuel h' (Plants.mk root (build entries)) = Ok s
    ∧ Plants_str fuel hp' (Plants.mk rootp (build entries)) = Ok s.
Proof.
  intros Hq Hrepr Hreprp Hl Hr Hfl Hfr.
  set (rules := build entries) in *.
  pose proof (build_total5 entries) as Htot. fold rules in Htot.
  destruct (step_tape_pad rules lcells.*2 c rcells.*2 kl kr Hq)
    as (ls' & c' & rs' & Hstep & Hstepp & Hll & Hlr).
  rewrite <- Hl, <- Hr in Hstepp.
  assert (length lcellsp = length lcells + kl) as Hlenl.
  { apply (f_equal length) in Hl.
    by rewrite length_app, !length_fmap, length_replicate in Hl. }
  assert (length rcellsp = length rcells + kr) as Hlenr.
  { apply (f_equal length) in Hr.
    by rewrite length_app, !length_fmap, length_replicate in Hr. }
  rewrite !length_fmap in Hll, Hlr.
  destruct (apply_refines rules fuel 3 h root lcells c rcells ls' c' rs')
    as (h' & lcells' & rcells' & Hap & Hrepr' & Hls' & Hrs'); [done|done|done|lia|lia|].
  destruct (apply_refines rules fuel 3 hp rootp lcellsp c rcellsp ls' c' rs')
    as (hp' & lcellsp' & rcellsp' & Happ & Hreprp' & Hlsp' & Hrsp'); [done|done|done|lia|lia|].
  exists h', hp', (tape_str ls' c' rs'). unfold step. simpl.
  split; [done|]. split; [done|]. split.
  - rewrite <- Hls', <- Hrs'. apply Plants_str_repr; [done| |].
    + rewrite <- (length_fmap snd lcells'), Hls'. lia.
    + rewrite <- (length_fmap snd rcells'), Hrs'. lia.
  - rewrite <- Hlsp', <- Hrsp'. apply Plants_str_repr; [done| |].
    + rewrite <- (length_fmap snd lcellsp'), Hlsp'. lia.
    + rewrite <- (length_fmap snd rcellsp'), Hrsp'. lia.
Qed.

Lemma step_padding_invariant_witness :
  ∃ h root hp rootp h' hp' s,
    from_initial ∅ "#..#" = Ok (h, root)
    ∧ from_initial ∅ "#..#.." = Ok (hp, rootp)
    ∧ step 9 h (Plants.mk root (build [([false; false; true; false; false], true)])) = Ok h'
    ∧ step 9 hp (Plants.mk rootp (build [([false; false; true; false; false], true)])) = Ok hp'
    ∧ Plants_str 9 h' (Plants.mk root (build [([false; false; true; false; false], true)])) = Ok s
    ∧ Plants_str 9 hp' (Plants.mk rootp (build [([false; false; true; false; false], true)])) = Ok s.
Proof.
  destruct (from_initial_cells ∅ "#..#")
    as (h & root & c & rcells & Hok & Hrepr & Hcells); [done|].
  destruct (from_initial_cells ∅ "#..#..")
    as (hp & rootp & cp & rcellsp & Hokp & Hreprp & Hcellsp); [done|].
  injection Hcells as -> Hcells. injection Hcellsp as -> Hcellsp.
  destruct (step_padding_invariant [([false; false; true; false; false], true)]
              h root [] rcells true hp rootp [] rcellsp 0 2 9)
    as (h' & hp' & s & H1 & H2 & H3 & H4).
  - split; [done|]. split; intros y; by destruct y.
  - exact Hrepr.
  - exact Hreprp.
  - done.
  - by rewrite Hcells, Hcellsp.
  - simpl. lia.
  - apply (f_equal length) in Hcellsp. rewrite length_fmap in Hcellsp.
    rewrite Hcellsp. simpl. lia.
  - exists h, root, hp, rootp, h', hp', s.
    exact (conj Hok (conj Hokp (conj H1 (conj H2 (conj H3 H4))))).
Defined.

(** A rule table that does not keep the ends quiet: a lone plant stays and
    a plant is born two cells to the right of a plant.  On the trimmed tape
    [#] the placeholder next to the root is written false and the walk
    ends; on the padded tape [#.] the walk goes on over the explicit cell
    and links a plant in behind it. *)
Lemma trimmed_and_padded_steps_differ :
  ∃ rules h root hp rootp h' hp',
    Rules_from_lines ["..#.. => #"; "#.... => #"] = Ok rules
    ∧ from_initial ∅ "#" = Ok (h, root)
    ∧ from_initial ∅ "#." = Ok (hp, rootp)
    ∧ step 5 h (Plants.mk root rules) = Ok h'
    ∧ step 5 hp (Plants.mk rootp rules) = Ok hp'
    ∧ Plants_str 5 h' (Plants.mk root rules) = Ok "#"
    ∧ Plants_str 5 hp' (Plants.mk rootp rules) = Ok "#.#".
Proof.
  eexists _, _, _, _, _, _, _.
  split; [reflexivity|]. split; [reflexivity|]. split; [reflexivity|].
  split; [by vm_compute|]. split; [by vm_compute|]. split; by vm_compute.
Qed.

(** ** The all-false rule table *)

Lemma sweep_news_all_false rules d xs : ∀ st,
  (∀ k, length k = 5 → rule_of rules k = false) → length st = 5 →
  sweep_news rules d st xs = replicate (length xs) false.
Proof.
  induction xs as [|x xs IH]; intros st Hf Hst; [done|].
  simpl. rewrite Hf by by apply rot_length. f_equal. apply IH; [done|].
  by apply rot_length.
Qed.

Lemma step_tape_all_false rules ls c rs :
  (∀ k, length k = 5 → rule_of rules k = false) →
  step_tape rules 1 (ls, c, rs) = Some ([], false, []).
Proof.
  intros Hf. cbn [step_tape]. unfold step_side. cbn [grow].
  rewrite !Hf by (by try apply rot_length, sweep_state_length).
  simpl. rewrite !sweep_news_all_false by done.
  by rewrite !app_nil_r, !trim_false_replicate.
Qed.

Lemma all_false_rule_of rules :
  (∀ a b c d e, next_plant_state rules [a; b; c; d; e] = Ok false) →
  total5 rules ∧ ∀ k, length k = 5 → rule_of rules k = false.
Proof.
  intros Hall. split.
  - intros a b c d e. specialize (Hall a b c d e). unfold next_plant_state in Hall.
    destruct (_ !! _); [eauto|done].
  - intros k Hk. destruct k as [|a [|b [|c [|d [|e [|]]]]]]; try done.
    specialize (Hall a b c d e). unfold next_plant_state, rule_of in *.
    destruct (_ !! _); [|done]. by injection Hall as ->.
Qed.

(** Under the all-false table every run of one or more steps returns and
    leaves the root alone, holding no plant. *)
Lemma steps_all_false rules root fuel : ∀ n h lcells c rcells,
  (∀ a b c d e, next_plant_state rules [a; b; c; d; e] = Ok false) →
  tape_repr h root lcells c rcells →
  length lcells + 2 ≤ fuel → length rcells + 2 ≤ fuel →
  ∃ h', steps (S n) fuel h (Plants.mk root rules) = Ok h'
        ∧ tape_repr h' root [] false [].
Proof.
  induction n as [|n IH]; intros h lcells c rcells Hall Hrepr Hfl Hfr;
    destruct (all_false_rule_of rules Hall) as [Htot Hf];
    destruct (apply_refines rules fuel 1 h root lcells c rcells [] false [])
      as (h1 & lcells1 & rcells1 & Hap & Hrepr1 & Hl1 & Hr1);
      [done|done|by apply step_tape_all_false|lia|lia| |
       done|done|by apply step_tape_all_false|lia|lia|];
    apply fmap_nil_inv in Hl1 as ->; apply fmap_nil_inv in Hr1 as ->;
    cbn [steps]; unfold step; cbn [Plants.rules Plants.root]; rewrite Hap; bind_cases.
  - by exists h1.
  - apply (IH h1 [] false []); [done|done|simpl; lia|simpl; lia].
Qed.

(** C9.  Under a rule table that maps every five-cell pattern to false,
    and from the tape of any literal that loads, every call of [step]
    returns, and after one step or more the tape is the root alone, holding
    no plant: it reads as ["."]. *)
Theorem all_false_rules_clear_tape (rules : Rules.t) (h : heap) (initial : string) :
  (∀ a b c d e, next_plant_state rules [a; b; c; d; e] = Ok false) →
  initial ≠ "" →
  ∃ h0 root,
    from_initial h initial = Ok (h0, root)
    ∧ ∀ n fuel, String.length initial < fuel →
        ∃ h', steps (S n) fuel h0 (Plants.mk root rules) = Ok h'
              ∧ tape_repr h' root [] false []
              ∧ Plants_str fuel h' (Plants.mk root rules) = Ok ".".
Proof.
  intros Hall Hne.
  destruct (from_initial_cells h initial Hne)
    as (h0 & root & c & rcells & Hok & Hrepr & Hcells).
  exists h0, root. split; [done|]. intros n fuel Hfuel.
  assert (S (length rcells) = String.length initial) as Hlen.
  { apply (f_equal length) in Hcells.
    rewrite length_cons, !length_fmap in Hcells.
    etrans; [exact Hcells|]. clear. induction initial; simpl; congruence. }
  destruct (steps_all_false rules root fuel n h0 [] c rcells Hall Hrepr)
    as (h' & Hsteps & Hrepr'); [simpl; lia|lia|].
  exists h'. split; [done|]. split; [done|].
  apply (Plants_str_repr fuel h' root rules [] false [] Hrepr'); simpl; lia.
Qed.

Lemma all_false_rules_clear_tape_witness :
  ∃ h0 root,
    from_initial ∅ "#..#.#" = Ok (h0, root)
    ∧ ∀ n fuel, 6 < fuel →
        ∃ h', steps (S n) fuel h0 (Plants.mk root (build [])) = Ok h'
              ∧ tape_repr h' root [] false []
              ∧ Plants_str fuel h' (Plants.mk root (build [])) = Ok ".".
Proof.
  apply (all_false_rules_clear_tape (build []) ∅ "#..#.#"); [|done].
  intros a b c d e. by rewrite build_lookup.
Defined.

(** ** Linkage *)

(** [linked h d a b]: the pot [a] has the pot [b] as its [d] neighbour. *)
Definition linked (h : heap) (d : Dir) (a b : id) : Prop :=
  ∃ o, h !! a = Some o ∧ getattr d o = Some b.

(** [a.right == b] gives [b.left == a], and the other way round. *)
Definition symmetric (h : heap) : Prop :=
  ∀ d a b, linked h d a b → linked h (_reverse d) b a.

(** The pots can be numbered so that every right link goes up by one. *)
Definition ranked (h : heap) : Prop :=
  ∃ rank : id → Z, ∀ a b, linked h Right a b → rank b = (rank a + 1)%Z.

Definition well_linked (h : heap) : Prop := symmetric h ∧ ranked h.

(** Following [n] links in direction [d]. *)
Fixpoint hops (h : heap) (d : Dir) (n : nat) (a : id) : option id :=
  match n with
  | O => Some a
  | S n' => o ← h !! a; b ← getattr d o; hops h d n' b
  end.

(** No walk along one direction comes back to where it started. *)
Definition acyclic (h : heap) : Prop :=
  ∀ d a n, 0 < n → hops h d n a ≠ Some a.

(** A pot with no neighbour. *)
Definition isolated (h : heap) (c : id) : Prop :=
  ∃ o, h !! c = Some o ∧ Pot.left o = None ∧ Pot.right o = None.

(** The operations on the linkage: a new pot, [Pot.append], [Pot.detach]
    and a write to a placeholder. *)
Inductive op :=
| New (plant : Plant)
| Link (parent : id) (d : Dir) (child : id)
| Unlink (parent : id) (d : Dir)
| Write (pp : PotentialPot) (plant : Plant).

Definition run_op (h : heap) (o : op) : result heap :=
  match o with
  | New v => Ok (alloc h (Pot.new v)).1
  | Link p d c => fst <$> append h p d c
  | Unlink p d => fst <$> detach h p d
  | Write pp v => fst <$> PotentialPot_set_plant h pp v
  end.

Fixpoint run_ops (h : heap) (ops : list op) : result heap :=
  match ops with
  | [] => Ok h
  | o :: ops' => h' ← run_op h o; run_ops h' ops'
  end.

(** A link is given a child that has no neighbour and is not the parent. *)
Definition admissible (h : heap) (o : op) : Prop :=
  match o with
  | Link p d c => isolated h c ∧ c ≠ p
  | _ => True
  end.

Fixpoint admissible_ops (h : heap) (ops : list op) : Prop :=
  match ops with
  | [] => True
  | o :: ops' => admissible h o ∧ ∀ h', run_op h o = Ok h' → admissible_ops h' ops'
  end.

Lemma linked_insert (h : heap) i o' d a b :
  linked (<[i := o']> h) d a b
  ↔ (a = i ∧ getattr d o' = Some b) ∨ (a ≠ i ∧ linked h d a b).
Proof.
  unfold linked. destruct (decide (a = i)) as [->|Hne].
  - rewrite lookup_insert_eq. naive_solver.
  - rewrite lookup_insert_ne by done. naive_solver.
Qed.

Lemma linked_fun h d a b b' : linked h d a b → linked h d a b' → b = b'.
Proof. intros (o & Ho & Hb) (o' & Ho' & Hb'). congruence. Qed.

Lemma isolated_not_linked h c d b : isolated h c → ¬ linked h d c b.
Proof. intros (o & Ho & Hl & Hr) (o' & Ho' & Hb). destruct d; simpl in *; congruence. Qed.

Lemma Dir_cases d d' : d' = d ∨ d' = _reverse d.
Proof. destruct d, d'; auto. Qed.

Lemma well_linked_new h v : well_linked h → well_linked (alloc h (Pot.new v)).1.
Proof.
  intros [Hsym [rank Hrank]]. simpl.
  assert (∀ d a b, linked (<[fresh (dom h) := Pot.new v]> h) d a b ↔ linked h d a b) as Hl.
  { intros d a b. rewrite linked_insert. split.
    - intros [[_ Hg]|[_ ?]]; [by destruct d|done].
    - intros Hlk. right. split; [|done]. intros ->.
      destruct Hlk as (o & Ho & _). apply (is_fresh (dom h)), elem_of_dom. eauto. }
  split.
  - intros d a b. rewrite !Hl. apply Hsym.
  - exists rank. intros a b. rewrite Hl. apply Hrank.
Qed.

Lemma well_linked_append h p d c h' :
  well_linked h → isolated h c → c ≠ p →
  append h p d c = Ok (h', c) → well_linked h'.
Proof.
  intros [Hsym [rank Hrank]] Hiso Hcp. unfold append.
  destruct (deref h p) as [op| |] eqn:Hp; bind_cases. apply deref_Ok in Hp.
  destruct (getattr d op) eqn:Hd; [done|].
  pose proof Hiso as (oc & Hc & Hcl & Hcr).
  rewrite (deref_Some _ _ oc) by by rewrite lookup_insert_ne.
  bind_cases. intros [= <-].
  assert (∀ d', getattr d' oc = None) as Hcn by (by intros []).
  assert (∀ d' a b, linked (<[c := setattr (_reverse d) (Some p) oc]>
                              (<[p := setattr d (Some c) op]> h)) d' a b
            ↔ (a = c ∧ d' = _reverse d ∧ b = p) ∨ (a = p ∧ d' = d ∧ b = c)
              ∨ (a ≠ c ∧ linked h d' a b)) as Hl.
  { intros d' a b. rewrite !linked_insert. split.
    - intros [[-> Hg]|[Hac [[-> Hg]|[Hap Hlk]]]].
      + left. destruct (Dir_cases d d') as [->| ->].
        * rewrite getattr_setattr_ne, Hcn in Hg by (by destruct d). done.
        * rewrite getattr_setattr in Hg. naive_solver.
      + destruct (Dir_cases d d') as [->| ->].
        * rewrite getattr_setattr in Hg. naive_solver.
        * rewrite getattr_setattr_ne in Hg by apply reverse_ne.
          right. right. split; [done|]. by exists op.
      + auto.
    - intros [(-> & -> & ->)|[(-> & -> & ->)|[Hac Hlk]]].
      + left. by rewrite getattr_setattr.
      + right. split; [done|]. left. by rewrite getattr_setattr.
      + right. split; [done|]. destruct (decide (a = p)) as [->|Hap]; [|auto].
        left. split; [done|]. destruct Hlk as (o & Ho & Hg).
        assert (o = op) as -> by congruence.
        rewrite getattr_setattr_ne; [done|]. intros ->. congruence. }
  assert (∀ d' a, ¬ linked h d' a c) as Hnc.
  { intros d' a Hlk%Hsym. by eapply isolated_not_linked. }
  split.
  - intros d' a b. rewrite !Hl.
    intros [(-> & -> & ->)|[(-> & -> & ->)|[Hac Hlk]]].
    + right. left. by rewrite reverse_involutive.
    + by left.
    + right. right. split; [intros ->; by eapply Hnc|]. by apply Hsym.
  - exists (λ i, if decide (i = c)
                 then match d with Right => rank p + 1 | Left => rank p - 1 end%Z
                 else rank i).
    intros a b. rewrite Hl.
    intros [(Ha & Hdd & Hb)|[(Ha & Hdd & Hb)|[Hac Hlk]]].
    + subst a b. rewrite (decide_True _ _ eq_refl), decide_False by done.
      destruct d; [lia|done].
    + subst a b. rewrite (decide_True _ _ eq_refl), decide_False by done.
      destruct d; [done|lia].
    + assert (b ≠ c) as Hbc by (intros ->; by eapply Hnc).
      rewrite !decide_False by done. by apply Hrank.
Qed.

Lemma well_linked_detach h p d h' n :
  well_linked h → detach h p d = Ok (h', n) → well_linked h'.
Proof.
  intros [Hsym [rank Hrank]]. unfold detach.
  destruct (deref h p) as [op| |] eqn:Hp; bind_cases. apply deref_Ok in Hp.
  destruct (getattr d op) as [n'|] eqn:Hd; [|done].
  destruct (deref _ n') as [on| |] eqn:Hn; bind_cases. apply deref_Ok in Hn.
  intros [= <- <-].
  assert (linked h d p n') as Hpn by by exists op.
  pose proof (Hsym _ _ _ Hpn) as Hnp.
  assert (∀ d' a b, linked (<[n' := setattr (_reverse d) None on]>
                              (<[p := setattr d None op]> h)) d' a b
            ↔ linked h d' a b ∧ ¬ (a = p ∧ d' = d) ∧ ¬ (a = n' ∧ d' = _reverse d)) as Hl.
  { intros d' a b. rewrite !linked_insert. split.
    - intros [[-> Hg]|[Han [[-> Hg]|[Hap Hlk]]]].
      + destruct (Dir_cases d d') as [->| ->].
        * rewrite getattr_setattr_ne in Hg by (by destruct d).
          split; [|split; [|intros [_ ?]; by destruct d]].
          -- exists on. split; [|done].
             destruct (decide (n' = p)) as [->|?].
             ++ rewrite lookup_insert_eq in Hn. injection Hn as <-.
                rewrite getattr_setattr in Hg. done.
             ++ by rewrite lookup_insert_ne in Hn.
          -- intros [-> _]. rewrite lookup_insert_eq in Hn. injection Hn as <-.
             by rewrite getattr_setattr in Hg.
        * by rewrite getattr_setattr in Hg.
      + destruct (Dir_cases d d') as [->| ->].
        * by rewrite getattr_setattr in Hg.
        * rewrite getattr_setattr_ne in Hg by apply reverse_ne.
          split; [by exists op|]. split; [intros [_ ?]; by destruct d|naive_solver].
      + naive_solver.
    - intros (Hlk & H1 & H2). destruct (decide (a = n')) as [->|Han].
      + left. split; [done|]. destruct (Dir_cases d d') as [->| ->]; [|naive_solver].
        rewrite getattr_setattr_ne by (by destruct d).
        destruct Hlk as (o & Ho & Hg).
        destruct (decide (n' = p)) as [->|?]; [naive_solver|].
        rewrite lookup_insert_ne in Hn by done. congruence.
      + right. split; [done|]. destruct (decide (a = p)) as [->|Hap]; [|auto].
        left. split; [done|]. destruct (Dir_cases d d') as [->| ->]; [naive_solver|].
        rewrite getattr_setattr_ne by apply reverse_ne.
        destruct Hlk as (o & Ho & Hg). congruence. }
  split.
  - intros d' a b. rewrite !Hl. intros (Hlk & H1 & H2).
    split; [by apply Hsym|]. split.
    + intros [-> Hdd]. apply H2. split; [|by rewrite <- Hdd, reverse_involutive].
      apply Hsym in Hlk. rewrite Hdd in Hlk. by eapply linked_fun.
    + intros [-> Hdd]. apply H1.
      assert (d' = d) as -> by (by destruct d, d'). split; [|done].
      apply Hsym in Hlk. by eapply linked_fun.
  - exists rank. intros a b. rewrite Hl. intros (Hlk & _). by apply Hrank.
Qed.

Lemma linked_alter_plant h i v d a b :
  linked (alter (set_plant v) i h) d a b ↔ linked h d a b.
Proof.
  unfold linked. rewrite lookup_alter. case_decide; [subst|done].
  destruct (h !! a) as [o|]; simpl; [|naive_solver]. split.
  - intros (o' & [= <-] & Hg). rewrite getattr_set_plant in Hg. eauto.
  - intros (o' & [= <-] & Hg). eexists. split; [done|]. by rewrite getattr_set_plant.
Qed.

Lemma well_linked_set_plant h i v o :
  h !! i = Some o → well_linked h → well_linked (<[i := set_plant v o]> h).
Proof.
  intros Ho [Hsym [rank Hrank]]. rewrite (insert_set_plant _ _ _ _ Ho). split.
  - intros d a b. rewrite !linked_alter_plant. apply Hsym.
  - exists rank. intros a b. rewrite linked_alter_plant. apply Hrank.
Qed.

(** A write to a placeholder whose parent is a pot of the store. *)
Lemma well_linked_write h pp v h' pp' :
  well_linked h → is_Some (h !! pp_parent pp) →
  PotentialPot_set_plant h pp v = Ok (h', pp') → well_linked h'.
Proof.
  intros Hwl [par Hpar]. unfold PotentialPot_set_plant.
  destruct (pp_linked pp) as [l|].
  - destruct (deref h l) as [p| |] eqn:Hl; bind_cases. apply deref_Ok in Hl.
    intros [= <- _]. by apply well_linked_set_plant.
  - destruct v; [|by intros [= <- _]].
    change (alloc h (Pot.new true))
      with (<[fresh (dom h) := Pot.new true]> h, fresh (dom h)).
    cbn iota beta.
    destruct (append _ (pp_parent pp) (pp_dir pp) (fresh (dom h)))
      as [[h2 x]| |] eqn:Happ; bind_cases.
    intros [= <- _].
    assert (x = fresh (dom h)) as ->.
    { unfold append in Happ. revert Happ.
      destruct (deref _ (pp_parent pp)) as [o| |]; bind_cases.
      destruct (getattr _ o); [done|].
      destruct (deref _ (fresh (dom h))) as [o'| |]; bind_cases. by intros [= _ <-]. }
    eapply well_linked_append; [by apply (well_linked_new h true)| | |exact Happ].
    + exists (Pot.new true). simpl. by rewrite lookup_insert_eq.
    + intros E. apply (is_fresh (dom h)). rewrite E. apply elem_of_dom. eauto.
Qed.

(** A write to a placeholder needs its parent to be a pot of the store, as
    every Python reference is. *)
Definition admissible_write (h : heap) (o : op) : Prop :=
  match o with
  | Write pp _ => is_Some (h !! pp_parent pp)
  | _ => True
  end.

Fixpoint admissible_writes (h : heap) (ops : list op) : Prop :=
  match ops with
  | [] => True
  | o :: ops' => admissible_write h o ∧ ∀ h', run_op h o = Ok h' → admissible_writes h' ops'
  end.

Lemma run_op_well_linked h o h' :
  well_linked h → admissible h o → admissible_write h o →
  run_op h o = Ok h' → well_linked h'.
Proof.
  intros Hwl Hadm Hadw. destruct o as [v|p d c|p d|pp v]; simpl.
  - intros [= <-]. by apply well_linked_new.
  - destruct Hadm as [Hiso Hcp].
    destruct (append h p d c) as [[h1 x]| |] eqn:Happ; [|done..].
    intros [= <-].
    assert (x = c) as ->.
    { unfold append in Happ. revert Happ.
      destruct (deref h p) as [o| |]; bind_cases.
      destruct (getattr d o); [done|].
      destruct (deref _ c) as [o'| |]; bind_cases. by intros [= _ <-]. }
    by eapply well_linked_append.
  - destruct (detach h p d) as [[h1 x]| |] eqn:Hdet; [|done..].
    intros [= <-]. by eapply well_linked_detach.
  - destruct (PotentialPot_set_plant h pp v) as [[h1 pp']| |] eqn:Hw; [|done..].
    intros [= <-]. by eapply well_linked_write.
Qed.

Lemma run_ops_well_linked ops : ∀ h h',
  well_linked h → admissible_ops h ops → admissible_writes h ops →
  run_ops h ops = Ok h' → well_linked h'.
Proof.
  induction ops as [|o ops IH]; intros h h' Hwl Hadm Hadw; simpl.
  - by intros [= <-].
  - destruct Hadm as [Ho Hadm]. destruct Hadw as [Hw Hadw].
    destruct (run_op h o) as [h1| |] eqn:Hrun; bind_cases.
    apply IH; [by eapply run_op_well_linked|by apply Hadm|by apply Hadw].
Qed.

Lemma hops_rank h rank :
  symmetric h → (∀ a b, linked h Right a b → rank b = (rank a + 1)%Z) →
  ∀ n d a b, hops h d n a = Some b →
    rank b = (rank a + match d with Right => Z.of_nat n | Left => - Z.of_nat n end)%Z.
Proof.
  intros Hsym Hrank. induction n as [|n IH]; intros d a b.
  - simpl. intros [= <-]. destruct d; lia.
  - cbn [hops]. destruct (h !! a) as [o|] eqn:Ho; [|done]. simpl.
    destruct (getattr d o) as [a'|] eqn:Hg; [|done]. simpl.
    intros Hh. apply IH in Hh. rewrite Hh.
    assert (linked h d a a') as Hlk by by exists o.
    destruct d.
    + apply Hsym, Hrank in Hlk. lia.
    + apply Hrank in Hlk. lia.
Qed.

Lemma well_linked_acyclic h : well_linked h → acyclic h.
Proof.
  intros [Hsym [rank Hrank]] d a n Hn Hh.
  apply (hops_rank h rank Hsym Hrank) in Hh. destruct d; lia.
Qed.

Lemma well_linked_empty : well_linked ∅.
Proof.
  split.
  - intros d a b (o & Ho & _). by rewrite lookup_empty in Ho.
  - exists (λ _, 0%Z). intros a b (o & Ho & _). by rewrite lookup_empty in Ho.
Qed.

(** C8 (as amended).  From a store whose links are symmetric and whose pots
    can be numbered along the right links, any sequence of new pots, links,
    unlinks and placeholder writes that returns leaves the links symmetric
    and without cycles, provided every link is given a child that has no
    neighbour and is not the parent.  In the store reached, a link on a side
    that has a neighbour and an unlink on a side that has none raise
    [AssertionError], and a raise ends the whole sequence. *)
Theorem linkage_invariant (h : heap) (ops : list op) (h' : heap) :
  well_linked h → admissible_ops h ops → admissible_writes h ops →
  run_ops h ops = Ok h' →
  (∀ a b, linked h' Right a b → linked h' Left b a)
  ∧ (∀ a b, linked h' Left a b → linked h' Right b a)
  ∧ acyclic h'
  ∧ (∀ p d c x, linked h' d p x → append h' p d c = Raise AssertionError)
  ∧ (∀ p d o, h' !! p = Some o → getattr d o = None →
       detach h' p d = Raise AssertionError)
  ∧ (∀ o e rest, run_op h' o = Raise e → run_ops h (ops ++ o :: rest) = Raise e).
Proof.
  intros Hwl Hadm Hadw Hrun.
  pose proof (run_ops_well_linked ops h h' Hwl Hadm Hadw Hrun) as Hwl'.
  split; [intros a b; apply (proj1 Hwl' Right)|].
  split; [intros a b; apply (proj1 Hwl' Left)|].
  split; [by apply well_linked_acyclic|].
  split; [|split].
  - intros p d c x (o & Ho & Hg). unfold append.
    rewrite (deref_Some _ _ _ Ho). bind_cases. by rewrite Hg.
  - intros p d o Ho Hg. unfold detach.
    rewrite (deref_Some _ _ _ Ho). bind_cases. by rewrite Hg.
  - intros o e rest Hraise. clear Hwl Hadm Hadw Hwl'. revert h Hrun.
    induction ops as [|o' ops IH]; intros h; simpl.
    + intros [= ->]. by rewrite Hraise.
    + destruct (run_op h o') as [h1| |]; bind_cases. apply IH.
Qed.

(** Three pots linked into a chain, a plant written to the placeholder
    behind it, and the first link taken apart again. *)
Definition example_ops : list op :=
  [New true; New false; New true; Link 0 Right 1; Link 1 Right 2;
   Write (mkPotentialPot 2 Right None) true; Unlink 0 Right].

Definition example_linked_heap : heap :=
  Eval vm_compute in match run_ops ∅ example_ops with Ok h => h | _ => ∅ end.

Ltac admissible_step :=
  match goal with
  | |- True => exact I
  | |- _ ∧ _ => split
  | |- isolated _ _ => eexists; split; [by vm_compute|by split]
  | |- is_Some _ => eexists; by vm_compute
  | |- _ ≠ _ => done
  | |- ∀ h', _ = Ok h' → _ =>
      let H := fresh in intros ? H; vm_compute in H; injection H as <-
  end.

Lemma linkage_invariant_witness :
  run_ops ∅ example_ops = Ok example_linked_heap
  ∧ (∀ a b, linked example_linked_heap Right a b → linked example_linked_heap Left b a)
  ∧ acyclic example_linked_heap
  ∧ append example_linked_heap 1 Right 0 = Raise AssertionError
  ∧ detach example_linked_heap 0 Right = Raise AssertionError.
Proof.
  assert (run_ops ∅ example_ops = Ok example_linked_heap) as Hrun by by vm_compute.
  destruct (linkage_invariant ∅ example_ops example_linked_heap)
    as (Hr & Hl & Hac & Happ & Hdet & _).
  - apply well_linked_empty.
  - unfold example_ops. simpl. repeat admissible_step.
  - unfold example_ops. simpl. repeat admissible_step.
  - exact Hrun.
  - split; [exact Hrun|]. split; [exact Hr|]. split; [exact Hac|]. split.
    + apply (Happ 1 Right 0 2). eexists. split; by vm_compute.
    + eapply (Hdet 0 Right). * by vm_compute. * done.
Defined.

(** A link whose child is already part of the chain: the parent has no
    neighbour on that side, so the assertion passes.  With the first pot of
    a chain of three as the child of the last one the chain closes into a
    ring; with the middle pot as the child, the first pot still has it as
    right neighbour while its left neighbour is now the last pot. *)
Lemma link_of_chained_child_breaks_linkage :
  ∃ h, run_ops ∅ [New true; New false; New true; Link 0 Right 1; Link 1 Right 2] = Ok h
    ∧ well_linked h
    ∧ (∃ h', run_ops h [Link 2 Right 0] = Ok h' ∧ hops h' Right 3 0 = Some 0)
    ∧ (∃ h', run_ops h [Link 2 Right 1] = Ok h'
             ∧ linked h' Right 0 1 ∧ ¬ linked h' Left 1 0).
Proof.
  eexists. split; [by vm_compute|]. split; [|split].
  - eapply (run_ops_well_linked
              [New true; New false; New true; Link 0 Right 1; Link 1 Right 2] ∅);
      [apply well_linked_empty| | |by vm_compute];
      simpl; repeat admissible_step.
  - eexists. split; by vm_compute.
  - eexists. split; [by vm_compute|]. split.
    + eexists. split; by vm_compute.
    + intros (o & Ho & Hg). vm_compute in Ho. injection Ho as <-. done.
Qed.

(** ** One step against the automaton

    The tape as a function of the signed position: the root at 0, the right
    cells at 1, 2, ..., the left cells at -1, -2, ..., and no plant
    anywhere else. *)
Definition cell_at (t : tape) (z : Z) : Plant :=
  if decide (z = 0)%Z then t.1.2
  else if decide (0 < z)%Z then default false (t.2 !! Z.to_nat (z - 1))
  else default false (t.1.1 !! Z.to_nat (- z - 1)).

(** The five cells around position [z], left to right. *)
Definition window (t : tape) (z : Z) : _RuleKey :=
  [cell_at t (z - 2); cell_at t (z - 1); cell_at t z; cell_at t (z + 1); cell_at t (z + 2)].

Definition sgn (d : Dir) : Z := match d with Left => (-1)%Z | Right => 1%Z end.

(** The cells of the side [d] of a tape. *)
Definition side_of (d : Dir) (t : tape) : list Plant :=
  match d with Left => t.1.1 | Right => t.2 end.

Lemma cell_at_side d t (i : nat) :
  cell_at t (sgn d * Z.of_nat (S i)) = default false (side_of d t !! i).
Proof.
  unfold cell_at. destruct d; simpl sgn.
  - rewrite decide_False, decide_False by lia. simpl. do 2 f_equal. lia.
  - rewrite decide_False, decide_True by lia. simpl. do 2 f_equal. lia.
Qed.

Lemma central_state_window ls c rs : central_state ls c rs = window (ls, c, rs) 0.
Proof. done. Qed.

Lemma window_ext t z z' : z = z' → window t z = window t z'.
Proof. by intros ->. Qed.

(** Rotating the window around [k] cells out with the cell three further
    out gives the window around the next cell. *)
Lemma rot_window d t (k : nat) :
  rot d (window t (sgn d * Z.of_nat k)) (cell_at t (sgn d * Z.of_nat (k + 3)))
  = window t (sgn d * Z.of_nat (S k)).
Proof.
  unfold window. destruct d; simpl rot; simpl sgn;
    repeat (f_equal; try (f_equal; lia)).
Qed.

Lemma sweep_news_window rules d t : ∀ rem k j,
  rem = drop k (side_of d t) → j < length rem →
  sweep_news rules d (window t (sgn d * Z.of_nat k)) rem !! j
  = Some (rule_of rules (window t (sgn d * Z.of_nat (k + 1 + j)))).
Proof.
  induction rem as [|x rem IH]; intros k j Hrem Hj; [simpl in Hj; lia|].
  assert (rem = drop (S k) (side_of d t)) as Hrem'.
  { change rem with (drop 1 (x :: rem)). rewrite Hrem, drop_drop. f_equal. lia. }
  assert (default false (rem !! 1) = cell_at t (sgn d * Z.of_nat (k + 3))) as Hla.
  { rewrite Hrem', lookup_drop.
    replace (k + 3) with (S (S k + 1)) by lia. by rewrite cell_at_side. }
  cbn [sweep_news]. rewrite Hla, rot_window.
  destruct j as [|j].
  - simpl. do 3 f_equal. lia.
  - simpl. rewrite (IH (S k) j Hrem') by (simpl in Hj; lia).
    do 3 f_equal. lia.
Qed.

Lemma sweep_state_window rules d t : ∀ rem k,
  rem = drop k (side_of d t) →
  sweep_state rules d (window t (sgn d * Z.of_nat k)) rem
  = window t (sgn d * Z.of_nat (k + length rem)).
Proof.
  induction rem as [|x rem IH]; intros k Hrem.
  - simpl. apply window_ext. lia.
  - assert (rem = drop (S k) (side_of d t)) as Hrem'.
    { change rem with (drop 1 (x :: rem)). rewrite Hrem, drop_drop. f_equal. lia. }
    assert (default false (rem !! 1) = cell_at t (sgn d * Z.of_nat (k + 3))) as Hla.
    { rewrite Hrem', lookup_drop.
      replace (k + 3) with (S (S k + 1)) by lia. by rewrite cell_at_side. }
    cbn [sweep_state]. rewrite Hla, rot_window, (IH (S k) Hrem').
    apply window_ext. simpl. lia.
Qed.

Lemma trim_false_lookup xs i :
  default false (trim_false xs !! i) = default false (xs !! i).
Proof.
  revert i. induction xs as [|x xs IH]; intros i; [done|].
  simpl. destruct (trim_false xs) as [|y ys] eqn:E.
  - destruct i as [|i].
    + by destruct x.
    + specialize (IH i). simpl in IH. destruct x; simpl; exact IH.
  - destruct i as [|i]; [done|]. simpl. apply IH.
Qed.

Lemma trim_false_last xs : last (trim_false xs) ≠ Some false.
Proof.
  induction xs as [|x xs IH]; [done|]. simpl.
  destruct (trim_false xs) as [|y ys] eqn:E.
  - by destruct x.
  - by rewrite last_cons_cons.
Qed.

(** What one side holds after a step, seen from the old tape: up to one
    cell beyond the old cells, the plant the rule gives for the old
    window. *)
Lemma step_side_window rules fuel t d ys i :
  step_side rules d fuel (window t 0) (side_of d t) = Some ys →
  i ≤ length (side_of d t) →
  default false (ys !! i) = rule_of rules (window t (sgn d * Z.of_nat (S i))).
Proof.
  unfold step_side. intros Hstep Hi.
  pose proof (sweep_state_window rules d t (side_of d t) 0 eq_refl) as Hst.
  change (window t (sgn d * Z.of_nat 0)) with (window t (sgn d * 0)) in Hst.
  rewrite Z.mul_0_r in Hst. rewrite Hst in Hstep. simpl in Hstep.
  destruct (grow fuel rules d _) as [g|] eqn:Hg; [|done].
  injection Hstep as <-. rewrite trim_false_lookup.
  destruct (decide (i < length (side_of d t))) as [Hlt|Hge].
  - rewrite lookup_app_l by by rewrite sweep_news_length.
    pose proof (sweep_news_window rules d t (side_of d t) 0 i eq_refl Hlt) as Hn.
    change (window t (sgn d * Z.of_nat 0)) with (window t (sgn d * 0)) in Hn.
    rewrite Z.mul_0_r in Hn. rewrite Hn. simpl. done.
  - assert (i = length (side_of d t)) as -> by lia.
    rewrite lookup_app_r by by rewrite sweep_news_length.
    rewrite sweep_news_length, Nat.sub_diag.
    destruct fuel as [|fuel]; [done|]. rewrite grow_unfold in Hg.
    assert (rot d (window t (sgn d * Z.of_nat (length (side_of d t)))) false
            = window t (sgn d * Z.of_nat (S (length (side_of d t))))) as Hrot.
    { rewrite <- rot_window. f_equal.
      replace (length (side_of d t) + 3)
        with (S (length (side_of d t) + 2)) by lia.
      rewrite cell_at_side. by rewrite lookup_ge_None_2 by lia. }
    simpl in Hg. rewrite Hrot in Hg.
    destruct (rule_of rules _); [|by injection Hg as <-].
    destruct (grow fuel rules d _); [|done]. by injection Hg as <-.
Qed.

(** Every cell from one place beyond the left end to one place beyond the
    right end holds, after a step, what the rule gives for its old window. *)
Lemma step_tape_window rules fuel t t' z :
  step_tape rules fuel t = Some t' →
  (- Z.of_nat (length t.1.1) - 1 ≤ z ≤ Z.of_nat (length t.2) + 1)%Z →
  cell_at t' z = rule_of rules (window t z).
Proof.
  destruct t as [[ls c] rs]. cbn [step_tape]. rewrite central_state_window.
  intros Hstep Hz.
  destruct (step_side rules Left _ _ ls) as [ls'|] eqn:Hl; [|done].
  destruct (step_side rules Right _ _ rs) as [rs'|] eqn:Hr; [|done].
  injection Hstep as <-. simpl in Hz.
  destruct (Z.lt_trichotomy z 0) as [Hneg|[->|Hpos]].
  - replace z with (sgn Left * Z.of_nat (S (Z.to_nat (- z - 1))))%Z
      by (simpl; lia).
    rewrite cell_at_side. simpl side_of.
    apply (step_side_window rules fuel (ls, c, rs) Left ls'); [done|simpl; lia].
  - done.
  - replace z with (sgn Right * Z.of_nat (S (Z.to_nat (z - 1))))%Z
      by (simpl; lia).
    rewrite cell_at_side. simpl side_of.
    apply (step_side_window rules fuel (ls, c, rs) Right rs'); [done|simpl; lia].
Qed.

(** ** When a step returns *)

Lemma grow_all_true rules d : ∀ fuel st g,
  grow fuel rules d st = Some g → Forall (λ x, x = true) g.
Proof.
  induction fuel as [|fuel IH]; intros st g; [done|]. rewrite grow_unfold.
  destruct (rule_of rules _); [|by intros [= <-]].
  destruct (grow fuel rules d _) as [g'|] eqn:E; [|done].
  intros [= <-]. constructor; [done|]. by eapply IH.
Qed.

Lemma grow_fuel_S rules d : ∀ fuel st g,
  grow fuel rules d st = Some g → grow (S fuel) rules d st = Some g.
Proof.
  induction fuel as [|fuel IH]; intros st g; [done|].
  rewrite (grow_unfold (S fuel)), (grow_unfold fuel).
  destruct (rule_of rules _); [|done].
  destruct (grow fuel rules d _) as [g'|] eqn:E; [|done].
  intros [= <-]. by rewrite (IH _ _ E).
Qed.

Lemma grow_fuel_le rules d fuel fuel' st g :
  fuel ≤ fuel' → grow fuel rules d st = Some g → grow fuel' rules d st = Some g.
Proof. induction 1; [done|]. intros. by apply grow_fuel_S; auto. Qed.



(** If the loop over the placeholders returns, the growth has stopped
    within its fuel. *)
Lemma walk_grow_inv rules d : total5 rules → ∀ fuel h root cells wp st pot r,
  side_repr h d root cells → NoDup (root :: cells.*1) →
  at_end wp (last_id root cells) → length st = 5 →
  walk fuel rules d h wp None st pot = Ok r →
  ∃ g, grow fuel rules d st = Some g.
Proof.
  intros Htot. induction fuel as [|fuel IH];
    intros h root cells wp st pot r Hside Hnd Hend Hst; [done|].
  destruct (side_repr_last _ _ _ _ Hside) as (pl & Hpl & Hnone).
  rewrite walk_unfold, (with_potentials_next_at_end _ _ _ _ Hend).
  unfold Pot_with_potentials_next, iter_dir_next.
  rewrite (deref_Some _ _ _ Hpl). bind_cases. rewrite Hnone. bind_cases.
  cbn [lookahead_next]. bind_cases.
  rewrite next_plant_state_total by (by try apply rot_length). bind_cases.
  rewrite grow_unfold.
  destruct (rule_of rules (rot d st false)) eqn:Hv; [|eauto].
  unfold PotentialPot_set_plant. cbn [pp_linked pp_parent pp_dir].
  destruct (append_new h d root cells true Hside Hnd)
    as (h2 & Happ & Hside2 & _).
  pose proof (fresh_not_in_side _ _ _ _ Hside) as Hnew.
  set (new := fresh (dom h)) in *.
  change (alloc h (Pot.new true)) with (<[new := Pot.new true]> h, new) in Happ |- *.
  cbn [fst] in Happ. cbn iota beta. rewrite Happ. bind_cases.
  intros Hwalk.
  assert (∃ g, grow fuel rules d (rot d st false) = Some g) as [g Hg].
  { eapply (IH h2 root (cells ++ [(new, true)])); [done| | | |exact Hwalk].
    - rewrite fmap_app. by apply NoDup_snoc_fresh.
    - right. eexists. split; [done|]. by rewrite last_id_snoc.
    - by apply rot_length. }
  rewrite Hg. eauto.
Qed.

Lemma apply_dir_returns_inv rules d fuel h root cells st h' :
  total5 rules →
  side_repr h d root cells → NoDup (root :: cells.*1) → length st = 5 →
  apply_dir fuel rules root d st (cells.*1 !! 1) h = Ok h' →
  ∃ g, grow fuel rules d (sweep_state rules d st cells.*2) = Some g.
Proof.
  intros Htot Hside Hnd Hst. unfold apply_dir.
  destruct (walk fuel rules d h (WPIter root) (cells.*1 !! 1) st (Real root))
    as [r| |] eqn:Hw; bind_cases. intros _.
  pose proof Hnd as [Hroot Hnd']%NoDup_cons.
  pose proof (fuel_le (λ f, walk f rules d h (WPIter root) (cells.*1 !! 1) st (Real root))
                (λ f, walk_fuel_S rules d f _ _ _ _ _) fuel (length cells + fuel)
                ltac:(lia)) as Hmono.
  simpl in Hmono. rewrite Hw in Hmono. specialize (Hmono ltac:(done)).
  rewrite (walk_real rules d Htot cells h root _ st (Real root) fuel Hside Hnd' eq_refl Hst)
    in Hmono.
  set (news := sweep_news rules d st cells.*2) in *.
  assert (length news = length cells) as Hlen.
  { unfold news. by rewrite sweep_news_length, length_fmap. }
  eapply (walk_grow_inv rules d Htot fuel _ root (zip cells.*1 news)); [| | | |exact Hmono].
  - by apply write_plants_side.
  - rewrite fst_zip; [done|]. rewrite length_fmap. lia.
  - left. by rewrite last_id_zip.
  - by apply sweep_state_length.
Qed.

Lemma central_state_length ls c rs : length (central_state ls c rs) = 5.
Proof. done. Qed.

(** Whenever [Rules.apply] returns, it has computed [step_tape]. *)
Lemma apply_returns_inv rules fuel h root lcells c rcells h' :
  total5 rules →
  tape_repr h root lcells c rcells →
  apply fuel rules h root = Ok h' →
  ∃ ls' c' rs' lcells' rcells',
    step_tape rules fuel (lcells.*2, c, rcells.*2) = Some (ls', c', rs')
    ∧ tape_repr h' root lcells' c' rcells'
    ∧ lcells'.*2 = ls' ∧ rcells'.*2 = rs'.
Proof.
  intros Htot Hrepr Hap.
  pose proof Hrepr as [(r & Hr & Hc) Hnd Hl Hrt].
  apply NoDup_tape_sides in Hnd as (Hndl & Hndr & Hdis).
  set (cs := central_state lcells.*2 c rcells.*2).
  assert (root ∉ lcells.*1) as Hrl by by apply NoDup_cons in Hndl as [? _].
  assert (root ∉ rcells.*1) as Hrr by by apply NoDup_cons in Hndr as [? _].
  (* the shape of the run *)
  pose proof Hap as Hap0. unfold apply in Hap.
  rewrite (deref_Some _ _ _ Hr) in Hap. cbn [mbind result_bind] in Hap.
  rewrite (lookahead_next_root _ _ _ _ Hl) in Hap. cbn [mbind result_bind] in Hap.
  rewrite (lookahead_next_lseg _ _ _ root 0 (proj2 Hl)) in Hap.
  cbn [mbind result_bind] in Hap.
  rewrite (lookahead_next_root _ _ _ _ Hrt) in Hap. cbn [mbind result_bind] in Hap.
  rewrite (lookahead_next_lseg _ _ _ root 0 (proj2 Hrt)) in Hap.
  cbn [mbind result_bind] in Hap. rewrite Hc in Hap.
  change (rot Right (rot Right (rot Left (rot Left [c] _) _) _) _) with cs in Hap.
  rewrite next_plant_state_total in Hap by done. cbn [mbind result_bind] in Hap.
  rewrite (insert_set_plant _ _ _ _ Hr) in Hap.
  set (h0 := alter (set_plant (rule_of rules cs)) root h) in *.
  assert (side_repr h0 Left root lcells) as Hl0 by by apply side_repr_alter_plant.
  assert (side_repr h0 Right root rcells) as Hr0 by by apply side_repr_alter_plant.
  destruct (apply_dir fuel rules root Left cs (lcells.*1 !! 1) h0) as [h1| |] eqn:Hap1;
    cbn [mbind result_bind] in Hap; [|done..].
  destruct (apply_dir_returns_inv rules Left fuel h0 root lcells cs h1) as [gl Hgl];
    [done..|].
  (* the store between the two passes *)
  destruct (apply_dir_spec rules Left (length lcells + fuel + 1) fuel h0 root lcells cs gl)
    as (h1' & lcells' & Hap1' & Hl1 & _ & _ & _ & Hfr1 & Hk1); [done..|].
  assert (h1' = h1) as ->.
  { pose proof (fuel_le (λ f, apply_dir f rules root Left cs (lcells.*1 !! 1) h0)
                  (apply_dir_fuel_S rules root Left cs _ h0) fuel
                  (length lcells + fuel + 1) ltac:(lia)) as Hmono.
    simpl in Hmono. rewrite Hap1 in Hmono. specialize (Hmono ltac:(done)). congruence. }
  assert (side_repr h1 Right root rcells) as Hr1.
  { eapply side_repr_frame; [| |exact Hr0].
    - intros i Hi. apply Hfr1.
      + eapply side_repr_dom; [exact Hr0|]. by right.
      + intros [->|Hi']%elem_of_cons; [done|]. by apply (Hdis i).
    - destruct Hk1 as (r0 & r1 & H0 & H1 & _ & Hg). by exists r0, r1. }
  destruct (apply_dir_returns_inv rules Right fuel h1 root rcells cs h') as [gr Hgr];
    [done..|].
  assert (∃ t', step_tape rules fuel (lcells.*2, c, rcells.*2) = Some t') as [[[ls' c'] rs'] Hstep].
  { cbn [step_tape]. unfold step_side. fold cs. rewrite Hgl, Hgr. simpl. eauto. }
  set (big := fuel + (length lcells + length rcells + fuel + 1)).
  destruct (apply_refines rules big fuel h root lcells c rcells ls' c' rs')
    as (h2 & lcells2 & rcells2 & Hap2 & Hrepr2 & Hls & Hrs);
    [done|done|done|unfold big; lia|unfold big; lia|].
  assert (h2 = h') as ->.
  { pose proof (fuel_le (λ f, apply f rules h root) (apply_fuel_S rules h root)
                  fuel big ltac:(unfold big; lia)) as Hmono.
    simpl in Hmono. rewrite Hap0 in Hmono. specialize (Hmono ltac:(done)). congruence. }
  exists ls', c', rs', lcells2, rcells2. done.
Qed.

Lemma rot_zeros d :
  rot d [false; false; false; false; false] false = [false; false; false; false; false].
Proof. by destruct d. Qed.

Lemma grow_zeros_forever rules d :
  rule_of rules [false; false; false; false; false] = true →
  ∀ fuel, grow fuel rules d [false; false; false; false; false] = None.
Proof.
  intros Hz. induction fuel as [|fuel IH]; [done|].
  by rewrite grow_unfold, rot_zeros, Hz, IH.
Qed.

(** At an end the growth either stops within three placeholders or never
    stops: beyond the second placeholder every window is all false. *)
Lemma grow_dichotomy rules d st :
  outer_is d st false false →
  (∃ g, grow 3 rules d st = Some g)
  ∨ (rule_of rules (rot d st false) = true
     ∧ rule_of rules (rot d (rot d st false) false) = true
     ∧ rule_of rules [false; false; false; false; false] = true
     ∧ ∀ fuel, grow fuel rules d st = None).
Proof.
  intros Hst. pose proof (rot3_zeros d st Hst) as H3.
  destruct (rule_of rules (rot d st false)) eqn:H1;
    [|left; rewrite grow_unfold, H1; eauto].
  destruct (rule_of rules (rot d (rot d st false) false)) eqn:H2;
    [|left; rewrite !grow_unfold, H1, H2; eauto].
  destruct (rule_of rules [false; false; false; false; false]) eqn:Hz;
    [|left; rewrite !grow_unfold, H1, H2, H3, Hz; eauto].
  right. do 3 (split; [done|]). intros [|[|[|fuel]]]; [done| | |].
  - by rewrite !grow_unfold, H1.
  - by rewrite !grow_unfold, H1, H2.
  - by rewrite !grow_unfold, H1, H2, H3, Hz, grow_zeros_forever.
Qed.

Lemma step_side_returns rules d cs xs :
  rule_of rules [false; false; false; false; false] = false →
  outer_is d cs (default false (xs !! 0)) (default false (xs !! 1)) →
  ∃ ys, step_side rules d 3 cs xs = Some ys
        ∧ length ys ≤ length xs + 2 ∧ last ys ≠ Some false.
Proof.
  intros Hz Hcs. unfold step_side.
  destruct (grow_dichotomy rules d (sweep_state rules d cs xs))
    as [[g Hg]|(_ & _ & Hz' & _)]; [by apply sweep_state_outer| |congruence].
  rewrite Hg. simpl. eexists. split; [done|]. split; [|apply trim_false_last].
  etrans; [apply trim_false_length|]. rewrite length_app, sweep_news_length.
  apply grow_length in Hg. lia.
Qed.

Lemma step_quiet_returns (entries : list (_RuleKey * Plant)) (fuel : nat)
    (h : heap) (root : id) (lcells rcells : list cell) (c : Plant) :
  next_plant_state (build entries) [false; false; false; false; false] = Ok false →
  tape_repr h root lcells c rcells →
  length lcells + 4 ≤ fuel → length rcells + 4 ≤ fuel →
  ∃ h' lcells' c' rcells',
    step fuel h (Plants.mk root (build entries)) = Ok h'
    ∧ tape_repr h' root lcells' c' rcells'
    ∧ last lcells'.*2 ≠ Some false ∧ last rcells'.*2 ≠ Some false
    ∧ length lcells' ≤ length lcells + 2 ∧ length rcells' ≤ length rcells + 2.
Proof.
  intros Hzero Hrepr Hfl Hfr. set (rules := build entries) in *.
  pose proof (build_total5 entries) as Htot. fold rules in Htot.
  assert (rule_of rules [false; false; false; false; false] = false) as Hz.
  { rewrite next_plant_state_total in Hzero by done. by injection Hzero. }
  destruct (outer_is_central lcells.*2 c rcells.*2) as [Hol Hor].
  destruct (step_side_returns rules Left _ _ Hz Hol) as (ls' & Hsl & Hll & Htl).
  destruct (step_side_returns rules Right _ _ Hz Hor) as (rs' & Hsr & Hlr & Htr).
  rewrite length_fmap in Hll, Hlr.
  destruct (apply_refines rules fuel 3 h root lcells c rcells ls'
              (rule_of rules (central_state lcells.*2 c rcells.*2)) rs')
    as (h' & lcells' & rcells' & Hap & Hrepr' & Hls & Hrs); [done|done| |lia|lia|].
  { cbn [step_tape]. by rewrite Hsl, Hsr. }
  exists h', lcells', (rule_of rules (central_state lcells.*2 c rcells.*2)), rcells'.
  split; [done|]. split; [done|].
  rewrite Hls, Hrs, <- (length_fmap snd lcells'), <- (length_fmap snd rcells'), Hls, Hrs.
  done.
Qed.

(** X1.  Under a rule table that maps the all-false window to no plant, a
    step on any tape returns, with fuel for the longer side and four more.
    The store then holds a tape around the same root, neither side ends in
    a cell without a plant, and each side has at most two cells more than
    before. *)
Theorem step_returns_trimmed (entries : list (_RuleKey * Plant)) (fuel : nat)
    (h : heap) (root : id) (lcells rcells : list cell) (c : Plant) :
  next_plant_state (build entries) [false; false; false; false; false] = Ok false →
  tape_repr h root lcells c rcells →
  length lcells + 4 ≤ fuel → length rcells + 4 ≤ fuel →
  ∃ h' lcells' c' rcells',
    step fuel h (Plants.mk root (build entries)) = Ok h'
    ∧ tape_repr h' root lcells' c' rcells'
    ∧ last lcells'.*2 ≠ Some false ∧ last rcells'.*2 ≠ Some false
    ∧ length lcells' ≤ length lcells + 2 ∧ length rcells' ≤ length rcells + 2.
Proof. apply step_quiet_returns. Qed.

Lemma step_returns_trimmed_witness :
  ∃ h' lcells' c' rcells',
    step 9 example_heap (Plants.mk 1 (build [([false; false; true; false; false], true)]))
    = Ok h'
    ∧ tape_repr h' 1 lcells' c' rcells'
    ∧ last lcells'.*2 ≠ Some false ∧ last rcells'.*2 ≠ Some false
    ∧ length lcells' ≤ 2 + 2 ∧ length rcells' ≤ 3 + 2.
Proof.
  apply (step_returns_trimmed [([false; false; true; false; false], true)] 9
           example_heap 1 [(5, false); (6, true)] [(2, false); (3, false); (4, true)] true).
  - done.
  - apply example_tape_repr.
  - simpl. lia.
  - simpl. lia.
Defined.

(** X2.  Whenever a step returns, every cell from one place beyond the
    left end of the old tape to one place beyond its right end holds what
    the rule table gives for the five old cells around it: the writes in
    place never reach a cell whose old plant is still to be read. *)
Theorem step_applies_rule_to_old_windows (entries : list (_RuleKey * Plant))
    (fuel : nat) (h : heap) (root : id) (lcells rcells : list cell) (c : Plant)
    (h' : heap) :
  tape_repr h root lcells c rcells →
  step fuel h (Plants.mk root (build entries)) = Ok h' →
  ∃ lcells' c' rcells',
    tape_repr h' root lcells' c' rcells'
    ∧ ∀ z, (- Z.of_nat (length lcells) - 1 ≤ z ≤ Z.of_nat (length rcells) + 1)%Z →
        next_plant_state (build entries) (window (lcells.*2, c, rcells.*2) z)
        = Ok (cell_at (lcells'.*2, c', rcells'.*2) z).
Proof.
  intros Hrepr Hstep. set (rules := build entries) in *.
  pose proof (build_total5 entries) as Htot. fold rules in Htot.
  destruct (apply_returns_inv rules fuel h root lcells c rcells h' Htot Hrepr Hstep)
    as (ls' & c' & rs' & lcells' & rcells' & Hst & Hrepr' & Hls & Hrs).
  exists lcells', c', rcells'. split; [done|]. intros z Hz.
  rewrite next_plant_state_total by done. f_equal. rewrite Hls, Hrs.
  symmetry. apply (step_tape_window rules fuel _ _ z Hst).
  simpl. by rewrite !length_fmap.
Qed.

Lemma step_applies_rule_to_old_windows_witness :
  ∃ h', step 9 example_heap (Plants.mk 1 (build [([false; false; true; false; false], true)]))
        = Ok h'
    ∧ ∃ lcells' c' rcells',
        tape_repr h' 1 lcells' c' rcells'
        ∧ ∀ z, (- 2 - 1 ≤ z ≤ 3 + 1)%Z →
            next_plant_state (build [([false; false; true; false; false], true)])
              (window ([false; true], true, [false; false; true]) z)
            = Ok (cell_at (lcells'.*2, c', rcells'.*2) z).
Proof.
  eexists. split; [by vm_compute|].
  apply (step_applies_rule_to_old_windows [([false; false; true; false; false], true)] 9
           example_heap 1 [(5, false); (6, true)] [(2, false); (3, false); (4, true)] true).
  - apply example_tape_repr.
  - by vm_compute.
Defined.






Lemma step_side_length rules d fuel cs xs ys :
  step_side rules d fuel cs xs = Some ys → length ys < length xs + fuel.
Proof.
  unfold step_side. destruct (grow fuel rules d _) as [g|] eqn:Hg; [|done].
  intros [= <-]. apply grow_length in Hg.
  pose proof (trim_false_length (sweep_news rules d cs xs ++ g)) as Hl.
  rewrite length_app, sweep_news_length in Hl. lia.
Qed.

Lemma step_tape_fuel_le rules fuel fuel' t t' :
  fuel ≤ fuel' → step_tape rules fuel t = Some t' → step_tape rules fuel' t = Some t'.
Proof.
  destruct t as [[ls c] rs]. intros Hle. cbn [step_tape]. unfold step_side.
  destruct (grow fuel rules Left _) as [gl|] eqn:Hgl; [|done].
  destruct (grow fuel rules Right _) as [gr|] eqn:Hgr; [|done].
  by rewrite (grow_fuel_le _ _ _ _ _ _ Hle Hgl), (grow_fuel_le _ _ _ _ _ _ Hle Hgr).
Qed.

(** X4.  The outcome of a step depends on the plants of the tape only, not
    on which objects hold them nor on what else is in the store: if a step
    returns on one store, it returns on every store that holds the same
    tape, and the two new tapes read as the same string. *)
Theorem step_independent_of_store (entries : list (_RuleKey * Plant)) (fuel big : nat)
    (h1 : heap) (root1 : id) (lcells1 rcells1 : list cell) (c : Plant) (h1' : heap)
    (h2 : heap) (root2 : id) (lcells2 rcells2 : list cell) :
  tape_repr h1 root1 lcells1 c rcells1 →
  tape_repr h2 root2 lcells2 c rcells2 →
  lcells2.*2 = lcells1.*2 → rcells2.*2 = rcells1.*2 →
  step fuel h1 (Plants.mk root1 (build entries)) = Ok h1' →
  length lcells1 + length rcells1 + fuel + 1 ≤ big →
  ∃ h2' s,
    step big h2 (Plants.mk root2 (build entries)) = Ok h2'
    ∧ Plants_str big h1' (Plants.mk root1 (build entries)) = Ok s
    ∧ Plants_str big h2' (Plants.mk root2 (build entries)) = Ok s.
Proof.
  intros Hrepr1 Hrepr2 Hl Hr Hstep Hbig. set (rules := build entries) in *.
  pose proof (build_total5 entries) as Htot. fold rules in Htot.
  destruct (apply_returns_inv rules fuel h1 root1 lcells1 c rcells1 h1' Htot Hrepr1 Hstep)
    as (ls' & c' & rs' & lcells1' & rcells1' & Hst & Hrepr1' & Hls1 & Hrs1).
  assert (length lcells2 = length lcells1) as Hlenl
    by (by rewrite <- (length_fmap snd lcells2), Hl, length_fmap).
  assert (length rcells2 = length rcells1) as Hlenr
    by (by rewrite <- (length_fmap snd rcells2), Hr, length_fmap).
  destruct (apply_refines rules big fuel h2 root2 lcells2 c rcells2 ls' c' rs')
    as (h2' & lcells2' & rcells2' & Hap2 & Hrepr2' & Hls2 & Hrs2);
    [done|done|by rewrite Hl, Hr|lia|lia|].
  pose proof Hst as Hst'. cbn [step_tape] in Hst'.
  destruct (step_side rules Left _ _ _) as [ls0|] eqn:Hsl; [|done].
  destruct (step_side rules Right _ _ _) as [rs0|] eqn:Hsr; [|done].
  injection Hst' as -> _ ->.
  apply step_side_length in Hsl, Hsr. rewrite length_fmap in Hsl, Hsr.
  exists h2', (tape_str ls' c' rs'). split; [done|]. split.
  - rewrite <- Hls1, <- Hrs1. apply Plants_str_repr; [done| |].
    + rewrite <- (length_fmap snd lcells1'), Hls1. lia.
    + rewrite <- (length_fmap snd rcells1'), Hrs1. lia.
  - rewrite <- Hls2, <- Hrs2. apply Plants_str_repr; [done| |].
    + rewrite <- (length_fmap snd lcells2'), Hls2. lia.
    + rewrite <- (length_fmap snd rcells2'), Hrs2. lia.
Qed.

(** The tape [#.#] loaded into an empty store and into a store that
    already holds another tape. *)
Lemma step_independent_of_store_witness :
  ∃ h1 root1 h1' h2 root2 h2' s,
    from_initial ∅ "#.#" = Ok (h1, root1)
    ∧ from_initial example_heap "#.#" = Ok (h2, root2)
    ∧ step 6 h1 (Plants.mk root1 (build [([false; false; true; false; false], true)])) = Ok h1'
    ∧ step 9 h2 (Plants.mk root2 (build [([false; false; true; false; false], true)])) = Ok h2'
    ∧ Plants_str 9 h1' (Plants.mk root1 (build [([false; false; true; false; false], true)])) = Ok s
    ∧ Plants_str 9 h2' (Plants.mk root2 (build [([false; false; true; false; false], true)])) = Ok s.
Proof.
  destruct (from_initial_cells ∅ "#.#") as (h1 & root1 & c1 & rcells1 & Hok1 & Hrepr1 & Hc1);
    [done|].
  destruct (from_initial_cells example_heap "#.#")
    as (h2 & root2 & c2 & rcells2 & Hok2 & Hrepr2 & Hc2); [done|].
  injection Hc1 as -> Hc1. injection Hc2 as -> Hc2.
  assert (length rcells1 = 2) as Hlen.
  { apply (f_equal length) in Hc1. by rewrite length_fmap in Hc1. }
  destruct (apply_refines (build [([false; false; true; false; false], true)]) 6 3
              h1 root1 [] true rcells1 [] false [])
    as (h1' & _ & _ & Hstep1 & _);
    [apply build_total5|done|by rewrite Hc1; vm_compute|simpl; lia|lia|].
  destruct (step_independent_of_store [([false; false; true; false; false], true)] 6 9
              h1 root1 [] rcells1 true h1' h2 root2 [] rcells2)
    as (h2' & s & H1 & H2 & H3); [done|done|done|congruence|done|simpl; lia|].
  exists h1, root1, h1', h2, root2, h2', s.
  exact (conj Hok1 (conj Hok2 (conj Hstep1 (conj H1 (conj H2 H3))))).
Defined.

(** ** Trimming, iterating, linking *)

Lemma trim_cells_prefix cells : trim_cells cells `prefix_of` cells.
Proof.
  induction cells as [|c cells IH]; simpl; [done|].
  destruct (trim_cells cells) as [|k kept] eqn:E.
  - destruct c.2; [by apply prefix_cons, prefix_nil|apply prefix_nil].
  - by apply prefix_cons.
Qed.

(** X5.  The trimming loop, started at the last pot of a side, returns with
    fuel for the length of the side.  It detaches exactly the pots without a
    plant that lie beyond the last plant of the side, never the root; what
    is left is a well-linked side, and no other pot of the store is
    touched. *)
Theorem trim_detaches_false_end (d : Dir) (h : heap) (root : id)
    (cells : list cell) (fuel : nat) :
  side_repr h d root cells → NoDup (root :: cells.*1) → length cells < fuel →
  ∃ h', trim fuel h root (_reverse d) (last_id root cells) = Ok h'
    ∧ side_repr h' d root (trim_cells cells)
    ∧ trim_cells cells `prefix_of` cells
    ∧ (trim_cells cells).*2 = trim_false cells.*2
    ∧ last (trim_cells cells).*2 ≠ Some false
    ∧ (∀ i, i ∉ root :: cells.*1 → h' !! i = h !! i)
    ∧ (Pot.plant <$> h' !! root) = (Pot.plant <$> h !! root).
Proof.
  intros Hside Hnd Hfuel.
  destruct (trim_side d cells h root fuel Hside Hnd Hfuel)
    as (h' & Htrim & Hside' & Hframe & (r & r' & Hr & Hr' & Hp & _)).
  exists h'. split; [done|]. split; [done|]. split; [apply trim_cells_prefix|].
  split; [apply trim_cells_plants|]. split.
  - rewrite trim_cells_plants. apply trim_false_last.
  - split; [done|]. by rewrite Hr, Hr'; simpl; rewrite Hp.
Qed.

Lemma trim_detaches_false_end_witness :
  ∃ h root c rcells h',
    from_initial ∅ "#.#.." = Ok (h, root)
    ∧ tape_repr h root [] c rcells
    ∧ rcells.*2 = [false; true; false; false]
    ∧ trim 5 h root Left (last_id root rcells) = Ok h'
    ∧ side_repr h' Right root (trim_cells rcells)
    ∧ (trim_cells rcells).*2 = [false; true].
Proof.
  destruct (from_initial_cells ∅ "#.#..") as (h & root & c & rcells & Hok & Hrepr & Hc);
    [done|].
  injection Hc as -> Hc.
  assert (length rcells = 4) as Hlen.
  { apply (f_equal length) in Hc. by rewrite length_fmap in Hc. }
  destruct (trim_detaches_false_end Right h root rcells 5)
    as (h' & Htrim & Hside & _ & Hplants & _).
  - apply Hrepr.
  - destruct Hrepr as [_ Hnd _ _]. by apply NoDup_tape_sides in Hnd as (_ & ? & _).
  - lia.
  - exists h, root, true, rcells, h'. rewrite Hc in Hplants.
    exact (conj Hok (conj Hrepr (conj Hc (conj Htrim (conj Hside Hplants))))).
Defined.

Lemma hops_add h d a : ∀ b p, hops h d (a + b) p = hops h d a p ≫= hops h d b.
Proof.
  induction a as [|a IH]; intros b p; [done|]. cbn [Nat.add hops].
  destruct (h !! p) as [o|]; [|done]. simpl.
  destruct (getattr d o) as [q|]; [|done]. simpl. apply IH.
Qed.

Lemma hops_S_r h d n p : hops h d (S n) p = hops h d n p ≫= hops h d 1.
Proof. by rewrite <- Nat.add_1_r, hops_add. Qed.

(** A walk that comes back to its start goes on for ever. *)
Lemma hops_ring h d k p :
  0 < k → hops h d k p = Some p → ∀ n, is_Some (hops h d n p).
Proof.
  intros Hk Hring n. induction (lt_wf n) as [n _ IH].
  destruct (decide (n < k)) as [Hlt|Hge].
  - replace k with (n + (k - n)) in Hring by lia. rewrite hops_add in Hring.
    destruct (hops h d n p); [eauto|done].
  - replace n with (k + (n - k)) by lia. rewrite hops_add, Hring. simpl.
    apply IH. lia.
Qed.

Lemma hops_1 h d p q :
  hops h d 1 p = Some q ↔ ∃ o, h !! p = Some o ∧ getattr d o = Some q.
Proof.
  cbn [hops]. destruct (h !! p) as [o|]; simpl.
  - destruct (getattr d o) as [q'|] eqn:E; simpl.
    + split; [intros [= <-]; eauto|]. intros (o' & [= <-] & Hg). congruence.
    + split; [done|]. intros (o' & [= <-] & Hg). congruence.
  - split; [done|]. by intros (o' & ? & _).
Qed.

Lemma iter_dir_never_returns_on_ring h d : ∀ fuel p,
  (∀ n, is_Some (hops h d n p)) → iter_dir fuel h d p = Timeout.
Proof.
  induction fuel as [|fuel IH]; intros p Hall; [done|].
  rewrite iter_dir_unfold. unfold iter_dir_next.
  pose proof (Hall 1) as [q Hq]. apply hops_1 in Hq as (o & Ho & Hg).
  rewrite (deref_Some _ _ _ Ho). bind_cases. rewrite Hg. bind_cases.
  rewrite IH; [done|]. intros n. specialize (Hall (S n)). cbn [hops] in Hall.
  by rewrite Ho in Hall; simpl in Hall; rewrite Hg in Hall.
Qed.

Lemma iter_dir_hops h d : ∀ fuel p l,
  iter_dir fuel h d p = Ok l →
  (∀ i, i < length l → hops h d (S i) p = l !! i)
  ∧ (∃ o, h !! (default p (last l)) = Some o ∧ getattr d o = None)
  ∧ length l < fuel.
Proof.
  induction fuel as [|fuel IH]; intros p l; [done|].
  rewrite iter_dir_unfold. unfold iter_dir_next, deref.
  destruct (h !! p) as [o|] eqn:Ho; bind_cases.
  destruct (getattr d o) as [q|] eqn:Hg; bind_cases.
  - destruct (iter_dir fuel h d q) as [l'| |] eqn:Hq; bind_cases. intros [= <-].
    destruct (IH q l' Hq) as (Hh & Hlast & Hlen). split; [|split].
    + intros i Hi. cbn [hops]. rewrite Ho. simpl. rewrite Hg. simpl.
      destruct i as [|i]; [done|]. apply Hh. simpl in Hi. lia.
    + rewrite last_cons. by destruct (last l').
    + simpl. lia.
  - intros [= <-]. split; [intros i Hi; simpl in Hi; lia|].
    split; [eauto|simpl; lia].
Qed.

Lemma iter_dir_not_start h d fuel p l :
  iter_dir fuel h d p = Ok l → p ∉ l.
Proof.
  intros Hit Hin. apply list_elem_of_lookup in Hin as [i Hi].
  destruct (iter_dir_hops h d fuel p l Hit) as (Hh & _).
  rewrite <- Hh in Hi by by eapply lookup_lt_Some.
  pose proof (iter_dir_never_returns_on_ring h d fuel p
                (hops_ring h d (S i) p ltac:(lia) Hi)) as Hto.
  congruence.
Qed.

(** X6.  When [iter_dir] returns, it has yielded the successive neighbours
    of the start pot in direction [d] up to a pot that has none; the start
    pot is not among them (as the docstring says), and no pot is yielded
    twice. *)
Theorem iter_dir_yields_neighbours (h : heap) (d : Dir) (fuel : nat) (p : id)
    (l : list id) :
  iter_dir fuel h d p = Ok l →
  (∀ i, i < length l → hops h d (S i) p = l !! i)
  ∧ (∃ o, h !! (default p (last l)) = Some o ∧ getattr d o = None)
  ∧ p ∉ l ∧ NoDup l.
Proof.
  intros Hit. destruct (iter_dir_hops h d fuel p l Hit) as (Hh & Hlast & _).
  split; [done|]. split; [done|]. split; [by eapply iter_dir_not_start|].
  clear Hh Hlast. revert p l Hit. induction fuel as [|fuel IH]; intros p l; [done|].
  rewrite iter_dir_unfold. unfold iter_dir_next, deref.
  destruct (h !! p) as [o|] eqn:Ho; bind_cases.
  destruct (getattr d o) as [q|] eqn:Hg; bind_cases; [|intros [= <-]; constructor].
  destruct (iter_dir fuel h d q) as [l'| |] eqn:Hq; bind_cases. intros [= <-].
  constructor; [by eapply iter_dir_not_start|by eapply IH].
Qed.

Lemma iter_dir_yields_neighbours_witness :
  iter_dir 4 example_heap Right 1 = Ok [2; 3; 4]
  ∧ (∀ i, i < 3 → hops example_heap Right (S i) 1 = [2; 3; 4] !! i)
  ∧ 1 ∉ [2; 3; 4] ∧ NoDup [2; 3; 4].
Proof.
  assert (iter_dir 4 example_heap Right 1 = Ok [2; 3; 4]) as Hit by by vm_compute.
  destruct (iter_dir_yields_neighbours example_heap Right 4 1 [2; 3; 4] Hit)
    as (Hh & _ & Hp & Hnd).
  exact (conj Hit (conj Hh (conj Hp Hnd))).
Defined.

(** The chain of three pots closed into a ring by a link to its first pot. *)
Definition ring_heap : heap :=
  Eval vm_compute in
    match run_ops ∅ [New true; New false; New true; Link 0 Right 1; Link 1 Right 2;
                     Link 2 Right 0] with
    | Ok h => h
    | _ => ∅
    end.

(** X7.  On a ring nothing that iterates returns: if following [d] from
    the start pot reaches a pot from which some walk comes back to itself,
    [iter_dir] runs out of every fuel, and when the ring lies to the right
    of the root so does the score. *)
Theorem iter_dir_loops_on_ring (h : heap) (d : Dir) (p q : id) (j k : nat) :
  hops h d j p = Some q → 0 < k → hops h d k q = Some q →
  (∀ fuel, iter_dir fuel h d p = Timeout)
  ∧ (d = Right → ∀ fuel rules, score fuel h (Plants.mk p rules) = Timeout).
Proof.
  intros Hpq Hk Hring.
  assert (∀ fuel, iter_dir fuel h d p = Timeout) as Hloop.
  { intros fuel. apply iter_dir_never_returns_on_ring. intros n.
    destruct (decide (n < j)) as [Hlt|Hge].
    - replace j with (n + (j - n)) in Hpq by lia. rewrite hops_add in Hpq.
      destruct (hops h d n p); [eauto|done].
    - replace n with (j + (n - j)) by lia. rewrite hops_add, Hpq. simpl.
      by eapply hops_ring. }
  split; [done|]. intros -> fuel rules. unfold score. simpl. by rewrite Hloop.
Qed.

Lemma iter_dir_loops_on_ring_witness :
  (∀ fuel, iter_dir fuel ring_heap Right 0 = Timeout)
  ∧ (∀ fuel rules, score fuel ring_heap (Plants.mk 0 rules) = Timeout).
Proof.
  destruct (iter_dir_loops_on_ring ring_heap Right 0 1 1 3) as [H1 H2];
    [by vm_compute|lia|by vm_compute|].
  split; [exact H1|]. by apply H2.
Defined.

Lemma setattr_setattr d v w p : setattr d v (setattr d w p) = setattr d v p.
Proof. by destruct d. Qed.

(** X8.  Linking and unlinking undo each other.  A child with no neighbour
    on the side of the parent, appended to a parent with a free side, makes
    the two pots neighbours of each other, and detaching it gives back the
    store as it was; detaching a neighbour and appending it again does the
    same. *)
Theorem append_detach_inverse (h : heap) (p c : id) (d : Dir) (op oc : Pot.t) :
  h !! p = Some op → h !! c = Some oc → c ≠ p →
  (getattr d op = None → getattr (_reverse d) oc = None →
     ∃ h1, append h p d c = Ok (h1, c)
           ∧ linked h1 d p c ∧ linked h1 (_reverse d) c p
           ∧ detach h1 p d = Ok (h, c))
  ∧ (getattr d op = Some c → getattr (_reverse d) oc = Some p →
     ∃ h1, detach h p d = Ok (h1, c)
           ∧ (∀ x, ¬ linked h1 d p x) ∧ (∀ x, ¬ linked h1 (_reverse d) c x)
           ∧ append h1 p d c = Ok (h, c)).
Proof.
  intros Hp Hc Hcp. split.
  - intros Hpd Hcr.
    exists (<[c := setattr (_reverse d) (Some p) oc]> (<[p := setattr d (Some c) op]> h)).
    split; [|split; [|split]].
    + unfold append. rewrite (deref_Some _ _ _ Hp). bind_cases. rewrite Hpd.
      by rewrite (deref_Some _ _ oc) by by rewrite lookup_insert_ne.
    + eexists. rewrite lookup_insert_ne, lookup_insert_eq by done.
      by rewrite getattr_setattr.
    + eexists. rewrite lookup_insert_eq. by rewrite getattr_setattr.
    + unfold detach.
      rewrite (deref_Some _ _ (setattr d (Some c) op))
        by by rewrite lookup_insert_ne, lookup_insert_eq.
      bind_cases. rewrite getattr_setattr.
      rewrite (deref_Some _ _ (setattr (_reverse d) (Some p) oc))
        by by rewrite lookup_insert_ne, lookup_insert_eq.
      bind_cases. do 2 f_equal. rewrite !setattr_setattr.
      assert (setattr d None op = op) as -> by (by rewrite <- Hpd, setattr_same).
      assert (setattr (_reverse d) None oc = oc) as ->
        by (by rewrite <- Hcr, setattr_same).
      apply map_eq. intros i. rewrite !lookup_insert.
      repeat case_decide; congruence.
  - intros Hpd Hcr.
    exists (<[c := setattr (_reverse d) None oc]> (<[p := setattr d None op]> h)).
    split; [|split; [|split]].
    + unfold detach. rewrite (deref_Some _ _ _ Hp). bind_cases. rewrite Hpd.
      rewrite (deref_Some _ _ oc) by by rewrite lookup_insert_ne.
      by bind_cases.
    + intros x (o & Ho & Hg).
      rewrite lookup_insert_ne, lookup_insert_eq in Ho by done. injection Ho as <-.
      by rewrite getattr_setattr in Hg.
    + intros x (o & Ho & Hg). rewrite lookup_insert_eq in Ho. injection Ho as <-.
      by rewrite getattr_setattr in Hg.
    + unfold append.
      rewrite (deref_Some _ _ (setattr d None op))
        by by rewrite lookup_insert_ne, lookup_insert_eq.
      bind_cases. rewrite getattr_setattr.
      rewrite (deref_Some _ _ (setattr (_reverse d) None oc))
        by by rewrite lookup_insert_ne, lookup_insert_eq.
      bind_cases. do 2 f_equal. rewrite !setattr_setattr.
      assert (setattr d (Some c) op = op) as -> by (by rewrite <- Hpd, setattr_same).
      assert (setattr (_reverse d) (Some p) oc = oc) as ->
        by (by rewrite <- Hcr, setattr_same).
      apply map_eq. intros i. rewrite !lookup_insert.
      repeat case_decide; congruence.
Qed.

Lemma append_detach_inverse_witness :
  (∃ h1, append example_heap 4 Right 0 = Ok (h1, 0) ∧ detach h1 4 Right = Ok (example_heap, 0))
  ∧ (∃ h1, detach example_heap 1 Right = Ok (h1, 2)
           ∧ append h1 1 Right 2 = Ok (example_heap, 2)).
Proof.
  split.
  - edestruct (append_detach_inverse example_heap 4 0 Right) as [H _];
      [by vm_compute|by vm_compute|done|].
    destruct H as (h1 & Ha & _ & _ & Hd); [done|done|]. eauto.
  - edestruct (append_detach_inverse example_heap 1 2 Right) as [_ H];
      [by vm_compute|by vm_compute|done|].
    destruct H as (h1 & Hd & _ & _ & Ha); [done|done|]. eauto.
Defined.

(** ** Placeholders *)

(** X9.  A placeholder behind a pot [p] whose side [d] is free reads as no
    plant, and writing no plant to it changes nothing, after which its
    generator ends.  Writing a plant links exactly one new pot in behind
    [p], holding a plant, and the generator goes on with a further
    placeholder behind that pot; every later write goes to that same pot
    and creates nothing.  When the side of [p] is taken, writing a plant
    raises [AssertionError]. *)
Theorem placeholder_links_one_pot (h : heap) (p : id) (d : Dir) (op : Pot.t) :
  h !! p = Some op →
  (getattr d op = None →
     PotentialPot_plant h (mkPotentialPot p d None) = Ok false
     ∧ PotentialPot_set_plant h (mkPotentialPot p d None) false
       = Ok (h, mkPotentialPot p d None)
     ∧ with_potentials_next h d (WPPotential (mkPotentialPot p d None)) = Ok None
     ∧ ∃ h1 new,
         PotentialPot_set_plant h (mkPotentialPot p d None) true
         = Ok (h1, mkPotentialPot p d (Some new))
         ∧ h !! new = None
         ∧ dom h1 = dom h ∪ {[new]}
         ∧ linked h1 d p new ∧ linked h1 (_reverse d) new p
         ∧ (∀ x, ¬ linked h1 d new x)
         ∧ with_potentials_next h1 d (WPPotential (mkPotentialPot p d (Some new)))
           = Ok (Some (Potential (mkPotentialPot new d None),
                       WPPotential (mkPotentialPot new d None)))
         ∧ PotentialPot_plant h1 (mkPotentialPot p d (Some new)) = Ok true
         ∧ ∀ v, ∃ h2,
             PotentialPot_set_plant h1 (mkPotentialPot p d (Some new)) v
             = Ok (h2, mkPotentialPot p d (Some new))
             ∧ dom h2 = dom h1
             ∧ (∀ d' a b, linked h2 d' a b ↔ linked h1 d' a b)
             ∧ PotentialPot_plant h2 (mkPotentialPot p d (Some new)) = Ok v)
  ∧ (∀ x, getattr d op = Some x →
       PotentialPot_set_plant h (mkPotentialPot p d None) true = Raise AssertionError).
Proof.
  intros Hp. split.
  - intros Hfree. split; [done|]. split; [done|]. split; [done|].
    set (new := fresh (dom h)).
    assert (h !! new = None) as Hnew by apply not_elem_of_dom, is_fresh.
    assert (p ≠ new) as Hpn by congruence.
    set (h1 := <[new := setattr (_reverse d) (Some p) (Pot.new true)]>
                 (<[p := setattr d (Some new) op]> (<[new := Pot.new true]> h))).
    assert (h1 !! new = Some (setattr (_reverse d) (Some p) (Pot.new true))) as Hn1
      by apply lookup_insert_eq.
    exists h1, new. split; [|split; [done|split; [|split; [|split; [|split; [|split; [|split]]]]]]].
    + unfold PotentialPot_set_plant, alloc, append. cbn [pp_linked pp_parent pp_dir].
      fold new.
      rewrite (deref_Some _ _ op) by by rewrite lookup_insert_ne.
      bind_cases. rewrite Hfree.
      by rewrite (deref_Some _ _ (Pot.new true))
        by by rewrite lookup_insert_ne, lookup_insert_eq.
    + unfold h1. rewrite !dom_insert_L.
      assert (p ∈ dom h) by (apply elem_of_dom; eauto). set_solver.
    + eexists. unfold h1. rewrite lookup_insert_ne, lookup_insert_eq by done.
      by rewrite getattr_setattr.
    + eexists. split; [exact Hn1|]. by rewrite getattr_setattr.
    + intros x (o & Ho & Hg). rewrite Hn1 in Ho. injection Ho as <-.
      by destruct d.
    + cbn [with_potentials_next pp_linked].
      unfold Pot_with_potentials_next, iter_dir_next.
      rewrite (deref_Some _ _ _ Hn1). bind_cases. by destruct d.
    + unfold PotentialPot_plant. cbn [pp_linked].
      rewrite (deref_Some _ _ _ Hn1). by destruct d.
    + intros v. eexists. unfold PotentialPot_set_plant. cbn [pp_linked].
      rewrite (deref_Some _ _ _ Hn1). bind_cases. split; [done|]. split; [|split].
      * rewrite dom_insert_L. assert (new ∈ dom h1) by (apply elem_of_dom; eauto).
        set_solver.
      * intros d' a b. rewrite (insert_set_plant _ _ _ _ Hn1).
        apply linked_alter_plant.
      * unfold PotentialPot_plant. cbn [pp_linked].
        rewrite (deref_Some _ _ (set_plant v (setattr (_reverse d) (Some p) (Pot.new true))))
          by apply lookup_insert_eq.
        done.
  - intros x Htaken. unfold PotentialPot_set_plant, alloc, append.
    cbn [pp_linked pp_parent pp_dir].
    assert (p ≠ fresh (dom h)) as Hpn.
    { intros E. apply (is_fresh (dom h)). rewrite <- E. apply elem_of_dom. eauto. }
    rewrite (deref_Some _ _ op) by by rewrite lookup_insert_ne.
    bind_cases. by rewrite Htaken.
Qed.

Lemma placeholder_links_one_pot_witness :
  (∃ h1 new,
     PotentialPot_set_plant example_heap (mkPotentialPot 4 Right None) true
     = Ok (h1, mkPotentialPot 4 Right (Some new))
     ∧ linked h1 Right 4 new
     ∧ PotentialPot_plant h1 (mkPotentialPot 4 Right (Some new)) = Ok true)
  ∧ PotentialPot_set_plant example_heap (mkPotentialPot 1 Right None) true
    = Raise AssertionError.
Proof.
  destruct (placeholder_links_one_pot example_heap 4 Right (Pot.mk true (Some 3) None))
    as [Hfree _]; [by vm_compute|].
  destruct Hfree as (_ & _ & _ & h1 & new & Hset & _ & _ & Hl & _ & _ & _ & Hp & _); [done|].
  destruct (placeholder_links_one_pot example_heap 1 Right (Pot.mk true (Some 5) (Some 2)))
    as [_ Htaken]; [by vm_compute|].
  split; [eauto|]. by apply (Htaken 2).
Defined.

(** ** The header line *)

(** The match of a literal separator at the head of a string. *)
Fixpoint strip_prefix (sep s : list ascii) : option (list ascii) :=
  match sep, s with
  | [], _ => Some s
  | a :: sep', b :: s' => if decide (a = b) then strip_prefix sep' s' else None
  | _ :: _, [] => None
  end.

(** [s.partition(sep)[-1]]: what follows the first occurrence of [sep], and
    the empty string when there is none. *)
Fixpoint partition_last (sep s : list ascii) : list ascii :=
  match strip_prefix sep s with
  | Some rest => rest
  | None =>
      match s with
      | [] => []
      | _ :: s' => partition_last sep s'
      end
  end.

Fixpoint lstrip (s : list ascii) : list ascii :=
  match s with
  | [] => []
  | c :: s' => if isspace c then lstrip s' else s
  end.

(** [str.strip()] *)
Definition strip (s : list ascii) : list ascii :=
  reverse (lstrip (reverse (lstrip s))).

(** [Plants.from_lines].  [None] stands for the [StopIteration] that
    [next(it)] raises when there is no first line. *)
Definition Plants_from_lines (h : heap) (lines : list string)
  : option (result (heap * Plants.t)) :=
  match lines with
  | [] => None
  | first :: it =>
      let initial :=
        strip (partition_last (String.list_ascii_of_string "initial state:")
                 (String.list_ascii_of_string first)) in
      Some (Plants_from h (String.string_of_list_ascii initial) it)
  end.

Lemma strip_prefix_Some sep s rest :
  strip_prefix sep s = Some rest ↔ s = sep ++ rest.
Proof.
  revert s. induction sep as [|a sep IH]; intros s; simpl.
  - naive_solver.
  - destruct s as [|b s]; [naive_solver|].
    case_decide; subst; [rewrite IH|]; naive_solver.
Qed.

Lemma strip_prefix_app sep rest : strip_prefix sep (sep ++ rest) = Some rest.
Proof. by apply strip_prefix_Some. Qed.

Lemma partition_last_absent sep s :
  (∀ s1 s2, s ≠ s1 ++ sep ++ s2) → partition_last sep s = [].
Proof.
  induction s as [|c s IH]; intros Habs.
  - simpl. destruct (strip_prefix sep []) as [rest|] eqn:E; [|done].
    apply strip_prefix_Some in E. by destruct (Habs [] rest).
  - simpl. destruct (strip_prefix sep (c :: s)) as [rest|] eqn:E.
    + apply strip_prefix_Some in E. by destruct (Habs [] rest).
    + apply IH. intros s1 s2 ->. by destruct (Habs (c :: s1) s2).
Qed.

Lemma partition_last_head sep rest : partition_last sep (sep ++ rest) = rest.
Proof.
  destruct (sep ++ rest) eqn:E; simpl; rewrite <- E, strip_prefix_app; done.
Qed.

Lemma lstrip_spaces ws s :
  Forall (λ c, isspace c = true) ws → lstrip (ws ++ s) = lstrip s.
Proof. induction 1 as [|c ws Hc _ IH]; [done|]. simpl. by rewrite Hc. Qed.

Lemma lstrip_head s :
  (∀ c, head s = Some c → isspace c = false) → lstrip s = s.
Proof. destruct s as [|c s]; [done|]. intros H. simpl. by rewrite (H c). Qed.

Lemma strip_padded ws1 lit ws2 :
  Forall (λ c, isspace c = true) ws1 →
  Forall (λ c, isspace c = true) ws2 →
  (∀ c, head lit = Some c → isspace c = false) →
  (∀ c, last lit = Some c → isspace c = false) →
  strip (ws1 ++ lit ++ ws2) = lit.
Proof.
  intros H1 H2 Hh Hl. unfold strip. rewrite lstrip_spaces by done.
  destruct lit as [|c lit].
  - simpl. rewrite <- (app_nil_r ws2), lstrip_spaces by done. done.
  - rewrite (lstrip_head ((c :: lit) ++ ws2)) by (intros c' [= <-]; by apply Hh).
    rewrite reverse_app, lstrip_spaces by by apply Forall_reverse.
    rewrite lstrip_head, list.reverse_involutive; [done|].
    intros c'. rewrite head_reverse. apply Hl.
Qed.

(** X10.  [Plants.from_lines] takes the tape literal from the first line and
    the rules from the lines after it.  On a first line that starts with
    the header ['initial state:'] the literal is what follows the header,
    with the whitespace around it dropped.  A first line without the header
    gives the empty literal, so that loading raises [AttributeError]
    whatever the rule lines are.  With no line at all there is no first
    line to take. *)
Theorem from_lines_reads_header (h : heap) (rest : list string) :
  Plants_from_lines h [] = None
  ∧ (∀ ws1 lit ws2,
       Forall (λ c, isspace c = true) ws1 →
       Forall (λ c, isspace c = true) ws2 →
       (∀ c, head lit = Some c → isspace c = false) →
       (∀ c, last lit = Some c → isspace c = false) →
       Plants_from_lines h
         (String.string_of_list_ascii
            (String.list_ascii_of_string "initial state:" ++ ws1 ++ lit ++ ws2) :: rest)
       = Some (Plants_from h (String.string_of_list_ascii lit) rest))
  ∧ (∀ first,
       (∀ s1 s2, String.list_ascii_of_string first
                 ≠ s1 ++ String.list_ascii_of_string "initial state:" ++ s2) →
       Plants_from_lines h (first :: rest) = Some (Raise AttributeError)).
Proof.
  split; [done|]. split.
  - intros ws1 lit ws2 H1 H2 Hh Hl. unfold Plants_from_lines.
    rewrite String.list_ascii_of_string_of_list_ascii.
    by rewrite partition_last_head, strip_padded.
  - intros first Habs. unfold Plants_from_lines.
    rewrite partition_last_absent by done.
    unfold Plants_from, from_initial, alloc. simpl.
    rewrite (deref_Some _ _ (Pot.new false)) by by rewrite lookup_insert_eq.
    done.
Qed.

Lemma from_lines_reads_header_witness :
  Plants_from_lines ∅ ["initial state:  #..#	"; ""; "..#.. => #"]
  = Some (Plants_from ∅ "#..#" [""; "..#.. => #"]).
Proof.
  destruct (from_lines_reads_header ∅ [""; "..#.. => #"]) as (_ & Hhead & _).
  apply (Hhead (String.list_ascii_of_string "  ")
               (String.list_ascii_of_string "#..#")
               (String.list_ascii_of_string "	")).
  - by repeat constructor.
  - by repeat constructor.
  - by intros c [= <-].
  - by intros c [= <-].
Defined.

(** ** Rule lines of the format *)

(** The pattern and the result that a line of the format spells. *)
Definition pattern_of (line : string) : _RuleKey :=
  (λ c, bool_decide (c = "#"%char)) <$> take 5 (String.list_ascii_of_string line).

Definition result_of (line : string) : Plant :=
  bool_decide (last (String.list_ascii_of_string line) = Some "#"%char).

Lemma is_cell_char_cases c : is_cell_char c = true → c = "."%char ∨ c = "#"%char.
Proof.
  unfold is_cell_char. intros [H|H]%orb_prop; apply bool_decide_eq_true in H; auto.
Qed.

Lemma rule_line_shape_entry line :
  rule_line_shape line = true →
  strip_nonempty line = true ∧ _rule_parse line ≠ []
  ∧ entry_of line = (pattern_of line, result_of line).
Proof.
  unfold rule_line_shape, strip_nonempty, entry_of, pattern_of, result_of, _rule_parse.
  destruct (String.list_ascii_of_string line)
    as [|p1 [|p2 [|p3 [|p4 [|p5 [|s1 [|e [|g [|s2 [|r [|]]]]]]]]]]]; try done.
  intros [Hc Hs]%andb_prop. apply bool_decide_eq_true in Hs as [= -> -> -> ->].
  cbn [forallb] in Hc.
  repeat (apply andb_prop in Hc as [?%is_cell_char_cases Hc]).
  destruct_or!; subst; by vm_compute.
Qed.

Lemma last_entry_shaped k lines :
  (∀ l, l ∈ lines → strip_nonempty l = true → rule_line_shape l = true) →
  last_entry k (entry_of <$> filter (λ l, strip_nonempty l = true) lines)
  = last (result_of <$>
            filter (λ l, strip_nonempty l = true ∧ pattern_of l = k) lines).
Proof.
  unfold last_entry.
  induction lines as [|l lines IH] using rev_ind; intros Hall; [done|].
  assert (∀ l, l ∈ lines → strip_nonempty l = true → rule_line_shape l = true) as Hall'.
  { intros l' Hl'. apply Hall, elem_of_app. by left. }
  specialize (IH Hall').
  rewrite !filter_app, !filter_cons, !filter_nil.
  destruct (decide (strip_nonempty l = true)) as [Hnb|Hnb].
  - destruct (rule_line_shape_entry l) as (_ & _ & He).
    { apply Hall; [|done]. apply elem_of_app. right. by left. }
    rewrite fmap_app, filter_app. csimpl. rewrite filter_cons, filter_nil, He. simpl.
    destruct (decide (pattern_of l = k)) as [Hk|Hk].
    + rewrite decide_True by done. rewrite fmap_app. csimpl. by rewrite !last_snoc.
    + rewrite decide_False by naive_solver. by rewrite !app_nil_r.
  - rewrite decide_False by naive_solver. by rewrite !app_nil_r.
Qed.

(** X11.  When every non-blank line has the format, five cells, the arrow
    and one cell, loading the rules succeeds, and the table answers each
    five-cell pattern with the result spelled by the last line that spells
    that pattern, or with no plant when no line does. *)
Theorem from_lines_of_the_format (lines : list string) :
  (∀ l, l ∈ lines → strip_nonempty l = true → rule_line_shape l = true) →
  ∃ rules, Rules_from_lines lines = Ok rules
    ∧ ∀ a b c d e,
        next_plant_state rules [a; b; c; d; e]
        = Ok (default false
                (last (result_of <$>
                         filter (λ l, strip_nonempty l = true
                                      ∧ pattern_of l = [a; b; c; d; e]) lines))).
Proof.
  intros Hall. eexists. split.
  - unfold Rules_from_lines. rewrite mapR_parse_Ok; [done|].
    apply Forall_forall. intros l [Hnb Hl]%list_elem_of_filter.
    by apply rule_line_shape_entry, Hall.
  - intros a b c d e. by rewrite build_lookup, last_entry_shaped.
Qed.

Lemma from_lines_of_the_format_witness :
  ∃ rules,
    Rules_from_lines ["..#.. => #"; "  "; "#.#.# => #"; "..#.. => ."] = Ok rules
    ∧ next_plant_state rules [false; false; true; false; false] = Ok false
    ∧ next_plant_state rules [true; false; true; false; true] = Ok true
    ∧ next_plant_state rules [true; true; true; true; true] = Ok false.
Proof.
  destruct (from_lines_of_the_format ["..#.. => #"; "  "; "#.#.# => #"; "..#.. => ."])
    as (rules & Hok & Hget).
  - intros l Hl Hnb. repeat (apply elem_of_cons in Hl as [->|Hl]; [done|]).
    by apply elem_of_nil in Hl.
  - exists rules. split; [done|]. by rewrite !Hget.
Defined.

(** ** Entries the update never reads *)

Lemma walk_rules_ext fuel r1 r2 d h wp la st pot :
  (∀ k, length k = 5 → next_plant_state r1 k = next_plant_state r2 k) →
  length st = 5 →
  walk fuel r1 d h wp la st pot = walk fuel r2 d h wp la st pot.
Proof.
  intros Hext. revert h wp la st pot.
  induction fuel as [|fuel IH]; intros h wp la st pot Hst; [done|].
  cbn [walk].
  destruct (with_potentials_next h d wp) as [[[pot' wp']|]| |]; bind_cases.
  destruct (lookahead_next h d la) as [[nextplant la']| |]; bind_cases.
  rewrite Hext by by apply rot_length.
  destruct (next_plant_state r2 _) as [v| |]; bind_cases.
  destruct pot' as [i|pp].
  - destruct (deref h i) as [p| |]; bind_cases. by apply IH, rot_length.
  - destruct (PotentialPot_set_plant h pp v) as [[h' pp']| |]; bind_cases.
    by apply IH, rot_length.
Qed.

Lemma apply_rules_ext fuel r1 r2 h root :
  (∀ k, length k = 5 → next_plant_state r1 k = next_plant_state r2 k) →
  apply fuel r1 h root = apply fuel r2 h root.
Proof.
  intros Hext. unfold apply.
  destruct (deref h root) as [r| |]; bind_cases.
  destruct (lookahead_next h Left (Some root)) as [[l1 la1]| |]; bind_cases.
  destruct (lookahead_next h Left la1) as [[l2 la2]| |]; bind_cases.
  destruct (lookahead_next h Right (Some root)) as [[r1' la3]| |]; bind_cases.
  destruct (lookahead_next h Right la3) as [[r2' la4]| |]; bind_cases.
  rewrite Hext by done.
  destruct (next_plant_state r2 _) as [v| |]; bind_cases.
  unfold apply_dir.
  rewrite (walk_rules_ext fuel r1 r2 Left) by done.
  destruct (walk fuel r2 Left _ _ _ _ _) as [[h1 [i|pp]]| |]; bind_cases.
  destruct (trim fuel h1 root _ _) as [h2| |]; bind_cases.
  by rewrite (walk_rules_ext fuel r1 r2 Right) by done.
Qed.

Lemma last_entry_filter_length k entries :
  length k = 5 →
  last_entry k (filter (λ kr, length kr.1 = 5) entries) = last_entry k entries.
Proof.
  intros Hk. unfold last_entry. f_equal. f_equal.
  induction entries as [|[k' r] entries IH]; [done|].
  rewrite !filter_cons. simpl.
  destruct (decide (k' = k)) as [->|Hne].
  - rewrite decide_True by done. rewrite filter_cons. simpl.
    rewrite decide_True by done. by rewrite IH.
  - case_decide; [|done]. rewrite filter_cons. simpl.
    by rewrite decide_False by done.
Qed.

(** X12.  Entries whose key is not five cells long, as lines that do not
    have the format give, are never read: in every store, a step with them
    in the table does exactly what a step without them does. *)
Theorem step_ignores_other_keys (fuel : nat) (h : heap) (root : id)
    (entries : list (_RuleKey * Plant)) :
  step fuel h (Plants.mk root (build entries))
  = step fuel h (Plants.mk root (build (filter (λ kr, length kr.1 = 5) entries))).
Proof.
  unfold step. simpl. apply apply_rules_ext.
  intros [|a [|b [|c [|d [|e [|]]]]]]; try done. intros _.
  by rewrite !build_lookup, last_entry_filter_length.
Qed.

(** ** Printing *)

Lemma length_string_of_list_ascii (l : list ascii) :
  String.length (String.string_of_list_ascii l) = length l.
Proof. induction l; simpl; congruence. Qed.

(** X13.  On every tape [__str__] returns one character for every cell:
    those of the left side from the outermost one inwards, the root, those
    of the right side outwards, ['#'] for a plant and ['.'] for none; the
    rules play no part. *)
Theorem str_reads_the_tape (fuel : nat) (h : heap) (root : id) (rules : Rules.t)
    (lcells : list cell) (c : Plant) (rcells : list cell) :
  tape_repr h root lcells c rcells →
  length lcells < fuel → length rcells < fuel →
  ∃ s, Plants_str fuel h (Plants.mk root rules) = Ok s
    ∧ String.list_ascii_of_string s
      = (plant_char <$> reverse lcells.*2) ++ plant_char c :: (plant_char <$> rcells.*2)
    ∧ String.length s = length lcells + 1 + length rcells.
Proof.
  intros Hrepr Hfl Hfr. eexists. split; [by apply Plants_str_repr|].
  unfold tape_str. rewrite String.list_ascii_of_string_of_list_ascii.
  split; [by rewrite fmap_app|].
  rewrite length_string_of_list_ascii.
  rewrite length_fmap, length_app, length_reverse. simpl. rewrite !length_fmap. lia.
Qed.

Lemma str_reads_the_tape_witness :
  Plants_str 4 example_heap (Plants.mk 1 (build [])) = Ok "#.#..#".
Proof.
  destruct (str_reads_the_tape 4 example_heap 1 (build [])
              [(5, false); (6, true)] true [(2, false); (3, false); (4, true)])
    as (s & Hs & Hchars & _); [apply example_tape_repr|simpl; lia|simpl; lia|].
  rewrite Hs. f_equal.
  rewrite <- (String.string_of_list_ascii_of_string s), Hchars. done.
Defined.

(** ** Left and right

    The update treats the two sides alike. *)

(** The rules read from right to left. *)
Definition mirror_entries (entries : list (_RuleKey * Plant)) : list (_RuleKey * Plant) :=
  (λ kr, (reverse kr.1, kr.2)) <$> entries.

Lemma last_entry_mirror k entries :
  last_entry (reverse k) (mirror_entries entries) = last_entry k entries.
Proof.
  unfold last_entry, mirror_entries.
  assert (filter (λ kr : _RuleKey * Plant, kr.1 = reverse k)
            ((λ kr : _RuleKey * Plant, (reverse kr.1, kr.2)) <$> entries)
          = (λ kr : _RuleKey * Plant, (reverse kr.1, kr.2))
              <$> filter (λ kr : _RuleKey * Plant, kr.1 = k) entries) as ->.
  { induction entries as [|[k' r] entries IH]; [done|].
    csimpl. rewrite !filter_cons. simpl.
    destruct (decide (k' = k)) as [->|Hne].
    - rewrite decide_True by done. csimpl. by rewrite IH.
    - rewrite decide_False; [done|]. by intros ?%(inj reverse). }
  rewrite fmap_last. by destruct (last _) as [[]|].
Qed.

Lemma rule_of_build entries a b c d e :
  rule_of (build entries) [a; b; c; d; e]
  = default false (last_entry [a; b; c; d; e] entries).
Proof.
  pose proof (build_lookup entries a b c d e) as H.
  unfold next_plant_state in H. unfold rule_of.
  destruct (_ !! _); [by injection H as ->|done].
Qed.

Lemma rule_of_mirror entries k :
  length k = 5 →
  rule_of (build (mirror_entries entries)) (reverse k) = rule_of (build entries) k.
Proof.
  destruct k as [|a [|b [|c [|d [|e [|]]]]]]; try done. intros _.
  change (reverse [a; b; c; d; e]) with [e; d; c; b; a].
  rewrite !rule_of_build.
  change [e; d; c; b; a] with (reverse [a; b; c; d; e]).
  by rewrite last_entry_mirror.
Qed.

Lemma rot_mirror d st p :
  length st = 5 → rot (_reverse d) (reverse st) p = reverse (rot d st p).
Proof. destruct st as [|a [|b [|c [|e [|f [|]]]]]]; try done. by destruct d. Qed.

Section mirror.
Variables rules mrules : Rules.t.
Hypothesis Hmirror :
  ∀ k, length k = 5 → rule_of mrules (reverse k) = rule_of rules k.

Lemma sweep_news_mirror d xs : ∀ st,
  length st = 5 →
  sweep_news mrules (_reverse d) (reverse st) xs = sweep_news rules d st xs.
Proof.
  induction xs as [|x xs IH]; intros st Hst; [done|].
  simpl. rewrite rot_mirror by done.
  rewrite Hmirror by by apply rot_length.
  by rewrite IH by by apply rot_length.
Qed.

Lemma sweep_state_mirror d xs : ∀ st,
  length st = 5 →
  sweep_state mrules (_reverse d) (reverse st) xs = reverse (sweep_state rules d st xs).
Proof.
  induction xs as [|x xs IH]; intros st Hst; [done|].
  simpl. rewrite rot_mirror by done. by apply IH, rot_length.
Qed.

Lemma grow_mirror d fuel : ∀ st,
  length st = 5 →
  grow fuel mrules (_reverse d) (reverse st) = grow fuel rules d st.
Proof.
  induction fuel as [|fuel IH]; intros st Hst; [done|].
  simpl. rewrite rot_mirror by done.
  rewrite Hmirror by by apply rot_length.
  by rewrite IH by by apply rot_length.
Qed.

Lemma step_side_mirror d fuel cs xs :
  length cs = 5 →
  step_side mrules (_reverse d) fuel (reverse cs) xs = step_side rules d fuel cs xs.
Proof.
  intros Hcs. unfold step_side.
  rewrite sweep_state_mirror, sweep_news_mirror by done.
  by rewrite grow_mirror by by apply sweep_state_length.
Qed.

Lemma step_tape_mirror fuel ls c rs :
  step_tape mrules fuel (rs, c, ls)
  = (λ t : tape, (t.2, t.1.2, t.1.1)) <$> step_tape rules fuel (ls, c, rs).
Proof.
  cbn [step_tape].
  change (central_state rs c ls) with (reverse (central_state ls c rs)).
  pose proof (step_side_mirror Right fuel (central_state ls c rs) rs eq_refl) as HR.
  pose proof (step_side_mirror Left fuel (central_state ls c rs) ls eq_refl) as HL.
  cbn [_reverse] in HR, HL. rewrite HR, HL, Hmirror by done.
  destruct (step_side rules Right _ _ _) as [rs'|],
           (step_side rules Left _ _ _) as [ls'|]; done.
Qed.
End mirror.

Lemma tape_str_mirror ls c rs :
  String.list_ascii_of_string (tape_str rs c ls)
  = reverse (String.list_ascii_of_string (tape_str ls c rs)).
Proof.
  unfold tape_str. rewrite !String.list_ascii_of_string_of_list_ascii.
  rewrite <- fmap_reverse. f_equal.
  by rewrite reverse_app, reverse_cons, list.reverse_involutive, <- app_assoc.
Qed.

(** X14.  The update treats left and right alike.  Take a tape and its
    mirror image, the same root cell with the two sides exchanged, and
    the rules with every pattern read from right to left.  If a step
    returns on the tape, a step with the mirrored rules returns on the
    mirror image; the two new tapes print as each other's reverse, and
    their scores are opposite. *)
Theorem step_mirror (entries : list (_RuleKey * Plant)) (fuel big : nat)
    (h1 : heap) (root1 : id) (lcells1 rcells1 : list cell) (c : Plant) (h1' : heap)
    (h2 : heap) (root2 : id) (lcells2 rcells2 : list cell) :
  tape_repr h1 root1 lcells1 c rcells1 →
  tape_repr h2 root2 lcells2 c rcells2 →
  lcells2.*2 = rcells1.*2 → rcells2.*2 = lcells1.*2 →
  step fuel h1 (Plants.mk root1 (build entries)) = Ok h1' →
  length lcells1 + length rcells1 + fuel + 1 ≤ big →
  ∃ h2' s1 s2 n,
    step big h2 (Plants.mk root2 (build (mirror_entries entries))) = Ok h2'
    ∧ Plants_str big h1' (Plants.mk root1 (build entries)) = Ok s1
    ∧ Plants_str big h2' (Plants.mk root2 (build (mirror_entries entries))) = Ok s2
    ∧ String.list_ascii_of_string s2 = reverse (String.list_ascii_of_string s1)
    ∧ score big h1' (Plants.mk root1 (build entries)) = Ok n
    ∧ score big h2' (Plants.mk root2 (build (mirror_entries entries))) = Ok (- n)%Z.
Proof.
  intros Hrepr1 Hrepr2 Hl Hr Hstep Hbig.
  set (rules := build entries) in *. set (mrules := build (mirror_entries entries)).
  pose proof (build_total5 entries) as Htot. fold rules in Htot.
  pose proof (build_total5 (mirror_entries entries)) as Hmtot. fold mrules in Hmtot.
  destruct (apply_returns_inv rules fuel h1 root1 lcells1 c rcells1 h1' Htot Hrepr1 Hstep)
    as (ls' & c' & rs' & lcells1' & rcells1' & Hst & Hrepr1' & Hls1 & Hrs1).
  assert (length lcells2 = length rcells1) as Hlenl
    by (by rewrite <- (length_fmap snd lcells2), Hl, length_fmap).
  assert (length rcells2 = length lcells1) as Hlenr
    by (by rewrite <- (length_fmap snd rcells2), Hr, length_fmap).
  destruct (apply_refines mrules big fuel h2 root2 lcells2 c rcells2 rs' c' ls')
    as (h2' & lcells2' & rcells2' & Hap2 & Hrepr2' & Hls2 & Hrs2);
    [done|done| |lia|lia|].
  { rewrite Hl, Hr.
    rewrite (step_tape_mirror rules mrules (rule_of_mirror entries)), Hst. done. }
  pose proof Hst as Hst'. cbn [step_tape] in Hst'.
  destruct (step_side rules Left _ _ _) as [ls0|] eqn:Hsl; [|done].
  destruct (step_side rules Right _ _ _) as [rs0|] eqn:Hsr; [|done].
  injection Hst' as -> _ ->.
  apply step_side_length in Hsl, Hsr. rewrite length_fmap in Hsl, Hsr.
  assert (length lcells1' < big ∧ length rcells1' < big
          ∧ length lcells2' < big ∧ length rcells2' < big) as (? & ? & ? & ?).
  { rewrite <- (length_fmap snd lcells1'), <- (length_fmap snd rcells1'),
      <- (length_fmap snd lcells2'), <- (length_fmap snd rcells2'),
      Hls1, Hrs1, Hls2, Hrs2. lia. }
  exists h2', (tape_str ls' c' rs'), (tape_str rs' c' ls'),
    (wsum 1 rs' - wsum 1 ls')%Z.
  split; [done|]. split; [|split; [|split; [|split]]].
  - rewrite <- Hls1, <- Hrs1. by apply Plants_str_repr.
  - rewrite <- Hls2, <- Hrs2. by apply Plants_str_repr.
  - apply tape_str_mirror.
  - rewrite <- Hls1, <- Hrs1. by apply (score_repr _ _ _ _ _ c').
  - replace (- (wsum 1 rs' - wsum 1 ls'))%Z with (wsum 1 ls' - wsum 1 rs')%Z by lia.
    rewrite <- Hls2, <- Hrs2. by apply (score_repr _ _ _ _ _ c').
Qed.

(** The mirror image of [example_tape]: true cells at the positions -3, 0
    and 2. *)
Definition mirror_example_tape : result (heap * id) :=
  '(h, root) ← from_initial ∅ "#.#";
  let '(h, l1) := alloc h (Pot.new false) in
  '(h, l1) ← append h root Left l1;
  let '(h, l2) := alloc h (Pot.new false) in
  '(h, l2) ← append h l1 Left l2;
  let '(h, l3) := alloc h (Pot.new true) in
  '(h, _) ← append h l2 Left l3;
  Ok (h, root).

Definition mirror_example_heap : heap :=
  Eval vm_compute in match mirror_example_tape with Ok (h, _) => h | _ => ∅ end.

Lemma mirror_example_tape_repr :
  mirror_example_tape = Ok (mirror_example_heap, 1)
  ∧ tape_repr mirror_example_heap 1
      [(4, false); (5, false); (6, true)] true [(2, false); (3, true)].
Proof.
  split; [by vm_compute|].
  split.
  - by eexists.
  - apply (bool_decide_unpack _). by vm_compute.
  - split; [by eexists|]. simpl. repeat split; by eexists.
  - split; [by eexists|]. simpl. repeat split; by eexists.
Qed.

(** The rule [..#.# => #] on [#.#..#], and [#.#.. => #] on [#..#.#]. *)
Lemma step_mirror_witness :
  ∃ h1' h2' s1 s2 n,
    step 9 example_heap (Plants.mk 1 (build [([false; false; true; false; true], true)]))
    = Ok h1'
    ∧ step 15 mirror_example_heap
        (Plants.mk 1 (build [([true; false; true; false; false], true)])) = Ok h2'
    ∧ Plants_str 15 h1' (Plants.mk 1 (build [([false; false; true; false; true], true)]))
      = Ok s1
    ∧ Plants_str 15 h2' (Plants.mk 1 (build [([true; false; true; false; false], true)]))
      = Ok s2
    ∧ String.list_ascii_of_string s2 = reverse (String.list_ascii_of_string s1)
    ∧ score 15 h1' (Plants.mk 1 (build [([false; false; true; false; true], true)])) = Ok n
    ∧ score 15 h2' (Plants.mk 1 (build [([true; false; true; false; false], true)]))
      = Ok (- n)%Z.
Proof.
  destruct (apply_refines (build [([false; false; true; false; true], true)]) 9 3
              example_heap 1 [(5, false); (6, true)] true [(2, false); (3, false); (4, true)]
              [false; true] false [])
    as (h1' & _ & _ & Hstep1 & _);
    [apply build_total5|apply example_tape_repr|by vm_compute|simpl; lia|simpl; lia|].
  destruct (step_mirror [([false; false; true; false; true], true)] 9 15
              example_heap 1 [(5, false); (6, true)] [(2, false); (3, false); (4, true)]
              true h1'
              mirror_example_heap 1 [(4, false); (5, false); (6, true)] [(2, false); (3, true)])
    as (h2' & s1 & s2 & n & H1 & H2 & H3 & H4 & H5 & H6);
    [apply example_tape_repr|apply mirror_example_tape_repr|done|done|done|simpl; lia|].
  exists h1', h2', s1, s2, n.
  exact (conj Hstep1 (conj H1 (conj H2 (conj H3 (conj H4 (conj H5 H6)))))).
Defined.

(** ** What a step leaves alone *)

Lemma deref_dom (h : heap) i p : deref h i = Ok p → i ∈ dom h.
Proof. intros H%deref_Ok. apply elem_of_dom. eauto. Qed.

Lemma append_dom h self d pot h' x :
  append h self d pot = Ok (h', x) → dom h ⊆ dom h'.
Proof.
  unfold append. destruct (deref h self) as [s| |]; bind_cases.
  destruct (getattr d s); [done|].
  destruct (deref _ pot) as [p| |]; bind_cases.
  intros [= <- _]. rewrite !dom_insert. set_solver.
Qed.

Lemma detach_dom h self d h' x :
  detach h self d = Ok (h', x) → dom h ⊆ dom h'.
Proof.
  unfold detach. destruct (deref h self) as [s| |]; bind_cases.
  destruct (getattr d s) as [n|]; [|done].
  destruct (deref _ n) as [p| |]; bind_cases.
  intros [= <- _]. rewrite !dom_insert. set_solver.
Qed.

Lemma PotentialPot_set_plant_dom h pp v h' pp' :
  PotentialPot_set_plant h pp v = Ok (h', pp') → dom h ⊆ dom h'.
Proof.
  unfold PotentialPot_set_plant, alloc. destruct (pp_linked pp) as [l|].
  - destruct (deref h l) as [p| |]; bind_cases.
    intros [= <- _]. rewrite dom_insert. set_solver.
  - destruct v; [|by intros [= <- _]].
    destruct (append _ _ _ _) as [[h2 x]| |] eqn:E; bind_cases.
    intros [= <- _]. apply append_dom in E. rewrite dom_insert in E. set_solver.
Qed.

Lemma walk_dom rules d : ∀ fuel h wp la st pot h' pot',
  walk fuel rules d h wp la st pot = Ok (h', pot') → dom h ⊆ dom h'.
Proof.
  induction fuel as [|fuel IH]; intros h wp la st pot h' pot'; [done|].
  rewrite walk_unfold.
  destruct (with_potentials_next h d wp) as [[[pt wp']|]| |]; bind_cases;
    [|by intros [= <- _]].
  destruct (lookahead_next h d la) as [[nextplant la']| |]; bind_cases.
  destruct (next_plant_state rules _) as [v| |]; bind_cases.
  destruct pt as [i|pp].
  - destruct (deref h i) as [p| |]; bind_cases.
    intros H%IH. rewrite dom_insert in H. set_solver.
  - destruct (PotentialPot_set_plant h pp v) as [[h1 pp1]| |] eqn:E; bind_cases.
    intros H%IH. apply PotentialPot_set_plant_dom in E. set_solver.
Qed.

Lemma trim_dom root rev : ∀ fuel h pot h',
  trim fuel h root rev pot = Ok h' → dom h ⊆ dom h'.
Proof.
  induction fuel as [|fuel IH]; intros h pot h'; [done|].
  rewrite trim_unfold. destruct (deref h pot) as [p| |]; bind_cases.
  destruct (negb (Pot.plant p) && negb (bool_decide (pot = root)));
    [|by intros [= <-]].
  destruct (detach h pot rev) as [[h1 pot1]| |] eqn:E; bind_cases.
  intros H%IH. apply detach_dom in E. set_solver.
Qed.

Lemma apply_dir_dom fuel rules root d st la h h' :
  apply_dir fuel rules root d st la h = Ok h' → dom h ⊆ dom h'.
Proof.
  unfold apply_dir.
  destruct (walk fuel rules d h _ _ _ _) as [[h1 [i|pp]]| |] eqn:E; bind_cases.
  intros H%trim_dom. apply walk_dom in E. set_solver.
Qed.

Lemma apply_refines_frame rules fuel fuelg h root lcells c rcells t' :
  total5 rules →
  tape_repr h root lcells c rcells →
  step_tape rules fuelg (lcells.*2, c, rcells.*2) = Some t' →
  length lcells + fuelg + 1 ≤ fuel → length rcells + fuelg + 1 ≤ fuel →
  ∃ h' lcells' rcells',
    apply fuel rules h root = Ok h'
    ∧ side_repr h' Left root lcells' ∧ side_repr h' Right root rcells'
    ∧ (∀ i, i ∈ dom h → i ∉ root :: lcells.*1 ++ rcells.*1 → h' !! i = h !! i)
    ∧ (∀ i, i ∈ lcells'.*1 → i ∈ lcells.*1 ∨ i ∉ dom h)
    ∧ (∀ i, i ∈ rcells'.*1 → i ∈ rcells.*1 ∨ i ∉ dom h).
Proof.
  intros Htot [(r & Hr & Hc) Hnd Hl Hrt] Hstep Hfl Hfr.
  apply NoDup_tape_sides in Hnd as (Hndl & Hndr & Hdis).
  cbn [step_tape] in Hstep. unfold step_side in Hstep.
  set (cs := central_state lcells.*2 c rcells.*2) in *.
  destruct (grow fuelg rules Left _) as [gl|] eqn:Hgl; [|done].
  destruct (grow fuelg rules Right _) as [gr|] eqn:Hgr; [|done].
  clear Hstep.
  unfold apply. rewrite (deref_Some _ _ _ Hr). bind_cases.
  rewrite (lookahead_next_root _ _ _ _ Hl). bind_cases.
  rewrite (lookahead_next_lseg _ _ _ root 0 (proj2 Hl)). bind_cases.
  rewrite (lookahead_next_root _ _ _ _ Hrt). bind_cases.
  rewrite (lookahead_next_lseg _ _ _ root 0 (proj2 Hrt)). bind_cases.
  rewrite Hc.
  change (rot Right (rot Right (rot Left (rot Left [c] _) _) _) _) with cs.
  rewrite next_plant_state_total by done. bind_cases.
  rewrite (insert_set_plant _ _ _ _ Hr).
  set (v := rule_of rules cs). set (h0 := alter (set_plant v) root h).
  assert (root ∉ lcells.*1) as Hrl by by apply NoDup_cons in Hndl as [? _].
  assert (root ∉ rcells.*1) as Hrr by by apply NoDup_cons in Hndr as [? _].
  assert (side_repr h0 Left root lcells) as Hl0 by by apply side_repr_alter_plant.
  assert (side_repr h0 Right root rcells) as Hr0 by by apply side_repr_alter_plant.
  assert (∀ i, i ∈ dom h0 ↔ i ∈ dom h) as Hdom0.
  { intros i. unfold h0. rewrite !elem_of_dom, lookup_alter.
    case_decide; subst; [rewrite Hr|]; done. }
  destruct (apply_dir_spec rules Left fuel fuelg h0 root lcells cs gl)
    as (h1 & lcells' & Hap1 & Hl1 & Hls' & Hndl' & Hin1 & Hfr1 & Hk1); try done.
  rewrite Hap1. bind_cases.
  assert (side_repr h1 Right root rcells) as Hr1.
  { eapply side_repr_frame; [| |exact Hr0].
    - intros i Hi. apply Hfr1.
      + eapply side_repr_dom; [exact Hr0|]. by right.
      + intros [->|Hi']%elem_of_cons; [done|]. by apply (Hdis i).
    - destruct Hk1 as (r0 & r1 & H0 & H1 & _ & Hg). by exists r0, r1. }
  destruct (apply_dir_spec rules Right fuel fuelg h1 root rcells cs gr)
    as (h2 & rcells' & Hap2 & Hr2 & Hrs' & Hndr' & Hin2 & Hfr2 & Hk2); try done.
  rewrite Hap2.
  assert (∀ i, i ∈ lcells'.*1 → i ∉ root :: rcells.*1) as Hdis1.
  { intros i Hi [->|Hi']%elem_of_cons.
    - by apply NoDup_cons in Hndl' as [? _].
    - destruct (Hin1 i Hi) as [Hold|Hnew].
      + by apply (Hdis i).
      + apply Hnew. eapply side_repr_dom; [exact Hr0|]. by right. }
  apply apply_dir_dom in Hap1.
  exists h2, lcells', rcells'. split; [done|]. split; [|split; [done|split; [|split]]].
  - eapply side_repr_frame; [| |exact Hl1].
    + intros i Hi. apply Hfr2; [|by apply Hdis1].
      eapply side_repr_dom; [exact Hl1|]. by right.
    + destruct Hk2 as (r1 & r2 & H1 & H2 & _ & Hg). by exists r1, r2.
  - intros i Hi Hni. apply not_elem_of_cons in Hni as [Hir Hni].
    apply not_elem_of_app in Hni as [Hil Hirr].
    assert (h1 !! i = h !! i) as E1.
    { rewrite Hfr1; [|by apply Hdom0|set_solver].
      unfold h0. by rewrite lookup_alter_ne. }
    rewrite Hfr2; [done| |set_solver].
    apply Hap1. by apply Hdom0.
  - intros i Hi. destruct (Hin1 i Hi) as [?|Hnew]; [by left|].
    right. intros Hd. by apply Hnew, Hdom0.
  - intros i Hi. destruct (Hin2 i Hi) as [?|Hnew]; [by left|].
    right. intros Hd. by apply Hnew, Hap1, Hdom0.
Qed.

(** X15.  A step touches the tape only.  When it returns, every pot of the
    store that is not a cell of the tape is exactly as it was, and each
    side of the new tape is made of cells of that side of the old tape
    and of pots that did not exist before the step. *)
Theorem step_touches_only_the_tape (fuel : nat) (h : heap) (root : id)
    (entries : list (_RuleKey * Plant)) (lcells : list cell) (c : Plant)
    (rcells : list cell) (h' : heap) :
  tape_repr h root lcells c rcells →
  step fuel h (Plants.mk root (build entries)) = Ok h' →
  (∀ i, i ∈ dom h → i ∉ root :: lcells.*1 ++ rcells.*1 → h' !! i = h !! i)
  ∧ ∃ lcells' rcells',
      side_repr h' Left root lcells' ∧ side_repr h' Right root rcells'
      ∧ (∀ i, i ∈ lcells'.*1 → i ∈ lcells.*1 ∨ i ∉ dom h)
      ∧ (∀ i, i ∈ rcells'.*1 → i ∈ rcells.*1 ∨ i ∉ dom h).
Proof.
  intros Hrepr Hstep. unfold step in Hstep. simpl in Hstep.
  pose proof (build_total5 entries) as Htot.
  destruct (apply_returns_inv _ _ _ _ _ _ _ _ Htot Hrepr Hstep)
    as (ls' & c' & rs' & _ & _ & Hst & _).
  set (big := fuel + (length lcells + length rcells + fuel + 1)).
  destruct (apply_refines_frame (build entries) big fuel h root lcells c rcells _
              Htot Hrepr Hst)
    as (h2 & lcells' & rcells' & Hap2 & Hl2 & Hr2 & Hframe & Hnl & Hnr);
    [unfold big; lia|unfold big; lia|].
  assert (h2 = h') as ->.
  { pose proof (fuel_le (λ f, apply f (build entries) h root)
                  (apply_fuel_S (build entries) h root)
                  fuel big ltac:(unfold big; lia)) as Hmono.
    simpl in Hmono. rewrite Hstep in Hmono. specialize (Hmono ltac:(done)). congruence. }
  split; [done|]. by exists lcells', rcells'.
Qed.

(** A second tape, [#.#], loaded into the store of [example_tape]. *)
Definition two_tapes_heap : heap :=
  Eval vm_compute in
    match from_initial example_heap "#.#" with Ok (h, _) => h | _ => ∅ end.

Lemma two_tapes_repr :
  from_initial example_heap "#.#" = Ok (two_tapes_heap, 8)
  ∧ tape_repr two_tapes_heap 8 [] true [(9, false); (10, true)].
Proof.
  split; [by vm_compute|].
  split.
  - by eexists.
  - apply (bool_decide_unpack _). by vm_compute.
  - split; [by eexists|]. done.
  - split; [by eexists|]. simpl. repeat split; by eexists.
Qed.

(** A step on the second tape leaves the pots of the first as they were. *)
Lemma step_touches_only_the_tape_witness :
  ∃ h', step 6 two_tapes_heap
          (Plants.mk 8 (build [([false; false; true; false; false], true)])) = Ok h'
    ∧ ∀ i, i < 7 → h' !! i = example_heap !! i.
Proof.
  destruct (apply_refines (build [([false; false; true; false; false], true)]) 6 3
              two_tapes_heap 8 [] true [(9, false); (10, true)] [] false [])
    as (h' & _ & _ & Hstep & _);
    [apply build_total5|apply two_tapes_repr|by vm_compute|simpl; lia|simpl; lia|].
  exists h'. split; [done|]. intros i Hi.
  destruct (step_touches_only_the_tape 6 two_tapes_heap 8
              [([false; false; true; false; false], true)]
              [] true [(9, false); (10, true)] h') as [Hframe _];
    [apply two_tapes_repr|done|].
  do 7 (destruct i as [|i];
    [rewrite Hframe;
       [done|apply elem_of_dom; by eexists|apply (bool_decide_unpack _); by vm_compute]|]).
  lia.
Defined.

(** ** Generations *)

(** X16.  Under a rule table that maps the all-false window to no plant,
    any number of steps in a row returns, with fuel for the longer side
    and two more for every step (and two on top), and the score can then
    be read.  Each side has grown by at most two cells for every step. *)
Theorem steps_return (entries : list (_RuleKey * Plant)) (n fuel : nat)
    (h : heap) (root : id) (lcells rcells : list cell) (c : Plant) :
  next_plant_state (build entries) [false; false; false; false; false] = Ok false →
  tape_repr h root lcells c rcells →
  length lcells + 2 * n + 2 ≤ fuel → length rcells + 2 * n + 2 ≤ fuel →
  ∃ h' lcells' c' rcells' z,
    steps n fuel h (Plants.mk root (build entries)) = Ok h'
    ∧ tape_repr h' root lcells' c' rcells'
    ∧ length lcells' ≤ length lcells + 2 * n ∧ length rcells' ≤ length rcells + 2 * n
    ∧ score fuel h' (Plants.mk root (build entries)) = Ok z.
Proof.
  intros Hzero. revert h lcells rcells c.
  induction n as [|n IH]; intros h lcells rcells c Hrepr Hfl Hfr.
  - exists h, lcells, c, rcells. eexists. split; [done|]. split; [done|].
    split; [lia|]. split; [lia|].
    apply (score_repr fuel h root _ lcells c rcells); [done|lia|lia].
  - destruct (step_quiet_returns entries fuel h root lcells rcells c)
      as (h1 & lcells1 & c1 & rcells1 & Hstep & Hrepr1 & _ & _ & Hl1 & Hr1);
      [done|done|lia|lia|].
    destruct (IH h1 lcells1 rcells1 c1)
      as (h' & lcells' & c' & rcells' & z & Hsteps & Hrepr' & Hl' & Hr' & Hscore);
      [done|lia|lia|].
    exists h', lcells', c', rcells', z. cbn [steps]. rewrite Hstep. bind_cases.
    split; [done|]. split; [done|]. split; [lia|]. split; [lia|done].
Qed.

Lemma steps_return_witness :
  ∃ h' lcells' c' rcells' z,
    steps 20 45 example_heap (Plants.mk 1 (build [([false; false; true; false; false], true)]))
    = Ok h'
    ∧ tape_repr h' 1 lcells' c' rcells'
    ∧ length lcells' ≤ 2 + 2 * 20 ∧ length rcells' ≤ 3 + 2 * 20
    ∧ score 45 h' (Plants.mk 1 (build [([false; false; true; false; false], true)])) = Ok z.
Proof.
  apply (steps_return [([false; false; true; false; false], true)] 20 45
           example_heap 1 [(5, false); (6, true)] [(2, false); (3, false); (4, true)] true).
  - done.
  - apply example_tape_repr.
  - simpl. lia.
  - simpl. lia.
Defined.
